(** * Resolution-based satisfiability of a clausal knowledge base

    A shallow embedding of [satisfiability.py]: the [Literal] class with
    its [substitute] method, [unify] / [unify_var] / [occur_check],
    [make_clause], [PL_Resolve], [get_pairs] and the saturation loop
    [PL_Resolution], followed by the properties of the written
    specification that these functions satisfy or violate.

    Conventions of the embedding.
    - A Python [str] argument is [Sym s]; an object of class [Literal]
      that sits in an argument list (a function application) is
      [Fn name args]; a [Literal] that is a member of a clause is the
      record [Literal].  Both carry the same two fields.
    - The substitution [theta] is a [dict] keyed by strings, a [gmap];
      the three things the code passes around as "theta" (a dict, [None],
      [False]) are the three constructors of [theta_val].
    - The module-level list [VARIABLES] is threaded as state; exceptions
      ([IndexError], [TypeError]) and exhausted recursion fuel are
      outcomes of the monad [M].
    - A Python [set] of clauses is a duplicate-free list; the order in
      which [for c in S] visits it is unspecified in Python and is a
      parameter [iter] of the model. *)

From stdpp Require Import gmap strings list fin_maps.
From Stdlib Require Import Ascii String DecimalString Permutation.

Open Scope string_scope.
Open Scope list_scope.
Open Scope nat_scope.
Set Warnings "-register-all".

(** ** Terms, literals, clauses *)

Inductive term : Type :=
  | Sym (s : string)
  | Fn (name : string) (args : list term).

Record Literal : Type := mkLiteral {
  Predicate : string;
  Arguments : list term
}.

(** A clause is a tuple of literals. *)
Abbreviation Clause := (list Literal) (only parsing).

(** What [unify] receives for [x] and [y]: a term or an argument list. *)
Inductive pyval : Type :=
  | VT (t : term)
  | VL (l : list term).

(** What [unify] receives and returns for [theta]. *)
Inductive theta_val : Type :=
  | TDict (d : gmap string term)
  | TNone
  | TFalse.

Inductive exn : Type := IndexError | TypeError.

Inductive result (A : Type) : Type :=
  | Ret (a : A)
  | Raise (e : exn)
  | OutOfFuel.
Arguments Ret {A} a.
Arguments Raise {A} e.
Arguments OutOfFuel {A}.

(** ** Structural equality ([__eq__]) *)

Fixpoint term_eqb (a b : term) {struct a} : bool :=
  match a, b with
  | Sym s, Sym s' => String.eqb s s'
  | Fn p l, Fn p' l' =>
      String.eqb p p' &&
      (fix go (l l' : list term) {struct l} : bool :=
         match l, l' with
         | [], [] => true
         | x :: r, x' :: r' => term_eqb x x' && go r r'
         | _, _ => false
         end) l l'
  | _, _ => false
  end.

Fixpoint list_eqb {A} (eqb : A -> A -> bool) (l l' : list A) : bool :=
  match l, l' with
  | [], [] => true
  | x :: r, x' :: r' => eqb x x' && list_eqb eqb r r'
  | _, _ => false
  end.

Definition Literal_eqb (a b : Literal) : bool :=
  String.eqb (Predicate a) (Predicate b) &&
  list_eqb term_eqb (Arguments a) (Arguments b).

Definition clause_eqb : Clause -> Clause -> bool := list_eqb Literal_eqb.

Definition pyval_eqb (x y : pyval) : bool :=
  match x, y with
  | VT a, VT b => term_eqb a b
  | VL a, VL b => list_eqb term_eqb a b
  | _, _ => false
  end.

(** ** The monad: [VARIABLES] as state, exceptions, fuel *)

(** [VARIABLES] is the module-level list of the source.  [resolved] is
    not a variable of the source: it is instrumentation, the arguments of
    every call of [PL_Resolve] made so far, oldest first. *)
Record state : Type := mkState {
  VARIABLES : list string;
  resolved : list (Clause * Clause)
}.

Definition M (A : Type) : Type := state -> result A * state.

Definition ret {A} (a : A) : M A := fun st => (Ret a, st).
Definition raise {A} (e : exn) : M A := fun st => (Raise e, st).
Definition out_of_fuel {A} : M A := fun st => (OutOfFuel, st).
Definition bind {A B} (m : M A) (f : A -> M B) : M B :=
  fun st =>
    match m st with
    | (Ret a, st') => f a st'
    | (Raise e, st') => (Raise e, st')
    | (OutOfFuel, st') => (OutOfFuel, st')
    end.
Definition get_VARIABLES : M (list string) := fun st => (Ret (VARIABLES st), st).
Definition append_VARIABLES (s : string) : M unit :=
  fun st => (Ret tt, mkState (VARIABLES st ++ [s]) (resolved st)).
Definition log_resolve (p : Clause * Clause) : M unit :=
  fun st => (Ret tt, mkState (VARIABLES st) (resolved st ++ [p])).
Definition lift {A} (r : result A) : M A := fun st => (r, st).

Notation "'do' x <- m ; k" := (bind m (fun x => k))
  (at level 10, x name, m at level 100, k at level 200).

Fixpoint foldM {A B} (f : B -> A -> M B) (l : list A) (acc : B) : M B :=
  match l with
  | [] => ret acc
  | a :: r => do acc' <- f acc a; foldM f r acc'
  end.

(** ** [Literal.substitute] *)

(** One argument of the loop in [substitute]: a key of [theta] is replaced
    by its value (which is not visited again), a nested [Literal] is
    substituted recursively, anything else is kept. *)
Fixpoint subst_arg (d : gmap string term) (arg : term) : term :=
  match arg with
  | Sym s => match d !! s with Some v => v | None => Sym s end
  | Fn p args => Fn p (map (subst_arg d) args)
  end.

(** [arg in theta] raises [TypeError] when [theta] is [False] or [None];
    the loop body is reached only when there is an argument. *)
Definition substitute (theta : theta_val) (l : Literal) : result Literal :=
  match theta with
  | TDict d => Ret (mkLiteral (Predicate l) (map (subst_arg d) (Arguments l)))
  | _ =>
      match Arguments l with
      | [] => Ret (mkLiteral (Predicate l) [])
      | _ :: _ => Raise TypeError
      end
  end.

(** ** [occur_check] *)

Fixpoint occur_check_term (var : string) (x : term) : bool :=
  match x with
  | Sym s => String.eqb var s
  | Fn p args => String.eqb p var || existsb (occur_check_term var) args
  end.

Definition occur_check (var : string) (x : pyval) : bool :=
  match x with
  | VT t => occur_check_term var t
  | VL l => if 1 <? List.length l then existsb (occur_check_term var) l else false
  end.

(** ** [unify] and [unify_var] *)

Definition mem_string (s : string) (l : list string) : bool :=
  existsb (String.eqb s) l.

(** [x in VARIABLES]: only a [str] can be equal to a member. *)
Definition in_VARIABLES (x : pyval) (vs : list string) : option string :=
  match x with
  | VT (Sym s) => if mem_string s vs then Some s else None
  | _ => None
  end.

Definition str (i : nat) : string := NilEmpty.string_of_uint (Nat.to_uint i).

(** The [while new in VARIABLES] loop; it re-tries [i = 0] once, as the
    source does, and stops at the first candidate that is not a variable. *)
Fixpoint fresh_loop (fuel : nat) (c : ascii) (vs : list string)
    (new : string) (i : nat) : result string :=
  if mem_string new vs then
    match fuel with
    | 0 => OutOfFuel
    | S fuel => fresh_loop fuel c vs (String c (str i)) (S i)
    end
  else Ret new.

Definition unify_var (unify : pyval -> pyval -> theta_val -> M theta_val)
    (var : string) (x : pyval) (theta : theta_val) : M theta_val :=
  match theta with
  | TDict d =>
      match d !! var with
      | Some val => unify (VT val) x theta
      | None =>
          match x with
          | VL _ => raise TypeError
          | VT t =>
              match (match t with Sym s => d !! s | Fn _ _ => None end) with
              | Some val => unify (VT (Sym var)) (VT val) theta
              | None =>
                  if occur_check var x then ret TFalse
                  else
                    do vs <- get_VARIABLES;
                    match in_VARIABLES x vs with
                    | Some s =>
                        if negb (String.eqb s var) then
                          match s with
                          | EmptyString => raise IndexError
                          | String c _ =>
                              do new <- lift (fresh_loop (S (List.length vs)) c vs
                                             (String c (str 0)) 0);
                              do u <- append_VARIABLES new;
                              ret (TDict (<[s := Sym new]> (<[var := Sym new]> d)))
                          end
                        else ret (TDict (<[var := t]> d))
                    | None => ret (TDict (<[var := t]> d))
                    end
              end
          end
      end
  | _ => raise TypeError
  end.

Fixpoint unify (fuel : nat) (x y : pyval) (theta : theta_val) : M theta_val :=
  match fuel with
  | 0 => out_of_fuel
  | S fuel =>
      match theta with
      | TNone => ret TNone
      | _ =>
          if pyval_eqb x y then ret theta
          else
            do vs <- get_VARIABLES;
            match in_VARIABLES x vs with
            | Some var => unify_var (unify fuel) var y theta
            | None =>
                match in_VARIABLES y vs with
                | Some var => unify_var (unify fuel) var x theta
                | None =>
                    match x, y with
                    | VT (Fn px ax), VT (Fn py ay) =>
                        do new_theta <- unify fuel (VT (Sym px)) (VT (Sym py)) theta;
                        unify fuel (VL ax) (VL ay) new_theta
                    | VL lx, VL ly =>
                        match lx, ly with
                        | x0 :: xs, y0 :: ys =>
                            do rest <- unify fuel (VL xs) (VL ys) theta;
                            unify fuel (VT x0) (VT y0) rest
                        | _, _ => raise IndexError
                        end
                    | _, _ => ret TNone
                    end
                end
            end
      end
  end.


(** ** Sets of clauses *)

Definition mem_clause (c : Clause) (s : list Clause) : bool :=
  existsb (clause_eqb c) s.

Definition set_add (c : Clause) (s : list Clause) : list Clause :=
  if mem_clause c s then s else s ++ [c].

Definition set_union (s t : list Clause) : list Clause :=
  fold_left (fun acc c => set_add c acc) t s.

Definition issubset (s t : list Clause) : bool :=
  forallb (fun c => mem_clause c t) s.

Definition pair_eqb (p q : Clause * Clause) : bool :=
  clause_eqb (fst p) (fst q) && clause_eqb (snd p) (snd q).

Definition mem_pair (p : Clause * Clause) (s : list (Clause * Clause)) : bool :=
  existsb (pair_eqb p) s.

Definition add_pair (p : Clause * Clause) (s : list (Clause * Clause))
    : list (Clause * Clause) :=
  if mem_pair p s then s else s ++ [p].

(** ** [make_clause] and [PL_Resolve] *)

Definition make_clause (literal literal2 : Literal)
    (clause_one clause_two : Clause) : Clause :=
  List.filter (fun t => negb (Literal_eqb t literal)) clause_one ++
  List.filter (fun t => negb (Literal_eqb t literal2)) clause_two.

(** The complement of a predicate name; [pred[0]] raises [IndexError] on
    the empty string. *)
Definition compliment_of (pred : string) : result string :=
  match pred with
  | EmptyString => Raise IndexError
  | String c rest =>
      if Ascii.eqb c "!" then Ret rest else Ret (String "!" pred)
  end.

(** [for new_literal in new: copy.append(new_literal.substitute(theta))] *)
Fixpoint substitute_all (theta : theta_val) (new : Clause) : result Clause :=
  match new with
  | [] => Ret []
  | l :: r =>
      match substitute theta l with
      | Ret l' =>
          match substitute_all theta r with
          | Ret r' => Ret (l' :: r')
          | Raise e => Raise e
          | OutOfFuel => OutOfFuel
          end
      | Raise e => Raise e
      | OutOfFuel => OutOfFuel
      end
  end.

(** The body of the inner loop of [PL_Resolve]. *)
Definition resolve_literals (fuel : nat) (clause_one clause_two : Clause)
    (literal : Literal) (compliment : string)
    (resolvents : list Clause) (literal2 : Literal) : M (list Clause) :=
  if String.eqb compliment (Predicate literal2) then
    match Arguments literal, Arguments literal2 with
    | _ :: _, _ :: _ =>
        do theta <- unify fuel (VL (Arguments literal))
                      (VL (Arguments literal2)) (TDict ∅);
        match theta with
        | TNone => ret resolvents
        | _ =>
            do copy <- lift (substitute_all theta
                       (make_clause literal literal2 clause_one clause_two));
            ret (set_add copy resolvents)
        end
    | _, _ =>
        ret (set_add (make_clause literal literal2 clause_one clause_two)
               resolvents)
    end
  else ret resolvents.

Definition PL_Resolve (fuel : nat) (clause_one clause_two : Clause)
    : M (list Clause) :=
  foldM (fun resolvents literal =>
           do compliment <- lift (compliment_of (Predicate literal));
           foldM (resolve_literals fuel clause_one clause_two literal compliment)
             clause_two resolvents)
    clause_one [].

(** ** [get_pairs] and [PL_Resolution] *)

Section Saturation.

(** The order in which a [for] loop visits a set of clauses. *)
Variable iter : list Clause -> list Clause.

Definition get_pairs (originalClause : Clause) (compliment : string)
    (KB : list Clause) : list Clause :=
  fold_left
    (fun matches clause =>
       fold_left
         (fun matches literal =>
            if String.eqb (Predicate literal) compliment
               && negb (mem_clause clause matches)
               && negb (clause_eqb clause originalClause)
            then set_add clause matches
            else matches)
         clause matches)
    (iter KB) [].

(** [matched] after the loop over the literals of [clause]: every
    iteration overwrites it. *)
Definition matched_of (KB : list Clause) (clause : Clause) : M (list Clause) :=
  foldM (fun matched literal =>
           do compliment <- lift (compliment_of (Predicate literal));
           ret (get_pairs clause compliment KB))
    clause [].

Definition collect_matches (clause : Clause)
    (acc : list (Clause * Clause) * list (Clause * Clause))
    (matched : list Clause)
    : list (Clause * Clause) * list (Clause * Clause) :=
  fold_left
    (fun acc match_ =>
       if negb (mem_pair (clause, match_) (snd acc))
          && negb (mem_pair (match_, clause) (snd acc))
       then (fst acc ++ [(clause, match_)],
             add_pair (match_, clause) (add_pair (clause, match_) (snd acc)))
       else acc)
    (iter matched) acc.

(** The first loop of a round: the pairs to resolve and the updated
    [processed] set. *)
Definition collect_pairs (KB : list Clause)
    (processed : list (Clause * Clause))
    : M (list (Clause * Clause) * list (Clause * Clause)) :=
  foldM (fun acc clause =>
           do matched <- matched_of KB clause;
           ret (collect_matches clause acc matched))
    (iter KB) ([], processed).

(** The second loop of a round; [None] is the early [return False]. *)
Fixpoint resolve_pairs (fuel : nat) (pairs : list (Clause * Clause))
    (new : list Clause) : M (option (list Clause)) :=
  match pairs with
  | [] => ret (Some new)
  | pr :: rest =>
      do u <- log_resolve pr;
      do resolvents <- PL_Resolve fuel (fst pr) (snd pr);
      if mem_clause [] resolvents then ret None
      else resolve_pairs fuel rest (set_union new resolvents)
  end.

Fixpoint PL_Resolution_loop (rounds fuel : nat) (KB : list Clause)
    (processed : list (Clause * Clause)) : M bool :=
  match rounds with
  | 0 => out_of_fuel
  | S rounds =>
      do cp <- collect_pairs KB processed;
      do new <- resolve_pairs fuel (fst cp) [];
      match new with
      | None => ret false
      | Some new =>
          if issubset new KB then ret true
          else PL_Resolution_loop rounds fuel (set_union KB new) (snd cp)
      end
  end.

Definition PL_Resolution (rounds fuel : nat) (KB : list Clause) : M bool :=
  PL_Resolution_loop rounds fuel KB [].

End Saturation.

(** * Definitions used to state the properties *)

Definition iter_is_permutation (iter : list Clause -> list Clause) : Prop :=
  forall s, Permutation (iter s) s.

Definition lit_P : Literal := mkLiteral "P" [].
Definition lit_notP : Literal := mkLiteral "!P" [].
Definition lit_Q : Literal := mkLiteral "Q" [].
Definition lit_R : Literal := mkLiteral "R" [].

Definition st_XY : state := mkState ["X"; "Y"] [].

(** Step 6 in the order the written specification gives it (first
    elements, then tails), for comparison with the source, which does the
    tails first. *)
Definition unify_lists_head_first (fuel : nat) (x0 : term) (xs : list term)
    (y0 : term) (ys : list term) (theta : theta_val) : M theta_val :=
  do first <- unify fuel (VT x0) (VT y0) theta;
  unify fuel (VL xs) (VL ys) first.

Definition lit_PX : Literal := mkLiteral "P" [Sym "X"].
Definition lit_notPfX : Literal := mkLiteral "!P" [Fn "f" [Sym "X"]].
Definition lit_Qa : Literal := mkLiteral "Q" [Sym "a"].

(** Only [resolve_pairs] writes to the log. *)
Definition log_stable {A} (m : M A) : Prop :=
  forall st, resolved (snd (m st)) = resolved st.

Definition swap (p : Clause * Clause) : Clause * Clause := (snd p, fst p).

(** [p] and [q] are the same unordered pair of clauses. *)
Definition same_unordered (p q : Clause * Clause) : Prop :=
  p = q \/ p = swap q.

(** The pairs of a list are pairwise different as unordered pairs. *)
Fixpoint udistinct (l : list (Clause * Clause)) : Prop :=
  match l with
  | [] => True
  | p :: r => (forall q, In q r -> ~ same_unordered p q) /\ udistinct r
  end.

(** What the first loop of a round maintains about the candidate pairs
    [fst acc] and the processed set [snd acc], relative to the processed
    set [processed] the round started with. *)
Definition collecting (processed : list (Clause * Clause))
    (acc : list (Clause * Clause) * list (Clause * Clause)) : Prop :=
  udistinct (fst acc) /\
  incl processed (snd acc) /\
  (forall p, In p (fst acc) ->
     ~ In p processed /\ ~ In (swap p) processed /\
     In p (snd acc) /\ In (swap p) (snd acc)).

(** The invariant of the saturation loop: the calls logged so far are
    pairwise different unordered pairs, and each is in [processed] in both
    orders. *)
Definition run_invariant (log processed : list (Clause * Clause)) : Prop :=
  udistinct log /\ forall p, In p log -> In p processed /\ In (swap p) processed.

Definition lit_notQ : Literal := mkLiteral "!Q" [].
Definition lit_notR : Literal := mkLiteral "!R" [].

(** [r] is what [PL_Resolve] adds for the complementary literals [L] of
    [A] and [M] of [B]: the tuple [make_clause L M A B] itself when one of
    the two has no arguments, and that tuple with a [theta] that [unify]
    returned and that is not [None] applied to each literal otherwise. *)
Definition resolvent_via (fuel : nat) (A B : Clause) (L M : Literal)
    (r : Clause) : Prop :=
  ((Arguments L = [] \/ Arguments M = []) /\ r = make_clause L M A B) \/
  (Arguments L <> [] /\ Arguments M <> [] /\
   exists st1 st2 theta,
     unify fuel (VL (Arguments L)) (VL (Arguments M)) (TDict ∅) st1 = (Ret theta, st2) /\
     theta <> TNone /\
     substitute_all theta (make_clause L M A B) = Ret r).

(** Applying [theta] to what [unify] was given. *)
Definition apply_theta (d : gmap string term) (v : pyval) : pyval :=
  match v with
  | VT t => VT (subst_arg d t)
  | VL l => VL (map (subst_arg d) l)
  end.

(** The symbols (strings in argument position) of a term. *)
Fixpoint symbols (t : term) : list string :=
  match t with
  | Sym s => [s]
  | Fn _ args => flat_map symbols args
  end.

(** The predicate and function names of a term. *)
Fixpoint fn_names (t : term) : list string :=
  match t with
  | Sym _ => []
  | Fn p args => p :: flat_map fn_names args
  end.

Definition pyval_fn_names (v : pyval) : list string :=
  match v with
  | VT t => fn_names t
  | VL l => flat_map fn_names l
  end.

(** No value of [theta] mentions a key of [theta]: there is no chained
    binding. *)
Definition unchained (d : gmap string term) : Prop :=
  forall k v s, d !! k = Some v -> In s (symbols v) -> d !! s = None.

(** None of [names] is a variable. *)
Definition not_variables (V names : list string) : Prop :=
  forall n, In n names -> ~ In n V.

Definition range_not_variables (V : list string) (d : gmap string term) : Prop :=
  forall k v, d !! k = Some v -> not_variables V (fn_names v).

(** What a successful call [unify a b d0] that returns the dict [d1]
    guarantees: [d1] extends [d0], [VARIABLES] only grows, the values of
    [d1] carry no name that [a], [b] and the values of [d0] do not carry,
    and every unchained extension of [d1] makes [a] and [b] equal, provided
    no predicate or function name involved is a variable. *)
Definition unify_post (a b : pyval) (d0 : gmap string term) (st : state)
    (d1 : gmap string term) (st' : state) : Prop :=
  d0 ⊆ d1 /\
  incl (VARIABLES st) (VARIABLES st') /\
  (forall V,
     not_variables V (pyval_fn_names a) -> not_variables V (pyval_fn_names b) ->
     range_not_variables V d0 -> range_not_variables V d1) /\
  (forall df V,
     d1 ⊆ df -> unchained df -> incl (VARIABLES st') V ->
     not_variables V (pyval_fn_names a) -> not_variables V (pyval_fn_names b) ->
     range_not_variables V df ->
     apply_theta df a = apply_theta df b).

Definition unify_sound (u : pyval -> pyval -> theta_val -> M theta_val) : Prop :=
  forall a b d0 st d1 st',
    u a b (TDict d0) st = (Ret (TDict d1), st') -> unify_post a b d0 st d1 st'.

(** A decision procedure for [unchained]. *)
Definition unchainedb (d : gmap string term) : bool :=
  forallb
    (fun kv =>
       forallb (fun s => match d !! s with None => true | Some _ => false end)
         (symbols (snd kv)))
    (map_to_list d).

Definition term_fXY : term := Fn "f" [Sym "X"; Sym "Y"].
Definition term_fgYa : term := Fn "f" [Fn "g" [Sym "Y"]; Sym "a"].

Definition term_Likes_X_Cake : term := Fn "Likes" [Sym "X"; Sym "Cake"].
Definition term_Likes_Alice_Y : term := Fn "Likes" [Sym "Alice"; Sym "Y"].

(** ** Further definitions: the unifier *)

(** [VARIABLES] of [st'] is [VARIABLES] of [st] with names appended, and
    it has gained no duplicate. *)
Definition variables_extended (st st' : state) : Prop :=
  (exists added, VARIABLES st' = VARIABLES st ++ added) /\
  (List.NoDup (VARIABLES st) -> List.NoDup (VARIABLES st')).

(** Whatever its outcome, [m] only appends to [VARIABLES]. *)
Definition extends_variables {A} (m : M A) : Prop :=
  forall st, variables_extended st (snd (m st)).

(** ** Further definitions: the resolver and the engine *)

(** Every literal of the clause is a propositional atom (no argument). *)
Definition propositional (c : Clause) : Prop :=
  forall l, In l c -> Arguments l = [].

(** No literal of the clause has the empty string as predicate name. *)
Definition named (c : Clause) : Prop :=
  forall l, In l c -> Predicate l <> "".

(** No literal of the clause is negated. *)
Definition positive (c : Clause) : Prop :=
  forall l, In l c ->
    exists ch rest, Predicate l = String ch rest /\ Ascii.eqb ch "!" = false.

(** Truth of a predicate name under a valuation of the un-negated names:
    a leading [!] negates the rest of the name, which is how
    [compliment_of] reads it. *)
Fixpoint holds (v : string -> bool) (pred : string) : bool :=
  match pred with
  | EmptyString => v ""
  | String c rest => if Ascii.eqb c "!" then negb (holds v rest) else v pred
  end.

(** A clause of propositional atoms is a disjunction. *)
Definition satisfies (v : string -> bool) (c : Clause) : bool :=
  existsb (fun l => holds v (Predicate l)) c.

(** The valuation makes every clause of the knowledge base true. *)
Definition models (v : string -> bool) (KB : list Clause) : Prop :=
  forall c, In c KB -> satisfies v c = true.

(** A propositional clause that every model of [KB0] satisfies. *)
Definition entailed (KB0 : list Clause) (c : Clause) : Prop :=
  propositional c /\ forall v, models v KB0 -> satisfies v c = true.

(** ** [Literal.__str__] and the reader of the input file

    A character of a Python [str] is an [ascii]: the strings modelled are
    those whose code points are below 256. *)

(** [ch in s] for a one-character string [ch]. *)
Fixpoint contains (ch : ascii) (s : string) : bool :=
  match s with
  | EmptyString => false
  | String c r => Ascii.eqb c ch || contains ch r
  end.

(** [s.split(sep)] for a one-character separator: never an empty list. *)
Fixpoint split_on (sep : ascii) (s : string) : list string :=
  match s with
  | EmptyString => [EmptyString]
  | String c r =>
      if Ascii.eqb c sep then EmptyString :: split_on sep r
      else
        match split_on sep r with
        | h :: t => String c h :: t
        | [] => [String c EmptyString]
        end
  end.

(** [s.split(sep, 1)]: one piece, or two when [sep] occurs. *)
Fixpoint split_once (sep : ascii) (s : string) : list string :=
  match s with
  | EmptyString => [EmptyString]
  | String c r =>
      if Ascii.eqb c sep then [EmptyString; r]
      else
        match split_once sep r with
        | h :: t => String c h :: t
        | [] => [String c EmptyString]
        end
  end.

(** [s[:-1]] *)
Fixpoint drop_last (s : string) : string :=
  match s with
  | EmptyString => EmptyString
  | String c EmptyString => EmptyString
  | String c r => String c (drop_last r)
  end.

(** The characters that [str.strip()] removes, among those below 256:
    tab to carriage return, the four separators 28 to 31, space, NEL and the
    no-break space. *)
Definition is_space (c : ascii) : bool :=
  let n := nat_of_ascii c in
  ((9 <=? n) && (n <=? 13)) || ((28 <=? n) && (n <=? 31))
  || (n =? 32) || (n =? 133) || (n =? 160).

Fixpoint lstrip (s : string) : string :=
  match s with
  | EmptyString => EmptyString
  | String c r => if is_space c then lstrip r else s
  end.

Fixpoint rstrip (s : string) : string :=
  match s with
  | EmptyString => EmptyString
  | String c r =>
      match rstrip r with
      | EmptyString => if is_space c then EmptyString else String c EmptyString
      | r' => String c r'
      end
  end.

Definition strip (s : string) : string := lstrip (rstrip s).

(** [sep.join(l)] *)
Fixpoint join (sep : string) (l : list string) : string :=
  match l with
  | [] => EmptyString
  | [x] => x
  | x :: r => x +:+ sep +:+ join sep r
  end.

(** The strings among the arguments, or [TypeError] at the first argument
    that is a [Literal]: what [", ".join(self.Arguments)] needs. *)
Fixpoint str_arguments (args : list term) : result (list string) :=
  match args with
  | [] => Ret []
  | Sym s :: r =>
      match str_arguments r with
      | Ret l => Ret (s :: l)
      | Raise e => Raise e
      | OutOfFuel => OutOfFuel
      end
  | Fn _ _ :: _ => Raise TypeError
  end.

Definition Literal_str (l : Literal) : result string :=
  match str_arguments (Arguments l) with
  | Ret strs => Ret (Predicate l +:+ "(" +:+ join ", " strs +:+ ")")
  | Raise e => Raise e
  | OutOfFuel => OutOfFuel
  end.

(** The reader either builds a value or stops on an exception: unpacking
    the result of [split("(", 1)] into two names raises [ValueError] when
    there is one piece only, and [lines[k]] raises [IndexError]. *)
Inductive parsing (A : Type) : Type :=
  | Parsed (a : A)
  | ParseValueError
  | ParseIndexError.
Arguments Parsed {A} a.
Arguments ParseValueError {A}.
Arguments ParseIndexError {A}.

Fixpoint parse_all {A B} (f : A -> parsing B) (l : list A) : parsing (list B) :=
  match l with
  | [] => Parsed []
  | x :: r =>
      match f x with
      | Parsed y =>
          match parse_all f r with
          | Parsed ys => Parsed (y :: ys)
          | ParseValueError => ParseValueError
          | ParseIndexError => ParseIndexError
          end
      | ParseValueError => ParseValueError
      | ParseIndexError => ParseIndexError
      end
  end.

(** One argument of a literal: a function application when it contains a
    parenthesis, a plain string otherwise. *)
Definition parse_arg (arg : string) : parsing term :=
  if contains "(" arg then
    match split_once "(" (drop_last arg) with
    | [name; func_args] => Parsed (Fn name (map Sym (split_on "," (strip func_args))))
    | _ => ParseValueError
    end
  else Parsed (Sym arg).

(** One space-separated token of a clause line. *)
Definition parse_literal (literal : string) : parsing Literal :=
  match
    (if contains "(" literal then
       match split_once "(" (drop_last literal) with
       | [predicate; args] => Parsed (predicate, args)
       | _ => ParseValueError
       end
     else Parsed (strip literal, EmptyString))
  with
  | Parsed (predicate, args) =>
      match parse_all parse_arg (split_on "," (strip args)) with
      | Parsed new_args => Parsed (mkLiteral predicate new_args)
      | ParseValueError => ParseValueError
      | ParseIndexError => ParseIndexError
      end
  | ParseValueError => ParseValueError
  | ParseIndexError => ParseIndexError
  end.

Definition parse_clause (line : string) : parsing Clause :=
  parse_all parse_literal (split_on " " (rstrip line)).

(** The four module-level lists set from the header. *)
Record globals : Type := mkGlobals {
  g_PREDICATES : list string;
  g_VARIABLES : list string;
  g_CONSTANTS : list string;
  g_FUNCTIONS : list string
}.

(** The reader, from [lines] (the lines of the file without their
    newline) to the globals and the set of clauses: four header lines, a
    fifth line that is skipped, then one clause a line. *)
Definition read_lines (lines : list string) : parsing (globals * list Clause) :=
  match lines with
  | l0 :: l1 :: l2 :: l3 :: rest =>
      match parse_all parse_clause (tl rest) with
      | Parsed clause_list =>
          Parsed (mkGlobals (removelast (tl (split_on " " l0)))
                            (tl (split_on " " l1))
                            (tl (split_on " " l2))
                            (tl (split_on " " l3)),
                  fold_left (fun clauses c => set_add c clauses) clause_list [])
      | ParseValueError => ParseValueError
      | ParseIndexError => ParseIndexError
      end
  | _ => ParseIndexError
  end.

(** How a run of the program ends. *)
Inductive outcome : Type :=
  | Printed (out : string)
  | Uncaught (e : exn)
  | UncaughtValueError
  | NoVerdict.

(** The body of [if __name__ == '__main__'], after the file is read. *)
Definition main (iter : list Clause -> list Clause) (rounds fuel : nat)
    (lines : list string) : outcome :=
  match read_lines lines with
  | Parsed (g, clauses) =>
      match fst (PL_Resolution iter rounds fuel clauses
                   (mkState (g_VARIABLES g) [])) with
      | Ret true => Printed "yes"
      | Ret false => Printed "no"
      | Raise e => Uncaught e
      | OutOfFuel => NoVerdict
      end
  | ParseValueError => UncaughtValueError
  | ParseIndexError => Uncaught IndexError
  end.

(** A name as the input format means it: no white space, no parenthesis,
    no comma. *)
Fixpoint plain (s : string) : bool :=
  match s with
  | EmptyString => true
  | String c r =>
      negb (is_space c) && negb (Ascii.eqb c "(") && negb (Ascii.eqb c ",")
      && plain r
  end.

(** An argument the reader reads back: a name, or a function applied to
    names. *)
Definition sym_name (t : term) : string :=
  match t with
  | Sym a => a
  | Fn _ _ => EmptyString
  end.

Definition render_term (t : term) : string :=
  match t with
  | Sym a => a
  | Fn f args => f +:+ "(" +:+ join "," (map sym_name args) +:+ ")"
  end.

(** A name, or a function with a plain name applied to one plain name. *)
Definition simple_term (t : term) : bool :=
  match t with
  | Sym a => plain a
  | Fn f [Sym a] => plain f && plain a
  | Fn _ _ => false
  end.

(** No character of the string is white space. *)
Fixpoint nospace (s : string) : bool :=
  match s with
  | EmptyString => true
  | String c r => negb (is_space c) && nospace r
  end.

(** Every literal of the clause carries the one empty-string argument
    that the reader gives to a token without parentheses. *)
Definition atom_clause (c : Clause) : Prop :=
  forall l, In l c -> Arguments l = [Sym EmptyString].

(** The last character of a string, if any. *)
Fixpoint last_char (s : string) : option ascii :=
  match s with
  | EmptyString => None
  | String c EmptyString => Some c
  | String _ r => last_char r
  end.

(** The symbols of what [unify] is given. *)
Definition pyval_symbols (v : pyval) : list string :=
  match v with
  | VT t => symbols t
  | VL l => flat_map symbols l
  end.

(** No symbol and no function name of [v] is in the list [V] of
    variables. *)
Definition ground (V : list string) (v : pyval) : Prop :=
  not_variables V (pyval_symbols v ++ pyval_fn_names v).

(** A header line: a label, then the names, separated by single spaces. *)
Definition header_line (label : string) (names : list string) : string :=
  label +:+ " " +:+ join " " names.

(** The tokens after the first when the text [P(a1, a2, ..., an)] is
    split at its spaces: [a2,] and so on, then [an)]. *)
Fixpoint later_tokens (rest : list string) : list string :=
  match rest with
  | [] => []
  | [a] => [a +:+ ")"]
  | a :: r => (a +:+ ",") :: later_tokens r
  end.

(** ** A satisfiable file that is reported unsatisfiable *)

(** The chained [theta] that [unify] builds for [(X, X)] against [(a, Y)]
    with the variables [X] and [Y]: the tails give [{X: Y0, Y: Y0}] with the
    fresh variable [Y0], the heads then bind [Y0] to [a]. *)
Definition theta_XX_aY : gmap string term :=
  <["Y0" := Sym "a"]> (<["Y" := Sym "Y0"]> (<["X" := Sym "Y0"]> ∅)).

Definition theta_fXY_fgYa : gmap string term :=
  <["X" := Fn "g" [Sym "Y"]]> (<["Y" := Sym "a"]> ∅).

Definition clause_PXX_RX : Clause :=
  [mkLiteral "P" [Sym "X"; Sym "X"]; mkLiteral "R" [Sym "X"]].
Definition clause_notPaY : Clause := [mkLiteral "!P" [Sym "a"; Sym "Y"]].
Definition clause_notRb : Clause := [mkLiteral "!R" [Sym "b"]].

(** The input file with these three clauses. *)
Definition file_PXX_RX : list string :=
  [ "Predicates: P R ";
    "Variables: X Y";
    "Constants: a b";
    "Functions: ";
    "";
    "P(X,X) R(X)";
    "!P(a,Y)";
    "!R(b)" ].

(** Truth of a literal without variables in an interpretation [I] of the
    un-negated predicates; a leading [!] negates, which is how
    [compliment_of] reads a predicate name. *)
Definition ground_holds (I : string -> list term -> bool) (l : Literal) : bool :=
  match Predicate l with
  | String c rest =>
      if Ascii.eqb c "!" then negb (I rest (Arguments l))
      else I (Predicate l) (Arguments l)
  | EmptyString => I EmptyString (Arguments l)
  end.

(** The instance of a clause under an assignment of the variables is a
    disjunction. *)
Definition instance_holds (I : string -> list term -> bool)
    (sigma : gmap string term) (c : Clause) : bool :=
  existsb
    (fun l => ground_holds I
                (mkLiteral (Predicate l) (map (subst_arg sigma) (Arguments l))))
    c.

(** All the assignments of the variables to elements of the domain. *)
Fixpoint assignments (vars : list string) (domain : list term)
    : list (gmap string term) :=
  match vars with
  | [] => [∅]
  | v :: r =>
      flat_map (fun sigma => map (fun t => <[v := t]> sigma) domain)
        (assignments r domain)
  end.

(** [I] is a model of the clauses, read as universally quantified over
    the domain. *)
Definition is_model (I : string -> list term -> bool) (vars : list string)
    (domain : list term) (KB : list Clause) : bool :=
  forallb (fun sigma => forallb (instance_holds I sigma) KB)
    (assignments vars domain).

(** The interpretation over [{a, b}] in which [P] holds of [(b, b)] only
    and [R] holds of [a] only. *)
Definition model_Pbb_Ra (p : string) (args : list term) : bool :=
  (String.eqb p "P" && list_eqb term_eqb args [Sym "b"; Sym "b"])
  || (String.eqb p "R" && list_eqb term_eqb args [Sym "a"]).

(** ** A propositional knowledge base on which the engine never stops *)

Definition clause_QP : Clause := [lit_Q; lit_P].
Definition clause_notP_Q_P : Clause := [lit_notP; lit_Q; lit_P].

(** The tuple [(Q, ..., Q, P)] with [k] copies of [Q]. *)
Definition clause_Qs_P (k : nat) : Clause := repeat lit_Q k ++ [lit_P].

(** The knowledge base after [n] rounds on [{(Q, P), (!P, Q, P)}], and
    the pairs processed by then. *)
Definition KB_after (n : nat) : list Clause :=
  clause_QP :: clause_notP_Q_P :: map clause_Qs_P (seq 2 n).

Definition processed_after (n : nat) : list (Clause * Clause) :=
  flat_map (fun k => [(clause_Qs_P k, clause_notP_Q_P); (clause_notP_Q_P, clause_Qs_P k)])
    (seq 1 n).

(** The valuation in which [Q] alone is true. *)
Definition only_Q (p : string) : bool := String.eqb p "Q".

(** * Properties *)

(** ** Structural equality decides Leibniz equality *)

Lemma term_nested_ind (P : term -> Prop) :
  (forall s, P (Sym s)) ->
  (forall p args, Forall P args -> P (Fn p args)) ->
  forall t, P t.
Proof.
  intros HSym HFn. fix IH 1. intros [s|p args]; [apply HSym|].
  apply HFn. induction args as [|x r IHr]; constructor; [apply IH | exact IHr].
Qed.

Lemma list_eqb_eq {A} (eqb : A -> A -> bool) (l : list A) :
  Forall (fun x => forall y, eqb x y = true <-> x = y) l ->
  forall l', list_eqb eqb l l' = true <-> l = l'.
Proof.
  induction 1 as [|x r Hx _ IH]; intros [|y r']; simpl;
    try (split; [discriminate | congruence]); try tauto.
  rewrite andb_true_iff, Hx, IH. split; [intros [-> ->]; reflexivity|].
  intros E; injection E; auto.
Qed.

Lemma term_eqb_list_eqb p l p' l' :
  term_eqb (Fn p l) (Fn p' l') = String.eqb p p' && list_eqb term_eqb l l'.
Proof.
  simpl. f_equal. revert l'. induction l as [|x r IH]; intros [|y r']; simpl; auto.
  rewrite IH. reflexivity.
Qed.

Lemma term_eqb_eq (x y : term) : term_eqb x y = true <-> x = y.
Proof.
  revert y. induction x as [s|p args IH] using term_nested_ind; intros [s'|p' args'].
  - simpl. rewrite String.eqb_eq. split; congruence.
  - simpl. split; discriminate.
  - simpl. split; discriminate.
  - rewrite term_eqb_list_eqb, andb_true_iff, String.eqb_eq, (list_eqb_eq _ _ IH).
    split; [intros [-> ->]; reflexivity | intros E; injection E; auto].
Qed.

Lemma args_eqb_eq (l l' : list term) : list_eqb term_eqb l l' = true <-> l = l'.
Proof. apply list_eqb_eq, Forall_forall. intros x _ y. apply term_eqb_eq. Qed.

Lemma Literal_eqb_eq (x y : Literal) : Literal_eqb x y = true <-> x = y.
Proof.
  destruct x as [p l], y as [p' l']. unfold Literal_eqb. simpl.
  rewrite andb_true_iff, String.eqb_eq, args_eqb_eq.
  split; [intros [-> ->]; reflexivity | intros E; injection E; auto].
Qed.

Lemma clause_eqb_eq (c d : Clause) : clause_eqb c d = true <-> c = d.
Proof. apply list_eqb_eq, Forall_forall. intros x _ y. apply Literal_eqb_eq. Qed.

Lemma pyval_eqb_eq (x y : pyval) : pyval_eqb x y = true <-> x = y.
Proof.
  destruct x, y; simpl; try (split; discriminate).
  - rewrite term_eqb_eq. split; congruence.
  - rewrite args_eqb_eq. split; congruence.
Qed.

Lemma pair_eqb_eq (p q : Clause * Clause) : pair_eqb p q = true <-> p = q.
Proof.
  destruct p, q. unfold pair_eqb. simpl.
  rewrite andb_true_iff, !clause_eqb_eq. split; [intros [-> ->]; reflexivity|].
  intros E; injection E; auto.
Qed.

Lemma mem_clause_In (c : Clause) (s : list Clause) : mem_clause c s = true <-> In c s.
Proof.
  unfold mem_clause. rewrite existsb_exists. split.
  - intros (d & Hd & E). apply clause_eqb_eq in E. subst. exact Hd.
  - intros H. exists c. split; [exact H | apply clause_eqb_eq; reflexivity].
Qed.

Lemma mem_pair_In (p : Clause * Clause) (s : list (Clause * Clause)) :
  mem_pair p s = true <-> In p s.
Proof.
  unfold mem_pair. rewrite existsb_exists. split.
  - intros (d & Hd & E). apply pair_eqb_eq in E. subst. exact Hd.
  - intros H. exists p. split; [exact H | apply pair_eqb_eq; reflexivity].
Qed.

Lemma mem_string_In (x : string) (l : list string) : mem_string x l = true <-> In x l.
Proof.
  unfold mem_string. rewrite existsb_exists. split.
  - intros (d & Hd & E). apply String.eqb_eq in E. subst. exact Hd.
  - intros H. exists x. split; [exact H | apply String.eqb_refl].
Qed.

(** ** The saturation engine on small knowledge bases *)

Lemma iter_nil iter : iter_is_permutation iter -> iter [] = [].
Proof. intros H. apply Permutation.Permutation_nil, Permutation_sym, H. Qed.

Lemma iter_single iter c : iter_is_permutation iter -> iter [c] = [c].
Proof. intros H. apply Permutation.Permutation_length_1_inv, Permutation_sym, H. Qed.

Lemma iter_two iter c d :
  iter_is_permutation iter -> iter [c; d] = [c; d] \/ iter [c; d] = [d; c].
Proof. intros H. apply Permutation.Permutation_length_2_inv, Permutation_sym, H. Qed.

Lemma iter_In iter s c : iter_is_permutation iter -> In c (iter s) -> In c s.
Proof. intros H. apply Permutation.Permutation_in, H. Qed.

Lemma PL_Resolution_loop_S iter rounds fuel KB processed :
  PL_Resolution_loop iter (S rounds) fuel KB processed =
  (do cp <- collect_pairs iter KB processed;
   do new <- resolve_pairs fuel (fst cp) [];
   match new with
   | None => ret false
   | Some new =>
       if issubset new KB then ret true
       else PL_Resolution_loop iter rounds fuel (set_union KB new) (snd cp)
   end).
Proof. reflexivity. Qed.

(** Evaluate the engine on a concrete knowledge base, using the known
    values of [iter] on the sets that occur. *)
Ltac iter_run :=
  repeat first
    [ progress (repeat match goal with H : ?f _ = _ |- context [?f _] => rewrite H end)
    | progress cbn
    | progress unfold get_pairs, collect_matches ].

Lemma foldM_inv {A B} (f : B -> A -> M B) (I : B -> Prop) (l : list A) :
  (forall acc x st b st', I acc -> f acc x st = (Ret b, st') -> I b) ->
  forall acc st b st', I acc -> foldM f l acc st = (Ret b, st') -> I b.
Proof.
  intros Hf. induction l as [|x r IH]; intros acc st b st' Hacc E; simpl in E.
  - unfold ret in E. injection E as <- _. exact Hacc.
  - unfold bind in E. destruct (f acc x st) as [[acc'| |] st1] eqn:Ef; try discriminate.
    eapply IH; [|exact E]. eapply Hf; eauto.
Qed.

Lemma fold_left_inv {A B} (f : B -> A -> B) (I : B -> Prop) (l : list A) :
  (forall acc x, In x l -> I acc -> I (f acc x)) ->
  forall acc, I acc -> I (fold_left f l acc).
Proof.
  induction l as [|x r IH]; intros Hf acc Hacc; simpl; [exact Hacc|].
  apply IH; [intros; apply Hf; simpl; auto | apply Hf; simpl; auto].
Qed.

Lemma In_set_add c d s : In d (set_add c s) <-> d = c \/ In d s.
Proof.
  unfold set_add. destruct (mem_clause c s) eqn:E.
  - apply mem_clause_In in E. split; [auto | intros [->|]; auto].
  - rewrite in_app_iff. simpl. intuition.
Qed.

(** [get_pairs] only returns clauses of the knowledge base that differ
    from [originalClause]. *)
Lemma get_pairs_spec iter originalClause compliment KB d :
  In d (get_pairs iter originalClause compliment KB) ->
  d <> originalClause /\ In d (iter KB).
Proof.
  unfold get_pairs.
  revert d. apply (fold_left_inv _ (fun matches => forall d, In d matches ->
    d <> originalClause /\ In d (iter KB))); [|intros d []].
  intros matches clause Hin Hm.
  apply (fold_left_inv _ (fun matches => forall d, In d matches ->
    d <> originalClause /\ In d (iter KB))); [|exact Hm].
  intros acc literal _ Hacc d.
  destruct (_ && _) eqn:E; [|apply Hacc].
  rewrite In_set_add. intros [->|Hd]; [|apply Hacc, Hd].
  apply andb_true_iff in E as [_ E]. apply negb_true_iff in E.
  split; [|exact Hin]. intros ->.
  assert (clause_eqb originalClause originalClause = true) by (apply clause_eqb_eq; reflexivity).
  congruence.
Qed.

Lemma matched_of_spec iter KB clause st matched st' :
  matched_of iter KB clause st = (Ret matched, st') ->
  forall d, In d matched -> d <> clause /\ In d (iter KB).
Proof.
  unfold matched_of.
  apply (foldM_inv _ (fun matched => forall d, In d matched -> d <> clause /\ In d (iter KB)));
    [|intros d []].
  intros acc literal st0 b st1 _. unfold bind, lift, ret.
  destruct (compliment_of (Predicate literal)); try discriminate.
  intros E; injection E as <- _. intros d. apply get_pairs_spec.
Qed.

Lemma collect_matches_irrefl iter clause acc matched :
  iter_is_permutation iter ->
  (forall d, In d matched -> d <> clause) ->
  (forall c d, In (c, d) (fst acc) -> c <> d) ->
  forall c d, In (c, d) (fst (collect_matches iter clause acc matched)) -> c <> d.
Proof.
  intros Hperm Hm Hacc. unfold collect_matches.
  apply (fold_left_inv _ (fun acc => forall c d, In (c, d) (fst acc) -> c <> d)); [|exact Hacc].
  intros acc' match_ Hin Hacc' c d.
  destruct (_ && _); [|apply Hacc']. simpl.
  rewrite in_app_iff. simpl. intros [H|[H|[]]]; [apply Hacc', H|].
  injection H as <- <-. apply not_eq_sym, Hm, (iter_In iter), Hin. exact Hperm.
Qed.

(** No candidate pair of a round has the same clause on both sides. *)
Lemma collect_pairs_irrefl iter KB processed st cp st' :
  iter_is_permutation iter ->
  collect_pairs iter KB processed st = (Ret cp, st') ->
  forall c d, In (c, d) (fst cp) -> c <> d.
Proof.
  intros Hperm. unfold collect_pairs.
  apply (foldM_inv _ (fun acc => forall c d, In (c, d) (fst acc) -> c <> d));
    [|intros c d []].
  intros acc clause st0 b st1 Hacc. unfold bind.
  destruct (matched_of iter KB clause st0) as [[m| |] st2] eqn:Em; try discriminate.
  unfold ret. intros E; injection E as <- _.
  apply collect_matches_irrefl; [exact Hperm| |exact Hacc].
  intros d Hd. eapply matched_of_spec; eauto.
Qed.

(** C10: on the empty knowledge base the first round finds no pair and
    no resolvent, and the verdict is satisfiable ([True]). *)
Theorem PL_Resolution_empty_KB iter :
  iter_is_permutation iter ->
  forall rounds fuel st,
    PL_Resolution iter (S rounds) fuel [] st = (Ret true, st).
Proof.
  intros H rounds fuel st.
  pose proof (iter_nil iter H) as H0.
  unfold PL_Resolution. rewrite PL_Resolution_loop_S. unfold collect_pairs.
  iter_run. reflexivity.
Qed.

Lemma PL_Resolution_empty_KB_witness :
  PL_Resolution (fun s => s) 1 0 [] (mkState [] []) = (Ret true, mkState [] []).
Proof.
  apply (PL_Resolution_empty_KB (fun s => s)).
  intros s. apply Permutation_refl.
Defined.

(** C9: on the knowledge base [{ {P, Q} }] the first round finds no pair,
    resolves nothing and returns satisfiable ([True]); and in any round on
    any knowledge base no candidate pair consists of a clause and itself. *)
Theorem PL_Resolution_single_clause iter :
  iter_is_permutation iter ->
  (forall rounds fuel st,
     PL_Resolution iter (S rounds) fuel [[lit_P; lit_Q]] st = (Ret true, st)) /\
  (forall KB processed st cp st',
     collect_pairs iter KB processed st = (Ret cp, st') ->
     forall c d, In (c, d) (fst cp) -> c <> d).
Proof.
  intros H. split.
  - intros rounds fuel st.
    pose proof (iter_nil iter H) as H0.
    pose proof (iter_single iter [lit_P; lit_Q] H) as H1.
    unfold PL_Resolution. rewrite PL_Resolution_loop_S. unfold collect_pairs.
    iter_run. reflexivity.
  - intros KB processed st cp st'. apply collect_pairs_irrefl, H.
Qed.

Lemma PL_Resolution_single_clause_witness :
  PL_Resolution (fun s => s) 1 0 [[lit_P; lit_Q]] (mkState [] []) =
  (Ret true, mkState [] []).
Proof.
  apply (PL_Resolution_single_clause (fun s => s)).
  intros s. apply Permutation_refl.
Defined.

(** C7: on the knowledge base [{ {P}, {!P} }], in whichever order the set
    is listed and visited, the first round derives the empty clause and the
    verdict is unsatisfiable ([False]). *)
Theorem PL_Resolution_P_notP iter :
  iter_is_permutation iter ->
  forall KB, Permutation [[lit_P]; [lit_notP]] KB ->
  forall rounds fuel st,
    fst (PL_Resolution iter (S rounds) fuel KB st) = Ret false.
Proof.
  intros H KB HKB rounds fuel st.
  pose proof (iter_nil iter H) as H0.
  pose proof (iter_single iter [lit_P] H) as H1.
  pose proof (iter_single iter [lit_notP] H) as H2.
  unfold PL_Resolution. rewrite PL_Resolution_loop_S. unfold collect_pairs.
  apply Permutation.Permutation_length_2_inv in HKB as [->| ->].
  - destruct (iter_two iter [lit_P] [lit_notP] H) as [E|E]; iter_run; reflexivity.
  - destruct (iter_two iter [lit_notP] [lit_P] H) as [E|E]; iter_run; reflexivity.
Qed.

Lemma PL_Resolution_P_notP_witness :
  fst (PL_Resolution (fun s => s) 1 0 [[lit_P]; [lit_notP]] (mkState [] [])) = Ret false.
Proof.
  apply (PL_Resolution_P_notP (fun s => s)).
  - intros s. apply Permutation_refl.
  - apply Permutation_refl.
Defined.

(** ** Argument lists in [unify] *)

Lemma unify_S fuel x y theta :
  unify (S fuel) x y theta =
  match theta with
  | TNone => ret TNone
  | _ =>
      if pyval_eqb x y then ret theta
      else
        do vs <- get_VARIABLES;
        match in_VARIABLES x vs with
        | Some var => unify_var (unify fuel) var y theta
        | None =>
            match in_VARIABLES y vs with
            | Some var => unify_var (unify fuel) var x theta
            | None =>
                match x, y with
                | VT (Fn px ax), VT (Fn py ay) =>
                    do new_theta <- unify fuel (VT (Sym px)) (VT (Sym py)) theta;
                    unify fuel (VL ax) (VL ay) new_theta
                | VL lx, VL ly =>
                    match lx, ly with
                    | x0 :: xs, y0 :: ys =>
                        do rest <- unify fuel (VL xs) (VL ys) theta;
                        unify fuel (VT x0) (VT y0) rest
                    | _, _ => raise IndexError
                    end
                | _, _ => ret TNone
                end
            end
        end
  end.
Proof. reflexivity. Qed.

Lemma pyval_eqb_neq x y : x <> y -> pyval_eqb x y = false.
Proof.
  intros H. destruct (pyval_eqb x y) eqn:E; [|reflexivity].
  apply pyval_eqb_eq in E. contradiction.
Qed.

(** C5 fails on the code: for two argument lists of different lengths the
    recursion on the tails reaches an empty list against a non-empty one,
    where [x[0]] or [y[0]] raises [IndexError]; no failure value is
    returned. *)
Theorem unify_arity_mismatch_raises (xs ys : list term) :
  List.length xs <> List.length ys ->
  forall fuel d st,
    Nat.min (List.length xs) (List.length ys) < fuel ->
    unify fuel (VL xs) (VL ys) (TDict d) st = (Raise IndexError, st).
Proof.
  revert ys. induction xs as [|x0 xs IH]; intros ys Hlen fuel d st Hfuel.
  - destruct fuel as [|fuel]; [simpl in Hfuel; lia|].
    destruct ys as [|y0 ys]; [contradiction|].
    rewrite unify_S, pyval_eqb_neq by discriminate. reflexivity.
  - destruct fuel as [|fuel]; [simpl in Hfuel; lia|].
    destruct ys as [|y0 ys].
    + rewrite unify_S, pyval_eqb_neq by discriminate. reflexivity.
    + rewrite unify_S, pyval_eqb_neq by (intros E; injection E as _ E; subst; contradiction).
      unfold bind at 1. simpl. unfold bind.
      rewrite IH; [reflexivity | simpl in Hlen; lia | simpl in Hfuel; lia].
Qed.

(** The argument lists [a] and [a, b]. *)
Lemma unify_arity_mismatch_raises_witness :
  unify 2 (VL [Sym "a"]) (VL [Sym "a"; Sym "b"]) (TDict ∅) st_XY =
  (Raise IndexError, st_XY).
Proof.
  apply (unify_arity_mismatch_raises [Sym "a"] [Sym "a"; Sym "b"]); simpl; lia.
Defined.

(** The same defect seen from the top: the knowledge base
    [{ {P(a)}, {!P(a,b)} }] makes the engine raise. *)
Example PL_Resolution_arity_mismatch :
  fst (PL_Resolution (fun s => s) 5 50
         [[mkLiteral "P" [Sym "a"]]; [mkLiteral "!P" [Sym "a"; Sym "b"]]] st_XY)
  = Raise IndexError.
Proof. vm_compute. reflexivity. Qed.

(** C6, as stated, fails: on [X, Y] against [Y, a] (variables [X], [Y]) the
    source binds [Y] to [a] first and then [X] to [a]; unifying the first
    elements first would mint [Y0] for [X] and [Y]. *)
Lemma unify_lists_not_head_first :
  fst (unify 10 (VL [Sym "X"; Sym "Y"]) (VL [Sym "Y"; Sym "a"]) (TDict ∅) st_XY)
    = Ret (TDict (<["X" := Sym "a"]> (<["Y" := Sym "a"]> ∅))) /\
  fst (unify_lists_head_first 9 (Sym "X") [Sym "Y"] (Sym "Y") [Sym "a"] (TDict ∅) st_XY)
    = Ret (TDict (<["Y0" := Sym "a"]> (<["Y" := Sym "Y0"]> (<["X" := Sym "Y0"]> ∅)))) /\
  fst (unify 10 (VL [Sym "X"; Sym "Y"]) (VL [Sym "Y"; Sym "a"]) (TDict ∅) st_XY) <>
  fst (unify_lists_head_first 9 (Sym "X") [Sym "Y"] (Sym "Y") [Sym "a"] (TDict ∅) st_XY).
Proof.
  split; [vm_compute; reflexivity|]. split; [vm_compute; reflexivity|].
  vm_compute. discriminate.
Qed.

(** C6, amended: two non-empty, different argument lists are unified tails
    first, and the first elements are unified under the substitution the
    tails produced; two empty lists return [theta] unchanged. *)
Theorem unify_lists_tails_first :
  (forall fuel x0 xs y0 ys theta st,
     theta <> TNone -> x0 :: xs <> y0 :: ys ->
     unify (S fuel) (VL (x0 :: xs)) (VL (y0 :: ys)) theta st =
     (do rest <- unify fuel (VL xs) (VL ys) theta;
      unify fuel (VT x0) (VT y0) rest) st) /\
  (forall fuel theta st, unify (S fuel) (VL []) (VL []) theta st = (Ret theta, st)).
Proof.
  split.
  - intros fuel x0 xs y0 ys theta st Hth Hne.
    rewrite unify_S, pyval_eqb_neq by congruence.
    destruct theta; [reflexivity | contradiction | reflexivity].
  - intros fuel theta st. rewrite unify_S. destruct theta; reflexivity.
Qed.

Lemma unify_lists_tails_first_witness :
  unify 10 (VL [Sym "X"; Sym "Y"]) (VL [Sym "Y"; Sym "a"]) (TDict ∅) st_XY =
  (do rest <- unify 9 (VL [Sym "Y"]) (VL [Sym "a"]) (TDict ∅);
   unify 9 (VT (Sym "X")) (VT (Sym "Y")) rest) st_XY.
Proof.
  apply (proj1 unify_lists_tails_first); discriminate.
Defined.

(** ** The two failure values of [unify] *)

(** C4 fails on the code: an occurs-check violation is returned as [False]
    while every other failure is [None].  [unify] does not propagate
    [False] unchanged (it turns it into [None], or raises [TypeError] in
    [unify_var]), and [PL_Resolve], which only tests [theta is not None],
    takes [False] for a success: from [{P(X)}] and [{!P(f(X))}] it adds the
    empty clause, so the engine answers unsatisfiable, and with another
    literal in the clause [substitute] raises [TypeError]. *)
Theorem occurs_check_failure_not_recognized :
  fst (unify 10 (VL [Sym "X"]) (VL [Fn "f" [Sym "X"]]) (TDict ∅) st_XY) = Ret TFalse /\
  fst (unify 10 (VL [Sym "a"]) (VL [Sym "b"]) (TDict ∅) st_XY) = Ret TNone /\
  fst (unify 10 (VT (Sym "a")) (VT (Sym "b")) TFalse st_XY) = Ret TNone /\
  fst (unify 10 (VT (Sym "X")) (VT (Sym "a")) TFalse st_XY) = Raise TypeError /\
  fst (PL_Resolve 10 [lit_PX] [lit_notPfX] st_XY) = Ret [[]] /\
  fst (PL_Resolution (fun s => s) 5 10 [[lit_PX]; [lit_notPfX]] st_XY) = Ret false /\
  fst (PL_Resolve 10 [lit_PX; lit_Qa] [lit_notPfX] st_XY) = Raise TypeError.
Proof. repeat split; vm_compute; reflexivity. Qed.

(** ** The log of [PL_Resolve] calls *)

Lemma log_stable_ret {A} (x : A) : log_stable (ret x).
Proof. intros st. reflexivity. Qed.

Lemma log_stable_raise {A} e : log_stable (@raise A e).
Proof. intros st. reflexivity. Qed.

Lemma log_stable_out_of_fuel {A} : log_stable (@out_of_fuel A).
Proof. intros st. reflexivity. Qed.

Lemma log_stable_lift {A} (r : result A) : log_stable (lift r).
Proof. intros st. reflexivity. Qed.

Lemma log_stable_get : log_stable get_VARIABLES.
Proof. intros st. reflexivity. Qed.

Lemma log_stable_append s : log_stable (append_VARIABLES s).
Proof. intros st. reflexivity. Qed.

Lemma log_stable_bind {A B} (m : M A) (f : A -> M B) :
  log_stable m -> (forall x, log_stable (f x)) -> log_stable (bind m f).
Proof.
  intros Hm Hf st. unfold bind. specialize (Hm st).
  destruct (m st) as [[x| |] st1]; simpl in *; [|assumption|assumption].
  rewrite Hf. exact Hm.
Qed.

Lemma log_stable_foldM {A B} (f : B -> A -> M B) (l : list A) :
  (forall acc x, log_stable (f acc x)) -> forall acc, log_stable (foldM f l acc).
Proof.
  intros Hf. induction l as [|x r IH]; intros acc; simpl.
  - apply log_stable_ret.
  - apply log_stable_bind; auto.
Qed.

Ltac log_stable_step :=
  first
    [ apply log_stable_ret | apply log_stable_raise | apply log_stable_out_of_fuel
    | apply log_stable_lift | apply log_stable_get | apply log_stable_append
    | apply log_stable_bind; [|intros ?]
    | apply log_stable_foldM; intros ? ?
    | match goal with
      | H : forall x y theta, log_stable (?u x y theta) |- log_stable (?u _ _ _) => apply H
      | |- log_stable (match ?x with _ => _ end) => destruct x
      end ].

Lemma log_stable_unify_var rec var x theta :
  (forall x y theta, log_stable (rec x y theta)) ->
  log_stable (unify_var rec var x theta).
Proof. intros Hrec. unfold unify_var. repeat log_stable_step. Qed.

Lemma log_stable_unify fuel : forall x y theta, log_stable (unify fuel x y theta).
Proof.
  induction fuel as [|fuel IH]; intros x y theta; [apply log_stable_out_of_fuel|].
  rewrite unify_S.
  repeat first [apply log_stable_unify_var; assumption | log_stable_step].
Qed.

Lemma log_stable_PL_Resolve fuel clause_one clause_two :
  log_stable (PL_Resolve fuel clause_one clause_two).
Proof.
  unfold PL_Resolve, resolve_literals.
  repeat first [apply log_stable_unify | log_stable_step].
Qed.

Lemma log_stable_collect_pairs iter KB processed :
  log_stable (collect_pairs iter KB processed).
Proof. unfold collect_pairs, matched_of. repeat log_stable_step. Qed.

(** ** No pair of clauses is resolved twice *)

Lemma swap_swap p : swap (swap p) = p.
Proof. destruct p. reflexivity. Qed.

Lemma udistinct_app l l' :
  udistinct (l ++ l') <->
  udistinct l /\ udistinct l' /\
  (forall p q, In p l -> In q l' -> ~ same_unordered p q).
Proof.
  induction l as [|x r IH]; simpl.
  - intuition.
  - rewrite IH. split.
    + intros (Hx & Hr & Hl' & Hc). repeat split; auto.
      * intros q Hq. apply Hx, in_or_app. auto.
      * intros p q [<-|Hp] Hq; [apply Hx, in_or_app; auto | apply Hc; auto].
    + intros ((Hx & Hr) & Hl' & Hc). repeat split; auto.
      intros q Hq. apply in_app_or in Hq as [Hq|Hq]; [apply Hx, Hq | apply Hc; auto].
Qed.

Lemma udistinct_lookup (l : list (Clause * Clause)) i j p q :
  udistinct l -> i < j -> l !! i = Some p -> l !! j = Some q ->
  ~ same_unordered p q.
Proof.
  revert i j. induction l as [|x r IH]; intros i j Hd Hij Hi Hj; [discriminate|].
  destruct Hd as [Hx Hr]. destruct j as [|j]; [lia|]. simpl in Hj.
  destruct i as [|i]; simpl in Hi.
  - injection Hi as ->. apply Hx. apply list_elem_of_In, list_elem_of_lookup. eauto.
  - apply (IH i j); auto. lia.
Qed.

Lemma In_add_pair p q s : In q (add_pair p s) <-> q = p \/ In q s.
Proof.
  unfold add_pair. destruct (mem_pair p s) eqn:E.
  - apply mem_pair_In in E. split; [auto | intros [->|]; auto].
  - rewrite in_app_iff. simpl. intuition.
Qed.

Lemma mem_pair_false p s : mem_pair p s = false <-> ~ In p s.
Proof.
  rewrite <- mem_pair_In. destruct (mem_pair p s); split; congruence.
Qed.

Lemma collecting_init processed : collecting processed ([], processed).
Proof.
  split; [exact I|]. split; [apply incl_refl|]. intros p [].
Qed.

Lemma collect_matches_collecting iter processed clause acc matched :
  collecting processed acc ->
  collecting processed (collect_matches iter clause acc matched).
Proof.
  unfold collect_matches. apply fold_left_inv.
  intros [pairs proc] match_ _ Hacc. pose proof Hacc as (Hd & Hincl & Hp). simpl in *.
  destruct (mem_pair (clause, match_) proc) eqn:E1; simpl; [exact Hacc|].
  destruct (mem_pair (match_, clause) proc) eqn:E2; simpl; [exact Hacc|].
  apply mem_pair_false in E1, E2.
  split; [|split; [|intros p H; repeat split]]; simpl.
  - apply udistinct_app. split; [exact Hd|]. split; [split; [intros q []|exact I]|].
    intros p q Hpin [<-|[]] [->| ->]; destruct (Hp _ Hpin) as (_ & _ & H1 & H2); auto.
  - intros p Hpin. apply In_add_pair. right. apply In_add_pair. right. auto.
  - apply in_app_or in H as [H|[<-|[]]]; [apply Hp, H | auto].
  - apply in_app_or in H as [H|[<-|[]]]; [apply Hp, H | auto].
  - apply in_app_or in H as [H|[<-|[]]].
    + apply In_add_pair. right. apply In_add_pair. right. apply Hp, H.
    + apply In_add_pair. right. apply In_add_pair. left. reflexivity.
  - apply in_app_or in H as [H|[<-|[]]].
    + apply In_add_pair. right. apply In_add_pair. right. apply Hp, H.
    + apply In_add_pair. left. reflexivity.
Qed.

Lemma collect_pairs_collecting iter KB processed st cp st' :
  collect_pairs iter KB processed st = (Ret cp, st') ->
  collecting processed cp.
Proof.
  unfold collect_pairs. apply foldM_inv; [|apply collecting_init].
  intros acc clause st0 b st1 Hacc. unfold bind.
  destruct (matched_of iter KB clause st0) as [[m| |] st2]; try discriminate.
  unfold ret. intros E; injection E as <- _.
  apply collect_matches_collecting, Hacc.
Qed.

(** [resolve_pairs] logs a prefix of the candidate pairs, whatever its
    outcome. *)
Lemma resolve_pairs_log fuel pairs : forall new st,
  exists pre suf, pairs = pre ++ suf /\
    resolved (snd (resolve_pairs fuel pairs new st)) = resolved st ++ pre.
Proof.
  induction pairs as [|pr rest IH]; intros new st; simpl.
  - exists [], []. split; [reflexivity | simpl; rewrite app_nil_r; reflexivity].
  - unfold bind at 1. simpl. unfold bind.
    pose proof (log_stable_PL_Resolve fuel (fst pr) (snd pr)
                  (mkState (VARIABLES st) (resolved st ++ [pr]))) as Hs.
    destruct (PL_Resolve fuel (fst pr) (snd pr) _) as [[rs| |] st1]; simpl in *.
    + destruct (mem_clause [] rs).
      * exists [pr], rest. simpl. auto.
      * destruct (IH (set_union new rs) st1) as (pre & suf & -> & E).
        exists (pr :: pre), suf. split; [reflexivity|].
        rewrite E, Hs, <- app_assoc. reflexivity.
    + exists [pr], rest. simpl. auto.
    + exists [pr], rest. simpl. auto.
Qed.

Lemma PL_Resolution_loop_udistinct iter rounds fuel : forall KB processed st,
  run_invariant (resolved st) processed ->
  udistinct (resolved (snd (PL_Resolution_loop iter rounds fuel KB processed st))).
Proof.
  induction rounds as [|rounds IH]; intros KB processed st [Hd Hin]; [exact Hd|].
  rewrite PL_Resolution_loop_S. unfold bind at 1.
  pose proof (log_stable_collect_pairs iter KB processed st) as Hs.
  destruct (collect_pairs iter KB processed st) as [[cp| |] st1] eqn:Ecp;
    simpl in Hs; try (simpl; rewrite Hs; exact Hd).
  apply collect_pairs_collecting in Ecp as (Hcd & Hincl & Hcp).
  unfold bind.
  destruct (resolve_pairs_log fuel (fst cp) [] st1) as (pre & suf & Epre & Elog).
  assert (Hinv : run_invariant (resolved st ++ pre) (snd cp)).
  { rewrite Epre in Hcd, Hcp. apply udistinct_app in Hcd as (Hpre & _ & _).
    split.
    - apply udistinct_app. repeat split; auto.
      intros p q Hp Hq [->| ->].
      + destruct (Hcp q) as (H1 & _); [apply in_or_app; auto|].
        apply H1, (proj1 (Hin _ Hp)).
      + destruct (Hcp q) as (_ & H1 & _); [apply in_or_app; auto|].
        apply H1, (proj1 (Hin _ Hp)).
    - intros p Hp. apply in_app_or in Hp as [Hp|Hp].
      + split; apply Hincl; [apply (proj1 (Hin _ Hp)) | apply (proj2 (Hin _ Hp))].
      + split; apply Hcp, in_or_app; auto. }
  rewrite Hs in Elog.
  destruct (resolve_pairs fuel (fst cp) [] st1) as [[[new|]| |] st2]; simpl in Elog;
    try (simpl; rewrite Elog; apply Hinv).
  destruct (issubset new KB); [simpl; rewrite Elog; apply Hinv|].
  apply IH. rewrite Elog. exact Hinv.
Qed.

(** C8: in the log of a run of the engine (any knowledge base, any
    visiting order, any number of rounds, any outcome) no two calls of
    [PL_Resolve] are on the same unordered pair of clauses. *)
Theorem no_pair_resolved_twice iter rounds fuel KB st :
  resolved st = [] ->
  forall i j p q,
    i < j ->
    resolved (snd (PL_Resolution iter rounds fuel KB st)) !! i = Some p ->
    resolved (snd (PL_Resolution iter rounds fuel KB st)) !! j = Some q ->
    ~ same_unordered p q.
Proof.
  intros H0 i j p q. apply udistinct_lookup.
  apply PL_Resolution_loop_udistinct. rewrite H0. split; [exact I | intros p' []].
Qed.

Lemma no_pair_resolved_twice_witness :
  ~ same_unordered ([lit_Q], [lit_notQ; lit_R]) ([lit_notQ; lit_R], [lit_notR]).
Proof.
  apply (no_pair_resolved_twice (fun s => s) 1 0
           [[lit_Q]; [lit_notQ; lit_R]; [lit_notR]] (mkState [] []) eq_refl 0 1).
  - lia.
  - vm_compute. reflexivity.
  - vm_compute. reflexivity.
Defined.

(** ** Which pairs a round collects *)

Lemma foldM_app {A B} (f : B -> A -> M B) (l l' : list A) (acc : B) (st : state) :
  foldM f (l ++ l') acc st = (do acc' <- foldM f l acc; foldM f l' acc') st.
Proof.
  revert acc st. induction l as [|x r IH]; intros acc st; simpl; [reflexivity|].
  unfold bind. destruct (f acc x st) as [[b| |] st1]; try reflexivity.
  rewrite IH. reflexivity.
Qed.

(** After the loop over the literals of a clause, [matched] holds the
    matches of the last literal only. *)
Lemma matched_of_last iter KB (literals : list Literal) (last : Literal) st :
  Forall (fun l => Predicate l <> "") literals ->
  matched_of iter KB (literals ++ [last]) st =
  (do compliment <- lift (compliment_of (Predicate last));
   ret (get_pairs iter (literals ++ [last]) compliment KB)) st.
Proof.
  intros Hne. unfold matched_of. rewrite foldM_app.
  generalize (literals ++ [last]) as whole. intros whole.
  generalize (@nil (list Literal)) as acc.
  induction Hne as [|l r Hl _ IH]; intros acc; simpl.
  - unfold bind, lift, ret. destruct (compliment_of (Predicate last)); reflexivity.
  - unfold bind at 1 2. unfold lift at 1.
    destruct (Predicate l) as [|ch rest] eqn:E; [contradiction|]. simpl.
    destruct (Ascii.eqb ch "!"); simpl; apply IH.
Qed.

(** C2 fails on the code: [{P, Q}] and [{!P, R}] are complementary on the
    first literal, and [PL_Resolve] would derive [{Q, R}] from them, but the
    round looks only at the matches of the last literals [Q] and [R]: no
    pair is collected, [PL_Resolve] is never called, and the engine stops. *)
Theorem only_last_literal_is_matched iter :
  iter_is_permutation iter ->
  forall KB, Permutation [[lit_P; lit_Q]; [lit_notP; lit_R]] KB ->
  forall st,
    compliment_of (Predicate lit_P) = Ret (Predicate lit_notP) /\
    (forall fuel, PL_Resolve fuel [lit_P; lit_Q] [lit_notP; lit_R] st
                  = (Ret [[lit_Q; lit_R]], st)) /\
    collect_pairs iter KB [] st = (Ret ([], []), st) /\
    (forall rounds fuel, PL_Resolution iter (S rounds) fuel KB st = (Ret true, st)).
Proof.
  intros H KB HKB st.
  pose proof (iter_nil iter H) as H0.
  split; [reflexivity|]. split; [intros fuel; reflexivity|].
  apply Permutation.Permutation_length_2_inv in HKB as [->| ->].
  - destruct (iter_two iter [lit_P; lit_Q] [lit_notP; lit_R] H) as [E|E]; split;
      try intros rounds fuel; unfold PL_Resolution; rewrite ?PL_Resolution_loop_S;
      unfold collect_pairs; iter_run; reflexivity.
  - destruct (iter_two iter [lit_notP; lit_R] [lit_P; lit_Q] H) as [E|E]; split;
      try intros rounds fuel; unfold PL_Resolution; rewrite ?PL_Resolution_loop_S;
      unfold collect_pairs; iter_run; reflexivity.
Qed.

Lemma only_last_literal_is_matched_witness :
  collect_pairs (fun s => s) [[lit_P; lit_Q]; [lit_notP; lit_R]] [] (mkState [] [])
  = (Ret ([], []), mkState [] []).
Proof.
  apply (only_last_literal_is_matched (fun s => s)).
  - intros s. apply Permutation_refl.
  - apply Permutation_refl.
Defined.

(** ** Resolvents *)

Lemma make_clause_In literal literal2 clause_one clause_two t :
  In t (make_clause literal literal2 clause_one clause_two) <->
  (In t clause_one /\ t <> literal) \/ (In t clause_two /\ t <> literal2).
Proof.
  unfold make_clause. rewrite in_app_iff, !filter_In, !negb_true_iff.
  assert (Hne : forall u v, Literal_eqb u v = false <-> u <> v).
  { intros u v. rewrite <- Literal_eqb_eq. destruct (Literal_eqb u v); split; congruence. }
  rewrite !Hne. reflexivity.
Qed.

Lemma foldM_inv_In {A B} (f : B -> A -> M B) (I : B -> Prop) (l : list A) :
  (forall acc x st b st', In x l -> I acc -> f acc x st = (Ret b, st') -> I b) ->
  forall acc st b st', I acc -> foldM f l acc st = (Ret b, st') -> I b.
Proof.
  induction l as [|x r IH]; intros Hf acc st b st' Hacc E; simpl in E.
  - unfold ret in E. injection E as <- _. exact Hacc.
  - unfold bind in E. destruct (f acc x st) as [[acc'| |] st1] eqn:Ef; try discriminate.
    eapply IH; [| |exact E].
    + intros; eapply Hf; eauto. simpl; auto.
    + eapply Hf; eauto. simpl; auto.
Qed.

(** When every step only adds to the accumulator, the accumulator grows
    over the loop and the step for each element ran on the way. *)
Lemma foldM_grows {A C} (f : list C -> A -> M (list C)) (l : list A) :
  (forall acc x st b st', f acc x st = (Ret b, st') -> incl acc b) ->
  forall acc st b st', foldM f l acc st = (Ret b, st') ->
    incl acc b /\
    forall x, In x l -> exists acc1 st1 b1 st2,
      f acc1 x st1 = (Ret b1, st2) /\ incl b1 b.
Proof.
  intros Hf. induction l as [|x r IH]; intros acc st b st' E; simpl in E.
  - unfold ret in E. injection E as <- _. split; [apply incl_refl | intros x []].
  - unfold bind in E. destruct (f acc x st) as [[acc'| |] st1] eqn:Ef; try discriminate.
    destruct (IH _ _ _ _ E) as [Hincl Hstep]. split.
    + eapply incl_tran; [eapply Hf; eauto | exact Hincl].
    + intros y [<-|Hy]; [|apply Hstep, Hy].
      exists acc, st, acc', st1. auto.
Qed.

Lemma incl_set_add c s : incl s (set_add c s).
Proof. intros d Hd. apply In_set_add. auto. Qed.

Lemma resolve_literals_spec fuel A B L compliment rs M st rs' st' :
  resolve_literals fuel A B L compliment rs M st = (Ret rs', st') ->
  incl rs rs' /\
  (forall r, In r rs' ->
     In r rs \/ (compliment = Predicate M /\ resolvent_via fuel A B L M r)) /\
  (compliment = Predicate M ->
     match Arguments L, Arguments M with
     | _ :: _, _ :: _ =>
         exists theta st2,
           unify fuel (VL (Arguments L)) (VL (Arguments M)) (TDict ∅) st = (Ret theta, st2) /\
           (theta <> TNone ->
            exists copy, substitute_all theta (make_clause L M A B) = Ret copy /\
                         In copy rs')
     | _, _ => In (make_clause L M A B) rs'
     end).
Proof.
  unfold resolve_literals. destruct (String.eqb compliment (Predicate M)) eqn:Ec.
  2:{ unfold ret. intros E; injection E as <- _.
      apply String.eqb_neq in Ec. split; [apply incl_refl|]. split; [auto|contradiction]. }
  apply String.eqb_eq in Ec.
  assert (Hprop : (Arguments L = [] \/ Arguments M = []) ->
    ret (set_add (make_clause L M A B) rs) st = (Ret rs', st') ->
    incl rs rs' /\
    (forall r, In r rs' ->
       In r rs \/ (compliment = Predicate M /\ resolvent_via fuel A B L M r)) /\
    In (make_clause L M A B) rs').
  { intros Hargs E. unfold ret in E. injection E as <- _.
    split; [apply incl_set_add|]. split.
    - intros r Hr. apply In_set_add in Hr as [->|Hr]; [right|left; exact Hr].
      split; [exact Ec|]. left. auto.
    - apply In_set_add. auto. }
  destruct (Arguments L) as [|l0 ls] eqn:EL.
  { intros E. destruct (Hprop (or_introl eq_refl) E) as (H1 & H2 & H3). auto. }
  destruct (Arguments M) as [|m0 ms] eqn:EM.
  { intros E. destruct (Hprop (or_intror eq_refl) E) as (H1 & H2 & H3). auto. }
  clear Hprop. unfold bind at 1.
  destruct (unify fuel _ _ _ st) as [[theta| |] st2] eqn:Eu; try discriminate.
  assert (Hfol : theta <> TNone ->
    (do copy <- lift (substitute_all theta (make_clause L M A B));
     ret (set_add copy rs)) st2 = (Ret rs', st') ->
    incl rs rs' /\
    (forall r, In r rs' ->
       In r rs \/ (compliment = Predicate M /\ resolvent_via fuel A B L M r)) /\
    exists copy, substitute_all theta (make_clause L M A B) = Ret copy /\ In copy rs').
  { intros Hth. unfold bind, lift, ret.
    destruct (substitute_all theta (make_clause L M A B)) as [copy| |] eqn:Es;
      try discriminate.
    intros E; injection E as <- _.
    split; [apply incl_set_add|]. split.
    - intros r Hr. apply In_set_add in Hr as [->|Hr]; [right|left; exact Hr].
      split; [exact Ec|]. right. rewrite EL, EM.
      split; [discriminate|]. split; [discriminate|]. exists st, st2, theta. auto.
    - exists copy. split; [reflexivity | apply In_set_add; auto]. }
  destruct theta as [d| |].
  - intros E. destruct (Hfol ltac:(discriminate) E) as (H1 & H2 & H3).
    split; [exact H1|]. split; [exact H2|]. intros _. exists (TDict d), st2. auto.
  - unfold ret. intros E; injection E as <- _.
    split; [apply incl_refl|]. split; [auto|]. intros _. exists TNone, st2.
    split; [reflexivity | contradiction].
  - intros E. destruct (Hfol ltac:(discriminate) E) as (H1 & H2 & H3).
    split; [exact H1|]. split; [exact H2|]. intros _. exists TFalse, st2. auto.
Qed.

Lemma PL_Resolve_inner_grows fuel A B L compliment :
  forall acc st b st',
    foldM (resolve_literals fuel A B L compliment) B acc st = (Ret b, st') ->
    incl acc b /\
    forall M, In M B -> exists acc1 st1 b1 st2,
      resolve_literals fuel A B L compliment acc1 M st1 = (Ret b1, st2) /\ incl b1 b.
Proof.
  apply foldM_grows. intros acc M st b st' E.
  apply (resolve_literals_spec _ _ _ _ _ _ _ _ _ _ E).
Qed.

(** Resolvents are tuples: the resolvent of [{P, Q}] and [{!P, Q}] is the
    tuple [(Q, Q)], in which the duplicate has not collapsed, and the
    resolvents [(Q, R)] and [(R, Q)] of the same two clauses taken in the two
    orders are different members of a set of clauses. *)
Lemma resolvents_are_tuples :
  fst (PL_Resolve 0 [lit_P; lit_Q] [lit_notP; lit_Q] (mkState [] []))
    = Ret [[lit_Q; lit_Q]] /\
  ~ List.NoDup [lit_Q; lit_Q] /\
  fst (PL_Resolve 0 [lit_P; lit_Q] [lit_notP; lit_R] (mkState [] []))
    = Ret [[lit_Q; lit_R]] /\
  fst (PL_Resolve 0 [lit_notP; lit_R] [lit_P; lit_Q] (mkState [] []))
    = Ret [[lit_R; lit_Q]] /\
  mem_clause [lit_R; lit_Q] [[lit_Q; lit_R]] = false /\
  issubset [[lit_R; lit_Q]] [[lit_Q; lit_R]] = false.
Proof.
  repeat split; try reflexivity.
  intros H. apply NoDup_cons_iff in H as [H _]. apply H. simpl. auto.
Qed.

(** Where the members of the output of [PL_Resolve] come from.  For
    complementary literals [L] of [clauseA] and [M] of [clauseB], one of
    which has no arguments, the tuple [make_clause L M clauseA clauseB];
    when both have arguments, that tuple with a [theta] applied to each
    literal, where [theta] is what [unify] returned in some state of
    [VARIABLES] and passed the test [theta is not None].  [make_clause] lists the literals of [clauseA] other
    than [L] and then those of [clauseB] other than [M], so a literal is in
    it iff it is in [(clauseA minus L)] or in [(clauseB minus M)]; the
    order is kept and repeated literals are kept. *)
Theorem PL_Resolve_resolvents fuel clauseA clauseB st resolvents st' :
  PL_Resolve fuel clauseA clauseB st = (Ret resolvents, st') ->
  (forall r, In r resolvents ->
     exists L M, In L clauseA /\ In M clauseB /\
       compliment_of (Predicate L) = Ret (Predicate M) /\
       resolvent_via fuel clauseA clauseB L M r) /\
  (forall L M, In L clauseA -> In M clauseB ->
     compliment_of (Predicate L) = Ret (Predicate M) ->
     match Arguments L, Arguments M with
     | _ :: _, _ :: _ =>
         exists st1 st2 theta,
           unify fuel (VL (Arguments L)) (VL (Arguments M)) (TDict ∅) st1
             = (Ret theta, st2) /\
           (theta <> TNone ->
            exists copy,
              substitute_all theta (make_clause L M clauseA clauseB) = Ret copy /\
              In copy resolvents)
     | _, _ => In (make_clause L M clauseA clauseB) resolvents
     end) /\
  (forall L M,
     make_clause L M clauseA clauseB =
       List.filter (fun t => negb (Literal_eqb t L)) clauseA ++
       List.filter (fun t => negb (Literal_eqb t M)) clauseB /\
     forall t, In t (make_clause L M clauseA clauseB) <->
       (In t clauseA /\ t <> L) \/ (In t clauseB /\ t <> M)).
Proof.
  intros E. split; [|split].
  - revert E. unfold PL_Resolve.
    set (I := fun rs : list Clause => forall r, In r rs ->
      exists L M, In L clauseA /\ In M clauseB /\
        compliment_of (Predicate L) = Ret (Predicate M) /\
        resolvent_via fuel clauseA clauseB L M r).
    apply (foldM_inv_In _ I); [|intros r []].
    intros acc L st0 b st1 HL Hacc. unfold bind at 1. unfold lift at 1.
    destruct (compliment_of (Predicate L)) as [c| |] eqn:Ec; try discriminate.
    apply (foldM_inv_In _ I); [|exact Hacc].
    intros acc' M st2 b' st3 HM Hacc' Es r Hr.
    destruct (resolve_literals_spec _ _ _ _ _ _ _ _ _ _ Es) as (_ & H2 & _).
    destruct (H2 r Hr) as [Hold|[-> Hvia]]; [apply Hacc', Hold|].
    exists L, M. auto.
  - intros L M HL HM Hc. unfold PL_Resolve in E.
    apply foldM_grows in E as [_ Hstep].
    2:{ intros acc x st0 b st1. unfold bind at 1. unfold lift at 1.
        destruct (compliment_of (Predicate x)); try discriminate.
        intros E'. apply (PL_Resolve_inner_grows _ _ _ _ _ _ _ _ _ E'). }
    destruct (Hstep L HL) as (acc1 & st1 & b1 & st2 & E1 & Hb1).
    unfold bind at 1 in E1. unfold lift at 1 in E1. rewrite Hc in E1.
    apply PL_Resolve_inner_grows in E1 as [_ Hin].
    destruct (Hin M HM) as (acc2 & st3 & b2 & st4 & E2 & Hb2).
    destruct (resolve_literals_spec _ _ _ _ _ _ _ _ _ _ E2) as (_ & _ & H3).
    specialize (H3 eq_refl).
    destruct (Arguments L) as [|l0 ls]; [apply Hb1, Hb2, H3|].
    destruct (Arguments M) as [|m0 ms]; [apply Hb1, Hb2, H3|].
    destruct H3 as (theta & st5 & Eu & Hth).
    exists st3, st5, theta. split; [exact Eu|].
    intros Hne. destruct (Hth Hne) as (copy & Hs & Hcopy).
    exists copy. split; [exact Hs | apply Hb1, Hb2, Hcopy].
  - intros L M. split; [reflexivity | intros t; apply make_clause_In].
Qed.

Lemma PL_Resolve_resolvents_witness :
  In (make_clause lit_P lit_notP [lit_P; lit_Q] [lit_notP; lit_R]) [[lit_Q; lit_R]].
Proof.
  apply (proj1 (proj2 (PL_Resolve_resolvents 0 [lit_P; lit_Q] [lit_notP; lit_R]
           (mkState [] []) [[lit_Q; lit_R]] (mkState [] []) eq_refl))
           lit_P lit_notP).
  - simpl. auto.
  - simpl. auto.
  - reflexivity.
Defined.

(** ** Soundness of [unify] *)

Lemma subst_arg_fixed (d : gmap string term) (t : term) :
  (forall s, In s (symbols t) -> d !! s = None) -> subst_arg d t = t.
Proof.
  induction t as [s|p args IH] using term_nested_ind; intros H; simpl.
  - rewrite (H s); simpl; auto.
  - f_equal. simpl in H. induction IH as [|x r Hx _ IHr]; simpl; [reflexivity|].
    rewrite Hx, IHr; [reflexivity| |].
    + intros s Hs. apply H. simpl. apply in_or_app. auto.
    + intros s Hs. apply H. simpl. apply in_or_app. auto.
Qed.

Lemma unchained_fixed (d : gmap string term) k v :
  unchained d -> d !! k = Some v -> subst_arg d v = v.
Proof. intros Hu Hk. apply subst_arg_fixed. intros s Hs. exact (Hu k v s Hk Hs). Qed.

(** A [theta] that is [None] or [False] never comes back as a dict. *)
Lemma unify_returns_dict fuel : forall a b theta st d st',
  unify fuel a b theta st = (Ret (TDict d), st') -> exists d0, theta = TDict d0.
Proof.
  induction fuel as [|fuel IH]; intros a b theta st d st' E; [discriminate|].
  destruct theta as [d0| |]; [eauto|discriminate|]. exfalso.
  rewrite unify_S in E. destruct (pyval_eqb a b); [discriminate|].
  unfold bind, get_VARIABLES in E.
  destruct (in_VARIABLES a (VARIABLES st)); [discriminate|].
  destruct (in_VARIABLES b (VARIABLES st)); [discriminate|].
  assert (Hbind : forall x y x' y' st0,
    match unify fuel x y TFalse st0 with
    | (Ret r, st1) => unify fuel x' y' r st1
    | (Raise e, st1) => (Raise e, st1)
    | (OutOfFuel, st1) => (OutOfFuel, st1)
    end = (Ret (TDict d), st') -> False).
  { intros x y x' y' st0 E'.
    destruct (unify fuel x y TFalse st0) as [[r| |] st1] eqn:E1; try discriminate.
    destruct (IH _ _ _ _ _ _ E') as [d1 ->].
    destruct (IH _ _ _ _ _ _ E1) as [d2 ?]. discriminate. }
  destruct a as [[s|p l]|l], b as [[s'|p' l']|l']; try discriminate.
  - exact (Hbind _ _ _ _ _ E).
  - destruct l as [|x0 xs], l' as [|y0 ys]; try discriminate.
    exact (Hbind _ _ _ _ _ E).
Qed.

Lemma unify_post_sym a b d0 st d1 st' :
  unify_post a b d0 st d1 st' -> unify_post b a d0 st d1 st'.
Proof.
  intros (H1 & H2 & H3 & H4). repeat split; auto.
  intros df V ? ? ? ? ? ?. symmetry. eapply H4; eauto.
Qed.

Lemma unify_post_same a d st : unify_post a a d st d st.
Proof.
  split; [reflexivity|]. split; [apply incl_refl|]. split; auto.
Qed.

Lemma not_variables_nil V : not_variables V [].
Proof. intros n []. Qed.

Lemma range_not_variables_insert V (d : gmap string term) k t :
  not_variables V (fn_names t) -> range_not_variables V d ->
  range_not_variables V (<[k := t]> d).
Proof.
  intros Ht Hd k' v. destruct (decide (k = k')) as [->|Hne].
  - rewrite lookup_insert_eq. intros E; injection E as <-. exact Ht.
  - rewrite lookup_insert_ne by exact Hne. apply Hd.
Qed.

(** Binding an unbound variable [var] to a term [t]. *)
Lemma unify_post_bind var t (d0 : gmap string term) st :
  d0 !! var = None ->
  unify_post (VT (Sym var)) (VT t) d0 st (<[var := t]> d0) st.
Proof.
  intros Hvar. split; [apply insert_subseteq, Hvar|]. split; [apply incl_refl|]. split.
  - intros V _ Ht Hd. apply range_not_variables_insert; assumption.
  - intros df V Hsub Hu _ _ _ _.
    assert (Hk : df !! var = Some t).
    { eapply lookup_weaken; [apply lookup_insert_eq | exact Hsub]. }
    simpl. rewrite Hk. f_equal. symmetry. eapply unchained_fixed; eauto.
Qed.

Lemma unify_var_sound rec var x d0 st d1 st' :
  unify_sound rec ->
  unify_var rec var x (TDict d0) st = (Ret (TDict d1), st') ->
  unify_post (VT (Sym var)) x d0 st d1 st'.
Proof.
  intros Hrec E. unfold unify_var in E.
  destruct (d0 !! var) as [val|] eqn:Evar.
  { (* var is bound *)
    apply Hrec in E as (H1 & H2 & H3 & H4). split; [exact H1|]. split; [exact H2|].
    split.
    - intros V _ Hx Hd. apply H3; auto. exact (Hd _ _ Evar).
    - intros df V Hsub Hu Hincl _ Hx Hd.
      assert (Hk : df !! var = Some val).
      { eapply lookup_weaken; [exact Evar|]. etrans; eauto. }
      rewrite <- (H4 df V); auto; [|exact (Hd _ _ Hk)].
      simpl. rewrite Hk. f_equal. symmetry. eapply unchained_fixed; eauto. }
  destruct x as [t|l]; [|discriminate].
  destruct (match t with Sym s => d0 !! s | Fn _ _ => None end) as [val|] eqn:Et.
  { (* x is bound *)
    destruct t as [s|]; [|discriminate].
    apply Hrec in E as (H1 & H2 & H3 & H4). split; [exact H1|]. split; [exact H2|].
    split.
    - intros V Hv _ Hd. apply H3; auto. exact (Hd _ _ Et).
    - intros df V Hsub Hu Hincl Hv _ Hd.
      assert (Hk : df !! s = Some val).
      { eapply lookup_weaken; [exact Et|]. etrans; eauto. }
      rewrite (H4 df V); auto; [|exact (Hd _ _ Hk)].
      simpl. rewrite Hk. f_equal. eapply unchained_fixed; eauto. }
  destruct (occur_check var (VT t)); [discriminate|].
  unfold bind at 1 in E. unfold get_VARIABLES in E.
  destruct (in_VARIABLES (VT t) (VARIABLES st)) as [s|] eqn:Ein.
  2:{ injection E as <- <-. apply unify_post_bind, Evar. }
  destruct t as [s0|]; [|discriminate]. simpl in Ein.
  destruct (mem_string s0 (VARIABLES st)); [|discriminate]. injection Ein as ->.
  destruct (negb (String.eqb s var)) eqn:Ene.
  2:{ injection E as <- <-. apply unify_post_bind, Evar. }
  apply negb_true_iff, String.eqb_neq in Ene.
  destruct s as [|c s']; [discriminate|].
  unfold bind, lift, append_VARIABLES, ret in E.
  destruct (fresh_loop _ c _ _ _) as [new| |]; try discriminate.
  injection E as <- <-. simpl.
  assert (Hs : <[var := Sym new]> d0 !! String c s' = None).
  { rewrite lookup_insert_ne by congruence. exact Et. }
  split; [etrans; [apply insert_subseteq, Evar | apply insert_subseteq, Hs]|].
  split; [apply incl_appl, incl_refl|]. split.
  - intros V _ _ Hd.
    apply range_not_variables_insert; [apply not_variables_nil|].
    apply range_not_variables_insert; [apply not_variables_nil|exact Hd].
  - intros df V Hsub _ _ _ _ _.
    assert (Hk1 : df !! String c s' = Some (Sym new)).
    { eapply lookup_weaken; [apply lookup_insert_eq | exact Hsub]. }
    assert (Hk2 : df !! var = Some (Sym new)).
    { eapply lookup_weaken; [|exact Hsub].
      rewrite lookup_insert_ne by congruence. apply lookup_insert_eq. }
    simpl. rewrite Hk1, Hk2. reflexivity.
Qed.

Lemma in_VARIABLES_Some x vs s :
  in_VARIABLES x vs = Some s -> x = VT (Sym s) /\ In s vs.
Proof.
  destruct x as [[s0|]|]; try discriminate. simpl.
  destruct (mem_string s0 vs) eqn:E; [|discriminate].
  intros H; injection H as <-. split; [reflexivity | apply mem_string_In, E].
Qed.

Lemma mem_string_false s vs : ~ In s vs -> mem_string s vs = false.
Proof.
  intros H. destruct (mem_string s vs) eqn:E; [|reflexivity].
  apply mem_string_In in E. contradiction.
Qed.

(** Two names that are not variables unify only when they are equal, and
    then nothing changes. *)
Lemma unify_names fuel p p' d0 st dm st1 :
  ~ In p (VARIABLES st) -> ~ In p' (VARIABLES st) ->
  unify fuel (VT (Sym p)) (VT (Sym p')) (TDict d0) st = (Ret (TDict dm), st1) ->
  p = p' /\ dm = d0 /\ st1 = st.
Proof.
  intros Hp Hp' E. destruct fuel as [|fuel]; [discriminate|].
  rewrite unify_S in E. destruct (pyval_eqb _ _) eqn:Eq.
  - apply pyval_eqb_eq in Eq. injection Eq as ->. injection E as <- <-. auto.
  - unfold bind, get_VARIABLES in E. simpl in E.
    rewrite (mem_string_false _ _ Hp), (mem_string_false _ _ Hp') in E. discriminate.
Qed.

Lemma not_variables_app V l l' :
  not_variables V (l ++ l') <-> not_variables V l /\ not_variables V l'.
Proof.
  unfold not_variables. split.
  - intros H. split; intros n Hn; apply H, in_or_app; auto.
  - intros [H1 H2] n Hn. apply in_app_or in Hn as [Hn|Hn]; auto.
Qed.

Lemma not_variables_cons V n l :
  not_variables V (n :: l) <-> ~ In n V /\ not_variables V l.
Proof.
  unfold not_variables. simpl. split.
  - intros H. split; [apply H; auto | intros m Hm; apply H; auto].
  - intros [H1 H2] m [<-|Hm]; auto.
Qed.

Lemma not_variables_incl V V' l :
  incl V' V -> not_variables V l -> not_variables V' l.
Proof. intros Hi H n Hn Hv. exact (H n Hn (Hi _ Hv)). Qed.

Lemma unify_sound_fuel fuel : unify_sound (unify fuel).
Proof.
  induction fuel as [|fuel IH]; intros a b d0 st d1 st' E; [discriminate|].
  rewrite unify_S in E. destruct (pyval_eqb a b) eqn:Eab.
  { apply pyval_eqb_eq in Eab. subst b. injection E as <- <-. apply unify_post_same. }
  unfold bind at 1 in E. unfold get_VARIABLES in E.
  destruct (in_VARIABLES a (VARIABLES st)) as [var|] eqn:Ea.
  { apply in_VARIABLES_Some in Ea as [-> _]. eapply unify_var_sound; eauto. }
  destruct (in_VARIABLES b (VARIABLES st)) as [var|] eqn:Eb.
  { apply in_VARIABLES_Some in Eb as [-> _].
    apply unify_post_sym. eapply unify_var_sound; eauto. }
  destruct a as [[s|p l]|l], b as [[s'|p' l']|l']; try discriminate.
  - (* two function applications *)
    unfold bind in E.
    destruct (unify fuel (VT (Sym p)) (VT (Sym p')) (TDict d0) st)
      as [[r| |] st1] eqn:E1; try discriminate.
    destruct (unify_returns_dict _ _ _ _ _ _ _ E) as [dm ->].
    pose proof (IH _ _ _ _ _ _ E1) as (A1 & A2 & A3 & _).
    pose proof (IH _ _ _ _ _ _ E) as (B1 & B2 & B3 & B4).
    split; [etrans; eauto|]. split; [eapply incl_tran; eauto|]. split.
    + intros V Ha Hb Hd. simpl in Ha, Hb.
      apply not_variables_cons in Ha as [_ Ha], Hb as [_ Hb].
      apply B3; auto. apply A3; auto; apply not_variables_nil.
    + intros df V Hsub Hu Hincl Ha Hb Hd. simpl in Ha, Hb.
      apply not_variables_cons in Ha as [Hp Ha], Hb as [Hp' Hb].
      assert (Hst : incl (VARIABLES st) V).
      { eapply incl_tran; [exact A2|]. eapply incl_tran; eauto. }
      destruct (unify_names _ _ _ _ _ _ _ (fun H => Hp (Hst _ H))
                  (fun H => Hp' (Hst _ H)) E1) as (-> & _ & _).
      specialize (B4 df V Hsub Hu Hincl Ha Hb Hd). simpl in B4.
      injection B4 as B4. simpl. rewrite B4. reflexivity.
  - (* two argument lists *)
    destruct l as [|x0 xs], l' as [|y0 ys]; try discriminate.
    unfold bind in E.
    destruct (unify fuel (VL xs) (VL ys) (TDict d0) st) as [[r| |] st1] eqn:E1;
      try discriminate.
    destruct (unify_returns_dict _ _ _ _ _ _ _ E) as [dm ->].
    pose proof (IH _ _ _ _ _ _ E1) as (A1 & A2 & A3 & A4).
    pose proof (IH _ _ _ _ _ _ E) as (B1 & B2 & B3 & B4).
    split; [etrans; eauto|]. split; [eapply incl_tran; eauto|]. split.
    + intros V Ha Hb Hd. simpl in Ha, Hb.
      apply not_variables_app in Ha as [Ha0 Ha], Hb as [Hb0 Hb].
      apply B3; auto.
    + intros df V Hsub Hu Hincl Ha Hb Hd. simpl in Ha, Hb.
      apply not_variables_app in Ha as [Ha0 Ha], Hb as [Hb0 Hb].
      specialize (B4 df V Hsub Hu Hincl Ha0 Hb0 Hd).
      assert (A5 : apply_theta df (VL xs) = apply_theta df (VL ys)).
      { apply (A4 df V); auto; [etrans; eauto | eapply incl_tran; eauto]. }
      simpl in B4, A5. injection B4 as B4. injection A5 as A5.
      simpl. rewrite B4, A5. reflexivity.
Qed.

Lemma unchainedb_unchained (d : gmap string term) :
  unchainedb d = true -> unchained d.
Proof.
  intros H k v s Hk Hs. unfold unchainedb in H. rewrite forallb_forall in H.
  assert (Hin : In (k, v) (map_to_list d)).
  { apply list_elem_of_In, elem_of_map_to_list. exact Hk. }
  apply H in Hin. simpl in Hin. rewrite forallb_forall in Hin.
  specialize (Hin s Hs). destruct (d !! s); [discriminate | reflexivity].
Qed.

(** A chained binding: with variables [X] and [Y], [unify] succeeds on
    [f(X, Y)] and [f(g(Y), a)] with [theta = {Y: a, X: g(Y)}].  The value
    bound to [X] mentions the key [Y], and [substitute] does not visit the
    values it puts in: the two terms become [f(g(Y), a)] and
    [f(g(a), a)]. *)
Lemma unify_not_sound_when_chained :
  unify 10 (VT term_fXY) (VT term_fgYa) (TDict ∅) st_XY
    = (Ret (TDict (<["X" := Fn "g" [Sym "Y"]]> (<["Y" := Sym "a"]> ∅))), st_XY) /\
  subst_arg (<["X" := Fn "g" [Sym "Y"]]> (<["Y" := Sym "a"]> ∅)) term_fXY
    = Fn "f" [Fn "g" [Sym "Y"]; Sym "a"] /\
  subst_arg (<["X" := Fn "g" [Sym "Y"]]> (<["Y" := Sym "a"]> ∅)) term_fgYa
    = Fn "f" [Fn "g" [Sym "a"]; Sym "a"] /\
  substitute (TDict (<["X" := Fn "g" [Sym "Y"]]> (<["Y" := Sym "a"]> ∅)))
      (mkLiteral "f" [Sym "X"; Sym "Y"]) <>
  substitute (TDict (<["X" := Fn "g" [Sym "Y"]]> (<["Y" := Sym "a"]> ∅)))
      (mkLiteral "f" [Fn "g" [Sym "Y"]; Sym "a"]).
Proof.
  split; [vm_compute; reflexivity|]. split; [vm_compute; reflexivity|].
  split; [vm_compute; reflexivity|]. vm_compute. discriminate.
Qed.

(** The same happens through the fresh variable minted for two variables:
    [f(Y, X)] against [f(a, Y)] gives [{X: Y0, Y: Y0, Y0: a}], and the terms
    become [f(Y0, Y0)] and [f(a, Y0)]. *)
Example unify_not_sound_fresh_variable :
  exists d st',
    unify 10 (VT (Fn "f" [Sym "Y"; Sym "X"])) (VT (Fn "f" [Sym "a"; Sym "Y"]))
      (TDict ∅) st_XY = (Ret (TDict d), st') /\
    VARIABLES st' = ["X"; "Y"; "Y0"] /\
    subst_arg d (Fn "f" [Sym "Y"; Sym "X"]) = Fn "f" [Sym "Y0"; Sym "Y0"] /\
    subst_arg d (Fn "f" [Sym "a"; Sym "Y"]) = Fn "f" [Sym "a"; Sym "Y0"].
Proof.
  eexists. eexists. split; [vm_compute; reflexivity|].
  repeat split; vm_compute; reflexivity.
Qed.

(** A predicate or function name that is also a variable name breaks
    the property even without chaining: with the variable [X], [X(a)]
    against [g(a)] gives [{X: g}], and [substitute] never renames a
    predicate. *)
Example unify_not_sound_variable_as_name :
  unify 10 (VT (Fn "X" [Sym "a"])) (VT (Fn "g" [Sym "a"])) (TDict ∅) st_XY
    = (Ret (TDict (<["X" := Sym "g"]> ∅)), st_XY) /\
  unchained (<["X" := Sym "g"]> ∅) /\
  subst_arg (<["X" := Sym "g"]> ∅) (Fn "X" [Sym "a"]) <>
  subst_arg (<["X" := Sym "g"]> ∅) (Fn "g" [Sym "a"]).
Proof.
  split; [vm_compute; reflexivity|].
  split; [apply unchainedb_unchained; vm_compute; reflexivity|].
  vm_compute. discriminate.
Qed.

(** X23: what one pass of [substitute] does achieve.  If [unify(x, y, {})]
    succeeds with a substitution [theta] that happens to have no chained
    binding (no value of [theta] mentions a key of [theta]), and no
    predicate or function name of [x] or [y] is a variable name, then
    applying [theta] to [x] and to [y] yields structurally equal terms. *)
Theorem unify_sound_unchained fuel x y st theta st' :
  unify fuel (VT x) (VT y) (TDict ∅) st = (Ret (TDict theta), st') ->
  unchained theta ->
  not_variables (VARIABLES st') (fn_names x ++ fn_names y) ->
  subst_arg theta x = subst_arg theta y.
Proof.
  intros E Hu Hn. apply not_variables_app in Hn as [Hx Hy].
  apply unify_sound_fuel in E as (_ & _ & H3 & H4).
  assert (Hr : range_not_variables (VARIABLES st') theta).
  { apply H3; auto. intros k v Hk. rewrite lookup_empty in Hk. discriminate. }
  specialize (H4 theta (VARIABLES st') (reflexivity _) Hu (incl_refl _) Hx Hy Hr).
  simpl in H4. injection H4 as H4. exact H4.
Qed.

Lemma unify_sound_unchained_witness :
  subst_arg (<["X" := Sym "Alice"]> (<["Y" := Sym "Cake"]> ∅)) term_Likes_X_Cake =
  subst_arg (<["X" := Sym "Alice"]> (<["Y" := Sym "Cake"]> ∅)) term_Likes_Alice_Y.
Proof.
  apply (unify_sound_unchained 10 term_Likes_X_Cake term_Likes_Alice_Y st_XY
           (<["X" := Sym "Alice"]> (<["Y" := Sym "Cake"]> ∅)) st_XY).
  - vm_compute. reflexivity.
  - apply unchainedb_unchained. vm_compute. reflexivity.
  - intros n Hn Hv. simpl in Hn, Hv.
    destruct Hn as [<-|[<-|[]]]; destruct Hv as [Hv|[Hv|[]]]; discriminate.
Defined.

(** C1 fails on the code: [unify] succeeds with a [theta] that does not
    make the two terms equal.  [unify_var] follows the bindings of [theta]
    ([unify(theta[var], x, theta)]) and so builds chained bindings, while
    [substitute] replaces each argument once and never visits what it put
    in.  On [f(X, Y)] against [f(g(Y), a)] the result is
    [{Y: a, X: g(Y)}] and the terms become [f(g(Y), a)] and [f(g(a), a)].
    In the resolver, [(X, X)] against [(a, Y)] gives
    [{X: Y0, Y: Y0, Y0: a}], under which the two argument lists become
    [(Y0, Y0)] and [(a, Y0)], and the resolvent of [{P(X,X), R(X)}] and
    [{!P(a,Y)}] is [{R(Y0)}] ([{R(X0)}] when the two clauses are taken in
    the other order), a statement about every [Y0], where the bindings give
    [{R(a)}].  [{R(Y0)}] resolves with [{!R(b)}] to the empty
    clause, [{R(a)}] does not, so the program prints [no] for the file with
    these three clauses, visiting the sets in the order the clauses were
    added as well as in the opposite order, although the
    clauses have a model: over [{a, b}], [P] true of [(b, b)] only and [R]
    true of [a] only. *)
Theorem unify_chained_bindings_unsound :
  unify 10 (VT term_fXY) (VT term_fgYa) (TDict ∅) st_XY
    = (Ret (TDict theta_fXY_fgYa), st_XY) /\
  subst_arg theta_fXY_fgYa term_fXY = Fn "f" [Fn "g" [Sym "Y"]; Sym "a"] /\
  subst_arg theta_fXY_fgYa term_fgYa = Fn "f" [Fn "g" [Sym "a"]; Sym "a"] /\
  unify 10 (VL [Sym "X"; Sym "X"]) (VL [Sym "a"; Sym "Y"]) (TDict ∅) st_XY
    = (Ret (TDict theta_XX_aY), mkState ["X"; "Y"; "Y0"] []) /\
  map (subst_arg theta_XX_aY) [Sym "X"; Sym "X"] = [Sym "Y0"; Sym "Y0"] /\
  map (subst_arg theta_XX_aY) [Sym "a"; Sym "Y"] = [Sym "a"; Sym "Y0"] /\
  PL_Resolve 10 clause_PXX_RX clause_notPaY st_XY
    = (Ret [[mkLiteral "R" [Sym "Y0"]]], mkState ["X"; "Y"; "Y0"] []) /\
  PL_Resolve 10 clause_notPaY clause_PXX_RX st_XY
    = (Ret [[mkLiteral "R" [Sym "X0"]]], mkState ["X"; "Y"; "X0"] []) /\
  PL_Resolve 10 [mkLiteral "R" [Sym "Y0"]] clause_notRb (mkState ["X"; "Y"; "Y0"] [])
    = (Ret [[]], mkState ["X"; "Y"; "Y0"] []) /\
  PL_Resolve 10 [mkLiteral "R" [Sym "a"]] clause_notRb (mkState ["X"; "Y"; "Y0"] [])
    = (Ret [], mkState ["X"; "Y"; "Y0"] []) /\
  read_lines file_PXX_RX
    = Parsed (mkGlobals ["P"; "R"] ["X"; "Y"] ["a"; "b"] [""],
              [clause_PXX_RX; clause_notPaY; clause_notRb]) /\
  is_model model_Pbb_Ra ["X"; "Y"] [Sym "a"; Sym "b"]
    [clause_PXX_RX; clause_notPaY; clause_notRb] = true /\
  main (fun s => s) 2 3 file_PXX_RX = Printed "no" /\
  main (@rev Clause) 2 3 file_PXX_RX = Printed "no".
Proof.
  repeat split; vm_compute; reflexivity.
Qed.

(** * Further properties of the unifier *)

(** ** The occurs check *)

Lemma occur_check_term_spec var t :
  occur_check_term var t = true <-> In var (symbols t) \/ In var (fn_names t).
Proof.
  induction t as [s|p args IH] using term_nested_ind; simpl.
  - rewrite String.eqb_eq. split; [intros ->; auto | intros [[->|[]]|[]]; reflexivity].
  - rewrite orb_true_iff, String.eqb_eq, existsb_exists, !in_flat_map.
    rewrite Forall_forall in IH. split.
    + intros [->|(x & Hx & Hc)]; [auto|].
      apply (IH x (proj2 (list_elem_of_In _ _) Hx)) in Hc as [Hc|Hc]; [left|right; right]; eauto.
    + intros [(x & Hx & Hs)|[->|(x & Hx & Hs)]]; [right|left; reflexivity|right];
        exists x; (split; [exact Hx|]);
        apply (IH x (proj2 (list_elem_of_In _ _) Hx)); auto.
Qed.

(** X1: a variable never unifies with a function application that
    mentions it, at any depth, as an argument or as a function name: from an
    empty substitution [unify] answers [False], in either argument order, and
    leaves [VARIABLES] alone. *)
Theorem unify_occurs_check fuel var p args st :
  In var (VARIABLES st) ->
  In var (symbols (Fn p args)) \/ In var (fn_names (Fn p args)) ->
  unify (S fuel) (VT (Sym var)) (VT (Fn p args)) (TDict ∅) st = (Ret TFalse, st) /\
  unify (S fuel) (VT (Fn p args)) (VT (Sym var)) (TDict ∅) st = (Ret TFalse, st).
Proof.
  intros Hvar Hocc. apply occur_check_term_spec in Hocc.
  assert (Hin : in_VARIABLES (VT (Sym var)) (VARIABLES st) = Some var).
  { simpl. apply mem_string_In in Hvar. rewrite Hvar. reflexivity. }
  assert (Hv : unify_var (unify fuel) var (VT (Fn p args)) (TDict ∅) st = (Ret TFalse, st)).
  { unfold unify_var. rewrite lookup_empty. unfold occur_check. rewrite Hocc. reflexivity. }
  split; rewrite unify_S.
  - change (pyval_eqb (VT (Sym var)) (VT (Fn p args))) with false. cbv iota.
    unfold bind, get_VARIABLES. rewrite Hin. exact Hv.
  - change (pyval_eqb (VT (Fn p args)) (VT (Sym var))) with false. cbv iota.
    unfold bind, get_VARIABLES.
    change (in_VARIABLES (VT (Fn p args)) (VARIABLES st)) with (@None string).
    cbv iota. rewrite Hin. exact Hv.
Qed.

Lemma unify_occurs_check_witness :
  unify 1 (VT (Sym "X")) (VT (Fn "f" [Fn "g" [Sym "X"]])) (TDict ∅) st_XY
  = (Ret TFalse, st_XY).
Proof.
  apply (unify_occurs_check 0 "X" "f" [Fn "g" [Sym "X"]] st_XY).
  - simpl. auto.
  - left. simpl. auto.
Defined.

(** ** Applying a substitution twice *)

Lemma subst_arg_idempotent (d : gmap string term) (t : term) :
  unchained d -> subst_arg d (subst_arg d t) = subst_arg d t.
Proof.
  intros Hu. induction t as [s|p args IH] using term_nested_ind; simpl.
  - destruct (d !! s) as [v|] eqn:E.
    + eapply unchained_fixed; eauto.
    + simpl. rewrite E. reflexivity.
  - f_equal. rewrite map_map. apply map_ext_in. intros x Hx.
    rewrite Forall_forall in IH. apply IH, list_elem_of_In, Hx.
Qed.

(** X2: when no value of [theta] mentions a key of [theta], [substitute]
    is idempotent: substituting in the literal it returned returns the same
    literal again. *)
Theorem substitute_idempotent (d : gmap string term) (l l' : Literal) :
  unchained d ->
  substitute (TDict d) l = Ret l' ->
  substitute (TDict d) l' = Ret l'.
Proof.
  intros Hu E. simpl in E. injection E as <-. simpl. do 2 f_equal.
  rewrite map_map. apply map_ext. intros x. apply subst_arg_idempotent, Hu.
Qed.

Lemma substitute_idempotent_witness :
  substitute (TDict (<["X" := Sym "Alice"]> (<["Y" := Sym "Cake"]> ∅)))
    (mkLiteral "Likes" [Sym "Alice"; Fn "f" [Sym "Cake"]])
  = Ret (mkLiteral "Likes" [Sym "Alice"; Fn "f" [Sym "Cake"]]).
Proof.
  apply (substitute_idempotent _ (mkLiteral "Likes" [Sym "X"; Fn "f" [Sym "Y"]])).
  - apply unchainedb_unchained. vm_compute. reflexivity.
  - vm_compute. reflexivity.
Defined.

(** ** [VARIABLES] during a run *)

Lemma variables_extended_refl st : variables_extended st st.
Proof. split; [exists []; rewrite app_nil_r; reflexivity | auto]. Qed.

Lemma variables_extended_trans st1 st2 st3 :
  variables_extended st1 st2 -> variables_extended st2 st3 ->
  variables_extended st1 st3.
Proof.
  intros [[a1 E1] N1] [[a2 E2] N2]. split; [|auto].
  exists (a1 ++ a2). rewrite E2, E1, app_assoc. reflexivity.
Qed.

Lemma extends_variables_ret {A} (x : A) : extends_variables (ret x).
Proof. intros st. apply variables_extended_refl. Qed.

Lemma extends_variables_raise {A} e : extends_variables (@raise A e).
Proof. intros st. apply variables_extended_refl. Qed.

Lemma extends_variables_out_of_fuel {A} : extends_variables (@out_of_fuel A).
Proof. intros st. apply variables_extended_refl. Qed.

Lemma extends_variables_lift {A} (r : result A) : extends_variables (lift r).
Proof. intros st. apply variables_extended_refl. Qed.

Lemma extends_variables_get : extends_variables get_VARIABLES.
Proof. intros st. apply variables_extended_refl. Qed.

Lemma extends_variables_log p : extends_variables (log_resolve p).
Proof.
  intros st. split; simpl; [exists []; rewrite app_nil_r; reflexivity | auto].
Qed.

Lemma extends_variables_bind {A B} (m : M A) (f : A -> M B) :
  extends_variables m -> (forall x, extends_variables (f x)) ->
  extends_variables (bind m f).
Proof.
  intros Hm Hf st. unfold bind. specialize (Hm st).
  destruct (m st) as [[x| |] st1]; simpl in *; [|assumption|assumption].
  eapply variables_extended_trans; [exact Hm | apply Hf].
Qed.

Lemma extends_variables_foldM {A B} (f : B -> A -> M B) (l : list A) :
  (forall acc x, extends_variables (f acc x)) ->
  forall acc, extends_variables (foldM f l acc).
Proof.
  intros Hf. induction l as [|x r IH]; intros acc; simpl.
  - apply extends_variables_ret.
  - apply extends_variables_bind; auto.
Qed.

Ltac extends_variables_step :=
  first
    [ apply extends_variables_ret | apply extends_variables_raise
    | apply extends_variables_out_of_fuel
    | apply extends_variables_lift | apply extends_variables_get
    | apply extends_variables_log
    | apply extends_variables_bind; [|intros ?]
    | apply extends_variables_foldM; intros ? ?
    | match goal with
      | H : forall x y theta, extends_variables (?u x y theta)
        |- extends_variables (?u _ _ _) => apply H
      | |- extends_variables (match ?x with _ => _ end) => destruct x
      end ].

(** The name the [while] loop settles on is not in [VARIABLES]. *)
Lemma fresh_loop_fresh fuel c vs : forall new i n,
  fresh_loop fuel c vs new i = Ret n -> ~ In n vs.
Proof.
  induction fuel as [|fuel IH]; intros new i n; simpl;
    destruct (mem_string new vs) eqn:E; try discriminate.
  - intros H; injection H as <-. rewrite <- mem_string_In. congruence.
  - apply IH.
  - intros H; injection H as <-. rewrite <- mem_string_In. congruence.
Qed.

Lemma extends_variables_unify_var rec var x theta :
  (forall x y theta, extends_variables (rec x y theta)) ->
  extends_variables (unify_var rec var x theta).
Proof.
  intros Hrec st. unfold unify_var.
  destruct theta as [d| |]; try apply variables_extended_refl.
  destruct (d !! var); [apply Hrec|].
  destruct x as [t|l]; [|apply variables_extended_refl].
  destruct (match t with Sym s => d !! s | Fn _ _ => None end); [apply Hrec|].
  destruct (occur_check var (VT t)); [apply variables_extended_refl|].
  unfold bind at 1. unfold get_VARIABLES.
  destruct (in_VARIABLES (VT t) (VARIABLES st)) as [s|]; [|apply variables_extended_refl].
  destruct (negb (String.eqb s var)); [|apply variables_extended_refl].
  destruct s as [|c s']; [apply variables_extended_refl|].
  unfold bind, lift.
  destruct (fresh_loop _ c _ _ _) as [new| |] eqn:Ef; try apply variables_extended_refl.
  simpl. split; [exists [new]; reflexivity|].
  intros Hnd. apply List.NoDup_app; [exact Hnd | repeat constructor; simpl; tauto|].
  intros n Hn [<-|[]]. exact (fresh_loop_fresh _ _ _ _ _ _ Ef Hn).
Qed.

Lemma extends_variables_unify fuel :
  forall x y theta, extends_variables (unify fuel x y theta).
Proof.
  induction fuel as [|fuel IH]; intros x y theta; [apply extends_variables_out_of_fuel|].
  rewrite unify_S.
  repeat first [apply extends_variables_unify_var; assumption | extends_variables_step].
Qed.

Lemma extends_variables_PL_Resolve fuel clause_one clause_two :
  extends_variables (PL_Resolve fuel clause_one clause_two).
Proof.
  unfold PL_Resolve, resolve_literals.
  repeat first [apply extends_variables_unify | extends_variables_step].
Qed.

Lemma extends_variables_resolve_pairs fuel pairs :
  forall new, extends_variables (resolve_pairs fuel pairs new).
Proof.
  induction pairs as [|pr rest IH]; intros new; simpl.
  - apply extends_variables_ret.
  - repeat first [apply extends_variables_PL_Resolve | apply IH
                 | extends_variables_step].
Qed.

Lemma extends_variables_loop iter rounds fuel :
  forall KB processed, extends_variables (PL_Resolution_loop iter rounds fuel KB processed).
Proof.
  induction rounds as [|rounds IH]; intros KB processed;
    [apply extends_variables_out_of_fuel|].
  rewrite PL_Resolution_loop_S. unfold collect_pairs, matched_of.
  repeat first [apply extends_variables_resolve_pairs | apply IH
               | extends_variables_step].
Qed.

(** X3: whatever the outcome of [unify], of [PL_Resolve] or of a whole
    run of [PL_Resolution] (a result, an exception, exhausted fuel), the
    list [VARIABLES] afterwards is the list before with names appended at
    the end, and if it had no duplicate before it has none afterwards: a
    minted variable never collides with an existing one. *)
Theorem VARIABLES_only_appended :
  (forall fuel x y theta st,
     variables_extended st (snd (unify fuel x y theta st))) /\
  (forall fuel clause_one clause_two st,
     variables_extended st (snd (PL_Resolve fuel clause_one clause_two st))) /\
  (forall iter rounds fuel KB st,
     variables_extended st (snd (PL_Resolution iter rounds fuel KB st))).
Proof.
  split; [|split].
  - intros. apply extends_variables_unify.
  - intros. apply extends_variables_PL_Resolve.
  - intros. apply extends_variables_loop.
Qed.

(** X4: a successful [unify] only adds bindings: every binding of the
    substitution it was given is in the substitution it returns, with the
    same value. *)
Theorem unify_keeps_bindings fuel a b (d0 d1 : gmap string term) st st' :
  unify fuel a b (TDict d0) st = (Ret (TDict d1), st') ->
  forall k v, d0 !! k = Some v -> d1 !! k = Some v.
Proof.
  intros E k v Hk. apply unify_sound_fuel in E as (Hsub & _).
  eapply lookup_weaken; eauto.
Qed.

Lemma unify_keeps_bindings_witness :
  (<["X" := Sym "a"]> (<["Y" := Sym "b"]> ∅) : gmap string term) !! "Y" = Some (Sym "b").
Proof.
  apply (unify_keeps_bindings 5 (VT (Sym "X")) (VT (Sym "a"))
           (<["Y" := Sym "b"]> ∅) _ st_XY st_XY).
  - vm_compute. reflexivity.
  - vm_compute. reflexivity.
Defined.

(** X5: once [theta] is a failure value ([None] or [False]), no call of
    [unify], however deep, turns it back into a substitution. *)
Theorem failed_theta_stays_failed fuel a b theta st d st' :
  theta = TNone \/ theta = TFalse ->
  unify fuel a b theta st <> (Ret (TDict d), st').
Proof.
  intros Hth E. apply unify_returns_dict in E as [d0 ->].
  destruct Hth; discriminate.
Qed.

Lemma failed_theta_stays_failed_witness :
  unify 5 (VT (Sym "a")) (VT (Sym "a")) TFalse st_XY <> (Ret (TDict ∅), st_XY).
Proof.
  apply (failed_theta_stays_failed 5 (VT (Sym "a")) (VT (Sym "a")) TFalse).
  right. reflexivity.
Defined.

(** * Further properties of the resolver and the engine *)

(** X6: [make_clause] returns the empty clause exactly when the first
    clause consists of copies of the first literal only and the second
    clause of copies of the second literal only. *)
Theorem make_clause_empty literal literal2 clause_one clause_two :
  make_clause literal literal2 clause_one clause_two = [] <->
  (forall t, In t clause_one -> t = literal) /\
  (forall t, In t clause_two -> t = literal2).
Proof.
  split.
  - intros E.
    assert (Hnone : forall t, ~ In t (make_clause literal literal2 clause_one clause_two))
      by (intros t; rewrite E; intros []).
    split; intros t Ht.
    + destruct (Literal_eqb t literal) eqn:Eq; [apply Literal_eqb_eq, Eq|].
      exfalso. apply (Hnone t), make_clause_In. left. split; [exact Ht|].
      intros H. apply Literal_eqb_eq in H. congruence.
    + destruct (Literal_eqb t literal2) eqn:Eq; [apply Literal_eqb_eq, Eq|].
      exfalso. apply (Hnone t), make_clause_In. right. split; [exact Ht|].
      intros H. apply Literal_eqb_eq in H. congruence.
  - intros [H1 H2].
    destruct (make_clause literal literal2 clause_one clause_two) as [|t r] eqn:E;
      [reflexivity|].
    assert (Hin : In t (make_clause literal literal2 clause_one clause_two))
      by (rewrite E; simpl; auto).
    apply make_clause_In in Hin as [[Ht Hne]|[Ht Hne]]; exfalso; auto.
Qed.

(** ** [get_pairs] *)

Lemma get_pairs_inner originalClause compliment clause (lits : list Literal) :
  forall matches d,
  In d (fold_left
          (fun matches literal =>
             if String.eqb (Predicate literal) compliment
                && negb (mem_clause clause matches)
                && negb (clause_eqb clause originalClause)
             then set_add clause matches
             else matches)
          lits matches) <->
  In d matches \/
  (d = clause /\ clause <> originalClause /\
   exists l, In l lits /\ Predicate l = compliment).
Proof.
  induction lits as [|l r IH]; intros matches d; simpl.
  - split; [auto | intros [H|(_ & _ & l & [] & _)]; exact H].
  - rewrite IH. clear IH.
    assert (A : In d (if String.eqb (Predicate l) compliment
                         && negb (mem_clause clause matches)
                         && negb (clause_eqb clause originalClause)
                      then set_add clause matches else matches) <->
                In d matches \/
                (d = clause /\ clause <> originalClause /\ Predicate l = compliment)).
    { destruct (String.eqb (Predicate l) compliment) eqn:Ep; simpl.
      - apply String.eqb_eq in Ep.
        destruct (mem_clause clause matches) eqn:Em; simpl.
        + apply mem_clause_In in Em. split; [auto|]. intros [H|(-> & _)]; auto.
        + destruct (clause_eqb clause originalClause) eqn:Ec; simpl.
          * apply clause_eqb_eq in Ec. split; [auto|].
            intros [H|(_ & Hne & _)]; [exact H | contradiction].
          * assert (Hne : clause <> originalClause).
            { intros H. apply clause_eqb_eq in H. congruence. }
            rewrite In_set_add. split.
            -- intros [->|H]; auto.
            -- intros [H|(-> & _)]; auto.
      - apply String.eqb_neq in Ep. split; [auto|].
        intros [H|(_ & _ & Hp)]; [exact H | contradiction]. }
    rewrite A. clear A. split.
    + intros [[H|(Hd & Hne & Hp)]|(Hd & Hne & l' & Hl' & Hp)]; [auto| |].
      * right. split; [exact Hd|]. split; [exact Hne|]. exists l. auto.
      * right. split; [exact Hd|]. split; [exact Hne|]. exists l'. auto.
    + intros [H|(Hd & Hne & l' & [<-|Hl'] & Hp)]; [auto| |].
      * left. right. auto.
      * right. split; [exact Hd|]. split; [exact Hne|]. exists l'. auto.
Qed.

Lemma get_pairs_iff iter originalClause compliment KB d :
  In d (get_pairs iter originalClause compliment KB) <->
  In d (iter KB) /\ d <> originalClause /\
  exists l, In l d /\ Predicate l = compliment.
Proof.
  unfold get_pairs. generalize (iter KB) as s. intros s.
  assert (G : forall matches,
    In d (fold_left
            (fun matches clause =>
               fold_left
                 (fun matches literal =>
                    if String.eqb (Predicate literal) compliment
                       && negb (mem_clause clause matches)
                       && negb (clause_eqb clause originalClause)
                    then set_add clause matches
                    else matches)
                 clause matches) s matches) <->
    In d matches \/
    (In d s /\ d <> originalClause /\ exists l, In l d /\ Predicate l = compliment)).
  { induction s as [|c r IH]; intros matches; simpl.
    - intuition.
    - rewrite IH, get_pairs_inner. split.
      + intros [[H|(-> & Hne & Hl)]|(Hd & Hne & Hl)]; auto.
      + intros [H|([<-|Hd] & Hne & Hl)]; auto. }
  rewrite G. simpl. intuition.
Qed.

Lemma iter_In_iff iter s (c : Clause) :
  iter_is_permutation iter -> In c (iter s) <-> In c s.
Proof.
  intros Hperm. split; apply Permutation.Permutation_in;
    [apply Hperm | apply Permutation_sym, Hperm].
Qed.

(** X7: [get_pairs] returns exactly the clauses of the knowledge base,
    other than [originalClause], that contain a literal whose predicate name
    is [compliment]. *)
Theorem get_pairs_characterised iter originalClause compliment KB d :
  iter_is_permutation iter ->
  (In d (get_pairs iter originalClause compliment KB) <->
   In d KB /\ d <> originalClause /\
   exists l, In l d /\ Predicate l = compliment).
Proof.
  intros Hperm. rewrite get_pairs_iff, (iter_In_iff iter KB d Hperm). reflexivity.
Qed.

Lemma get_pairs_characterised_witness :
  In [lit_notP; lit_R]
     (get_pairs (fun s => s) [lit_P] "!P" [[lit_P]; [lit_notP; lit_R]]).
Proof.
  apply (get_pairs_characterised (fun s => s)).
  - intros s. apply Permutation_refl.
  - split; [simpl; auto|]. split; [discriminate|].
    exists lit_notP. split; [simpl; auto | reflexivity].
Defined.

(** ** [PL_Resolve] on propositional clauses *)

Lemma foldM_pure {A B} (f : B -> A -> M B) (l : list A) :
  (forall acc x st, In x l -> exists b, f acc x st = (Ret b, st)) ->
  forall acc st, exists b, foldM f l acc st = (Ret b, st).
Proof.
  induction l as [|x r IH]; intros Hf acc st; simpl.
  - exists acc. reflexivity.
  - unfold bind. destruct (Hf acc x st) as [b ->]; [simpl; auto|].
    apply IH. intros acc' y st' Hy. apply Hf. simpl. auto.
Qed.

Lemma compliment_of_named p :
  p <> "" -> exists q, compliment_of p = Ret q.
Proof.
  destruct p as [|c rest]; [contradiction|]. intros _. simpl.
  destruct (Ascii.eqb c "!"); eauto.
Qed.

Lemma resolve_literals_propositional fuel A B L compliment rs M st :
  Arguments L = [] ->
  resolve_literals fuel A B L compliment rs M st =
  (Ret (if String.eqb compliment (Predicate M)
        then set_add (make_clause L M A B) rs else rs), st).
Proof.
  intros HL. unfold resolve_literals. rewrite HL.
  destruct (String.eqb compliment (Predicate M)); reflexivity.
Qed.

Lemma PL_Resolve_propositional_returns fuel A B st :
  propositional A -> named A ->
  exists rs, PL_Resolve fuel A B st = (Ret rs, st).
Proof.
  intros Hp Hn. unfold PL_Resolve. apply foldM_pure.
  intros acc L st0 HL. unfold bind at 1. unfold lift at 1.
  destruct (compliment_of_named _ (Hn L HL)) as [q ->].
  apply foldM_pure. intros acc' M st1 _.
  rewrite (resolve_literals_propositional _ _ _ _ _ _ _ _ (Hp L HL)). eauto.
Qed.

(** Every member of the output of [PL_Resolve] comes from a pair of
    complementary literals. *)
Lemma PL_Resolve_members fuel A B st rs st' :
  PL_Resolve fuel A B st = (Ret rs, st') ->
  forall r, In r rs ->
    exists L M, In L A /\ In M B /\
      compliment_of (Predicate L) = Ret (Predicate M) /\
      resolvent_via fuel A B L M r.
Proof.
  unfold PL_Resolve.
  set (I := fun rs : list Clause => forall r, In r rs ->
    exists L M, In L A /\ In M B /\
      compliment_of (Predicate L) = Ret (Predicate M) /\
      resolvent_via fuel A B L M r).
  apply (foldM_inv_In _ I); [|intros r []].
  intros acc L st0 b st1 HL Hacc. unfold bind at 1. unfold lift at 1.
  destruct (compliment_of (Predicate L)) as [c| |] eqn:Ec; try discriminate.
  apply (foldM_inv_In _ I); [|exact Hacc].
  intros acc' M st2 b' st3 HM Hacc' Es r Hr.
  destruct (resolve_literals_spec _ _ _ _ _ _ _ _ _ _ Es) as (_ & H2 & _).
  destruct (H2 r Hr) as [Hold|[-> Hvia]]; [apply Hacc', Hold|].
  exists L, M. auto.
Qed.

(** The tuple of every complementary pair with an argument-free literal is
    in the output of [PL_Resolve]. *)
Lemma PL_Resolve_contains fuel A B st rs st' L M :
  PL_Resolve fuel A B st = (Ret rs, st') ->
  In L A -> In M B -> compliment_of (Predicate L) = Ret (Predicate M) ->
  Arguments L = [] ->
  In (make_clause L M A B) rs.
Proof.
  intros E HL HM Hc HA. unfold PL_Resolve in E.
  apply foldM_grows in E as [_ Hstep].
  2:{ intros acc x st0 b st1. unfold bind at 1. unfold lift at 1.
      destruct (compliment_of (Predicate x)); try discriminate.
      intros E'. apply (PL_Resolve_inner_grows _ _ _ _ _ _ _ _ _ E'). }
  destruct (Hstep L HL) as (acc1 & st1 & b1 & st2 & E1 & Hb1).
  unfold bind at 1 in E1. unfold lift at 1 in E1. rewrite Hc in E1.
  apply PL_Resolve_inner_grows in E1 as [_ Hin].
  destruct (Hin M HM) as (acc2 & st3 & b2 & st4 & E2 & Hb2).
  rewrite (resolve_literals_propositional _ _ _ _ _ _ _ _ HA) in E2.
  rewrite String.eqb_refl in E2. injection E2 as <- _.
  apply Hb1, Hb2, In_set_add. auto.
Qed.

(** X8: when the literals of the first clause have no arguments and
    non-empty predicate names, [PL_Resolve] raises nothing, never calls the
    unifier (it returns whatever the fuel and leaves [VARIABLES]
    untouched), and its output is exactly the set of tuples
    [make_clause L M] for the complementary pairs [L], [M]. *)
Theorem PL_Resolve_propositional fuel clause_one clause_two st :
  propositional clause_one -> named clause_one ->
  exists resolvents,
    PL_Resolve fuel clause_one clause_two st = (Ret resolvents, st) /\
    forall r, In r resolvents <->
      exists L M, In L clause_one /\ In M clause_two /\
        compliment_of (Predicate L) = Ret (Predicate M) /\
        r = make_clause L M clause_one clause_two.
Proof.
  intros Hp Hn.
  destruct (PL_Resolve_propositional_returns fuel clause_one clause_two st Hp Hn)
    as [rs E].
  exists rs. split; [exact E|]. intros r. split.
  - intros Hr. destruct (PL_Resolve_members _ _ _ _ _ _ E r Hr)
      as (L & M & HL & HM & Hc & Hvia).
    exists L, M. repeat split; auto.
    destruct Hvia as [[_ ->]|(Hne & _)]; [reflexivity|].
    exfalso. apply Hne, Hp, HL.
  - intros (L & M & HL & HM & Hc & ->).
    eapply PL_Resolve_contains; eauto.
Qed.

Lemma PL_Resolve_propositional_witness :
  exists resolvents,
    PL_Resolve 0 [lit_P; lit_Q] [lit_notP; lit_R] (mkState [] [])
      = (Ret resolvents, mkState [] []) /\
    forall r, In r resolvents <->
      exists L M, In L [lit_P; lit_Q] /\ In M [lit_notP; lit_R] /\
        compliment_of (Predicate L) = Ret (Predicate M) /\
        r = make_clause L M [lit_P; lit_Q] [lit_notP; lit_R].
Proof.
  apply (PL_Resolve_propositional 0 [lit_P; lit_Q] [lit_notP; lit_R]).
  - intros l [<-|[<-|[]]]; reflexivity.
  - intros l [<-|[<-|[]]]; discriminate.
Defined.

(** ** Empty predicate names *)

Lemma matched_fold_outcome iter KB (whole lits : list Literal) : forall acc st,
  ((forall l, In l lits -> Predicate l <> "") /\
   exists m, foldM (fun matched literal =>
                      do compliment <- lift (compliment_of (Predicate literal));
                      ret (get_pairs iter whole compliment KB)) lits acc st
             = (Ret m, st)) \/
  ((exists l, In l lits /\ Predicate l = "") /\
   foldM (fun matched literal =>
            do compliment <- lift (compliment_of (Predicate literal));
            ret (get_pairs iter whole compliment KB)) lits acc st
   = (Raise IndexError, st)).
Proof.
  induction lits as [|l r IH]; intros acc st; simpl.
  - left. split; [intros l []|]. exists acc. reflexivity.
  - unfold bind at 1 3. unfold lift at 1 3.
    destruct (Predicate l) as [|ch rest] eqn:Ep; simpl.
    + right. split; [|reflexivity]. exists l. simpl. auto.
    + assert (Ec : exists q, (if Ascii.eqb ch "!" then Ret rest
                              else Ret (String "!" (String ch rest)))
                             = Ret q :> result string)
        by (destruct (Ascii.eqb ch "!"); eauto).
      destruct Ec as [q ->]. unfold ret at 1 3.
      destruct (IH (get_pairs iter whole q KB) st) as [[Hn Hm]|[(l' & Hl' & Hp') Hr]].
      * left. split; [|exact Hm].
        intros l' [<-|Hl']; [rewrite Ep; discriminate | apply Hn, Hl'].
      * right. split; [|exact Hr]. exists l'. simpl. auto.
Qed.

Lemma matched_of_outcome iter KB clause st :
  (named clause /\ exists m, matched_of iter KB clause st = (Ret m, st)) \/
  (~ named clause /\ matched_of iter KB clause st = (Raise IndexError, st)).
Proof.
  unfold matched_of.
  destruct (matched_fold_outcome iter KB clause clause [] st)
    as [[Hn Hm]|[(l & Hl & Hp) Hr]].
  - left. split; [exact Hn | exact Hm].
  - right. split; [|exact Hr]. intros H. exact (H l Hl Hp).
Qed.

Lemma foldM_cons_Ret {A B} (f : B -> A -> M B) x r acc st b st1 :
  f acc x st = (Ret b, st1) -> foldM f (x :: r) acc st = foldM f r b st1.
Proof. intros E. simpl. unfold bind. rewrite E. reflexivity. Qed.

Lemma foldM_cons_Raise {A B} (f : B -> A -> M B) x r acc st e st1 :
  f acc x st = (Raise e, st1) -> foldM f (x :: r) acc st = (Raise e, st1).
Proof. intros E. simpl. unfold bind. rewrite E. reflexivity. Qed.

Lemma collect_pairs_outcome iter KB (s : list Clause) : forall acc st,
  ((forall c, In c s -> named c) /\
   exists cp, foldM (fun acc clause =>
                do matched <- matched_of iter KB clause;
                ret (collect_matches iter clause acc matched)) s acc st
              = (Ret cp, st)) \/
  ((exists c, In c s /\ ~ named c) /\
   foldM (fun acc clause =>
            do matched <- matched_of iter KB clause;
            ret (collect_matches iter clause acc matched)) s acc st
   = (Raise IndexError, st)).
Proof.
  induction s as [|c r IH]; intros acc st.
  - left. split; [intros c []|]. exists acc. reflexivity.
  - destruct (matched_of_outcome iter KB c st) as [[Hn [m Hm]]|[Hn Hr]].
    + rewrite (foldM_cons_Ret _ c r acc st (collect_matches iter c acc m) st)
        by (unfold bind; rewrite Hm; reflexivity).
      destruct (IH (collect_matches iter c acc m) st) as [[Ha Hcp]|[(c' & Hc' & Hn') Hr]].
      * left. split; [|exact Hcp]. intros c' [<-|Hc']; auto.
      * right. split; [|exact Hr]. exists c'. simpl. auto.
    + rewrite (foldM_cons_Raise _ c r acc st IndexError st)
        by (unfold bind; rewrite Hr; reflexivity).
      right. split; [|reflexivity]. exists c. simpl. auto.
Qed.

(** X9: a literal whose predicate name is the empty string, anywhere in
    the knowledge base, makes the first round raise [IndexError] before any
    pair is resolved. *)
Theorem PL_Resolution_empty_predicate iter rounds fuel KB st c l :
  iter_is_permutation iter ->
  In c KB -> In l c -> Predicate l = "" ->
  PL_Resolution iter (S rounds) fuel KB st = (Raise IndexError, st).
Proof.
  intros Hperm Hc Hl Hp. unfold PL_Resolution. rewrite PL_Resolution_loop_S.
  unfold bind at 1. unfold collect_pairs.
  destruct (collect_pairs_outcome iter KB (iter KB) ([], []) st)
    as [[Hn _]|[_ ->]]; [|reflexivity].
  exfalso. apply (Hn c (proj2 (iter_In_iff iter KB c Hperm) Hc) l Hl Hp).
Qed.

Lemma PL_Resolution_empty_predicate_witness :
  PL_Resolution (fun s => s) 1 0 [[lit_P]; [mkLiteral "" [Sym ""]]] (mkState [] [])
  = (Raise IndexError, mkState [] []).
Proof.
  apply (PL_Resolution_empty_predicate (fun s => s) 0 0 _ _
           [mkLiteral "" [Sym ""]] (mkLiteral "" [Sym ""])).
  - intros s. apply Permutation_refl.
  - simpl. auto.
  - simpl. auto.
  - reflexivity.
Defined.

(** ** The candidate pairs of a round *)

Lemma matched_fold_last iter KB (whole lits : list Literal) : forall acc st m st',
  foldM (fun matched literal =>
           do compliment <- lift (compliment_of (Predicate literal));
           ret (get_pairs iter whole compliment KB)) lits acc st = (Ret m, st') ->
  (lits = [] /\ m = acc) \/
  (exists front l0 q, lits = front ++ [l0] /\
     compliment_of (Predicate l0) = Ret q /\ m = get_pairs iter whole q KB).
Proof.
  induction lits as [|l r IH]; intros acc st m st' E; simpl in E.
  - injection E as <- _. auto.
  - right. unfold bind at 1 in E. unfold bind, lift in E.
    destruct (compliment_of (Predicate l)) as [q| |] eqn:Eq; try discriminate.
    unfold ret at 1 in E.
    destruct (IH _ _ _ _ E) as [[-> ->]|(front & l0 & q' & -> & Hq' & ->)].
    + exists [], l, q. auto.
    + exists (l :: front), l0, q'. auto.
Qed.

(** A property of all the pairs [(clause, match)] that the matches of a
    clause can give holds of all the candidate pairs. *)
Lemma collect_pairs_Forall iter KB processed st cp st' (Q : Clause -> Clause -> Prop) :
  (forall c m st0 st1, In c (iter KB) ->
     matched_of iter KB c st0 = (Ret m, st1) ->
     forall d, In d (iter m) -> Q c d) ->
  collect_pairs iter KB processed st = (Ret cp, st') ->
  forall c d, In (c, d) (fst cp) -> Q c d.
Proof.
  intros HQ. unfold collect_pairs.
  apply (foldM_inv_In _ (fun acc => forall c d, In (c, d) (fst acc) -> Q c d));
    [|intros c d []].
  intros acc clause st0 b st1 Hin Hacc. unfold bind.
  destruct (matched_of iter KB clause st0) as [[m| |] st2] eqn:Em; try discriminate.
  unfold ret. intros E; injection E as <- _.
  unfold collect_matches.
  apply (fold_left_inv _ (fun acc => forall c d, In (c, d) (fst acc) -> Q c d));
    [|exact Hacc].
  intros acc' match_ Hm Hacc' c d.
  destruct (_ && _); [|apply Hacc']. simpl.
  rewrite in_app_iff. simpl. intros [H|[H|[]]]; [apply Hacc', H|].
  injection H as <- <-. eapply HQ; eauto.
Qed.

Lemma collect_pairs_state iter KB processed st cp st' :
  collect_pairs iter KB processed st = (Ret cp, st') -> st' = st.
Proof.
  unfold collect_pairs. intros E.
  destruct (collect_pairs_outcome iter KB (iter KB) ([], processed) st)
    as [[_ [cp0 E0]]|[_ E0]]; rewrite E0 in E; [|discriminate].
  injection E as _ <-. reflexivity.
Qed.

(** X10: the candidate pairs of a round.  Each pair [(c, d)] consists of
    two different clauses of the knowledge base, [d] contains a literal
    whose predicate name is the complement of the name of the LAST literal
    of [c], neither order of the pair was in [processed] before the round,
    and both orders are in it afterwards; [processed] loses nothing, and
    collecting the pairs changes neither [VARIABLES] nor the log. *)
Theorem collect_pairs_records iter KB processed st cp st' :
  iter_is_permutation iter ->
  collect_pairs iter KB processed st = (Ret cp, st') ->
  st' = st /\
  incl processed (snd cp) /\
  forall c d, In (c, d) (fst cp) ->
    In c KB /\ In d KB /\ c <> d /\
    (exists front l0 l, c = front ++ [l0] /\ In l d /\
       compliment_of (Predicate l0) = Ret (Predicate l)) /\
    ~ In (c, d) processed /\ ~ In (d, c) processed /\
    In (c, d) (snd cp) /\ In (d, c) (snd cp).
Proof.
  intros Hperm E. split; [eapply collect_pairs_state; eauto|].
  destruct (collect_pairs_collecting _ _ _ _ _ _ E) as (_ & Hincl & Hcol).
  split; [exact Hincl|]. intros c d Hcd.
  assert (HQ : In c KB /\ In d KB /\ c <> d /\
    exists front l0 l, c = front ++ [l0] /\ In l d /\
      compliment_of (Predicate l0) = Ret (Predicate l)).
  { revert c d Hcd. eapply collect_pairs_Forall; [|exact E].
    intros c m st0 st1 Hc Em d Hd.
    apply (iter_In_iff iter KB c Hperm) in Hc.
    apply (iter_In_iff iter m d Hperm) in Hd.
    unfold matched_of in Em.
    destruct (matched_fold_last _ _ _ _ _ _ _ _ Em)
      as [[_ ->]|(front & l0 & q & Hfront & Hq & ->)]; [destruct Hd|].
    apply get_pairs_iff in Hd as (Hd & Hne & l & Hl & <-).
    apply (iter_In_iff iter KB d Hperm) in Hd.
    repeat split; auto. exists front, l0, l. auto. }
  destruct HQ as (H1 & H2 & H3 & H4).
  destruct (Hcol (c, d) Hcd) as (H5 & H6 & H7 & H8).
  repeat split; auto.
Qed.

Lemma collect_pairs_records_witness :
  exists cp,
    collect_pairs (fun s => s) [[lit_P]; [lit_notP]] [] (mkState [] [])
      = (Ret cp, mkState [] []) /\
    In ([lit_P], [lit_notP]) (snd cp) /\ In ([lit_notP], [lit_P]) (snd cp).
Proof.
  exists ([([lit_P], [lit_notP])], [([lit_P], [lit_notP]); ([lit_notP], [lit_P])]).
  split; [reflexivity|].
  apply (collect_pairs_records (fun s => s) [[lit_P]; [lit_notP]] []
           (mkState [] []) _ (mkState [] [])).
  - intros s. apply Permutation_refl.
  - reflexivity.
  - simpl. auto.
Defined.

(** ** Knowledge bases without negation *)

Lemma no_member_nil {A} (l : list A) : (forall x, ~ In x l) -> l = [].
Proof. destruct l as [|x r]; [reflexivity|]. intros H. destruct (H x). simpl. auto. Qed.

Lemma positive_matched iter KB (whole lits : list Literal) st :
  (forall d, In d (iter KB) -> positive d) ->
  positive lits ->
  foldM (fun matched literal =>
           do compliment <- lift (compliment_of (Predicate literal));
           ret (get_pairs iter whole compliment KB)) lits [] st = (Ret [], st).
Proof.
  intros HKB. induction lits as [|l r IH]; intros Hpos; [reflexivity|].
  destruct (Hpos l) as (ch & rest & Hp & Hch); [simpl; auto|].
  assert (Hg : get_pairs iter whole (String "!" (Predicate l)) KB = []).
  { apply no_member_nil. intros d Hd.
    apply get_pairs_iff in Hd as (Hd & _ & l' & Hl' & Hp').
    destruct (HKB d Hd l' Hl') as (ch' & rest' & Hp'' & Hch').
    rewrite Hp'' in Hp'. injection Hp' as -> _. discriminate. }
  rewrite (foldM_cons_Ret _ l r [] st [] st).
  - apply IH. intros l' Hl'. apply Hpos. simpl. auto.
  - unfold bind, lift, ret. rewrite Hp. simpl. rewrite Hch.
    rewrite <- Hp, Hg. reflexivity.
Qed.

(** X11: a knowledge base in which no literal is negated is reported
    satisfiable in the first round, without any call of [PL_Resolve]. *)
Theorem PL_Resolution_positive_KB iter rounds fuel KB st :
  iter_is_permutation iter ->
  (forall c, In c KB -> positive c) ->
  PL_Resolution iter (S rounds) fuel KB st = (Ret true, st).
Proof.
  intros Hperm Hpos.
  assert (HKB : forall d, In d (iter KB) -> positive d).
  { intros d Hd. apply Hpos, (iter_In_iff iter KB d Hperm), Hd. }
  assert (Hcol : forall s acc, (forall c, In c s -> positive c) ->
    foldM (fun acc clause =>
             do matched <- matched_of iter KB clause;
             ret (collect_matches iter clause acc matched)) s acc st
    = (Ret acc, st)).
  { induction s as [|c r IH]; intros acc Hs; [reflexivity|].
    rewrite (foldM_cons_Ret _ c r acc st acc st).
    - apply IH. intros c' Hc'. apply Hs. simpl. auto.
    - unfold bind, matched_of.
      rewrite (positive_matched iter KB c c st HKB) by (apply Hs; simpl; auto).
      unfold ret, collect_matches. rewrite (iter_nil iter Hperm). reflexivity. }
  unfold PL_Resolution. rewrite PL_Resolution_loop_S. unfold bind at 1.
  unfold collect_pairs. rewrite (Hcol (iter KB) ([], []) HKB). reflexivity.
Qed.

Lemma PL_Resolution_positive_KB_witness :
  PL_Resolution (fun s => s) 1 0 [[lit_P; lit_Q]; [lit_Q; lit_R]] (mkState [] [])
  = (Ret true, mkState [] []).
Proof.
  apply (PL_Resolution_positive_KB (fun s => s)).
  - intros s. apply Permutation_refl.
  - intros c [<-|[<-|[]]] l [<-|[<-|[]]]; eexists; eexists; split; reflexivity.
Defined.

(** ** The verdict "unsatisfiable" on propositional knowledge bases *)

Lemma compliment_holds v p q :
  compliment_of p = Ret q -> holds v q = negb (holds v p).
Proof.
  destruct p as [|c rest]; [discriminate|]. simpl.
  destruct (Ascii.eqb c "!") eqn:Ec; intros E; injection E as <-.
  - rewrite negb_involutive. reflexivity.
  - simpl. rewrite Ec. reflexivity.
Qed.

Lemma make_clause_satisfied v L M A B :
  compliment_of (Predicate L) = Ret (Predicate M) ->
  satisfies v A = true -> satisfies v B = true ->
  satisfies v (make_clause L M A B) = true.
Proof.
  intros Hc HA HB. unfold satisfies in *. rewrite existsb_exists in *.
  destruct HA as (t & Ht & Htv), HB as (u & Hu & Huv).
  destruct (Literal_eqb t L) eqn:Et.
  - apply Literal_eqb_eq in Et. subst t.
    exists u. split; [|exact Huv]. apply make_clause_In. right. split; [exact Hu|].
    intros ->. rewrite (compliment_holds v _ _ Hc), Htv in Huv. discriminate.
  - exists t. split; [|exact Htv]. apply make_clause_In. left. split; [exact Ht|].
    intros H. apply Literal_eqb_eq in H. congruence.
Qed.

Lemma make_clause_propositional L M A B :
  propositional A -> propositional B -> propositional (make_clause L M A B).
Proof.
  intros HA HB l Hl. apply make_clause_In in Hl as [[Hl _]|[Hl _]]; auto.
Qed.

Lemma In_set_union c s t : In c (set_union s t) <-> In c s \/ In c t.
Proof.
  unfold set_union. revert s. induction t as [|x r IH]; intros s; simpl.
  - intuition.
  - rewrite IH, In_set_add. intuition.
Qed.

Lemma PL_Resolve_entailed KB0 fuel c d st rs st' :
  entailed KB0 c -> entailed KB0 d ->
  PL_Resolve fuel c d st = (Ret rs, st') ->
  forall r, In r rs -> entailed KB0 r.
Proof.
  intros [Hpc Hc] [Hpd Hd] E r Hr.
  destruct (PL_Resolve_members _ _ _ _ _ _ E r Hr) as (L & M & HL & HM & Hcomp & Hvia).
  destruct Hvia as [[_ ->]|(Hne & _)]; [|exfalso; apply Hne, Hpc, HL].
  split; [apply make_clause_propositional; assumption|].
  intros v Hv. apply make_clause_satisfied; auto.
Qed.

Lemma resolve_pairs_entailed KB0 fuel pairs : forall new st r st',
  (forall c d, In (c, d) pairs -> entailed KB0 c /\ entailed KB0 d) ->
  (forall c, In c new -> entailed KB0 c) ->
  resolve_pairs fuel pairs new st = (Ret r, st') ->
  match r with
  | None => forall v, ~ models v KB0
  | Some new' => forall c, In c new' -> entailed KB0 c
  end.
Proof.
  induction pairs as [|[c d] rest IH]; intros new st r st' Hpairs Hnew E; simpl in E.
  - injection E as <- _. exact Hnew.
  - unfold bind at 1 in E. simpl in E. unfold bind in E.
    destruct (PL_Resolve fuel c d _) as [[rs| |] st1] eqn:Er; try discriminate.
    destruct (Hpairs c d) as [Hc Hd]; [simpl; auto|].
    pose proof (PL_Resolve_entailed KB0 _ _ _ _ _ _ Hc Hd Er) as Hrs.
    destruct (mem_clause [] rs) eqn:Em.
    + injection E as <- _. apply mem_clause_In in Em.
      intros v Hv. destruct (Hrs [] Em) as [_ H]. specialize (H v Hv). discriminate.
    + eapply IH; [| |exact E].
      * intros c' d' H. apply Hpairs. simpl. auto.
      * intros c' Hc'. apply In_set_union in Hc' as [H|H]; auto.
Qed.

Lemma PL_Resolution_loop_entailed KB0 iter rounds fuel :
  iter_is_permutation iter ->
  forall KB processed st,
    (forall c, In c KB -> entailed KB0 c) ->
    fst (PL_Resolution_loop iter rounds fuel KB processed st) = Ret false ->
    forall v, ~ models v KB0.
Proof.
  intros Hperm. induction rounds as [|rounds IH]; intros KB processed st HKB E;
    [discriminate|].
  rewrite PL_Resolution_loop_S in E. unfold bind at 1 in E.
  destruct (collect_pairs iter KB processed st) as [[cp| |] st1] eqn:Ecp;
    try discriminate.
  assert (Hpairs : forall c d, In (c, d) (fst cp) -> entailed KB0 c /\ entailed KB0 d).
  { eapply collect_pairs_Forall; [|exact Ecp].
    intros c m st0 st2 Hc Em d Hd.
    apply (iter_In_iff iter KB c Hperm) in Hc.
    apply (iter_In_iff iter m d Hperm) in Hd.
    destruct (matched_of_spec _ _ _ _ _ _ Em d Hd) as [_ Hd'].
    apply (iter_In_iff iter KB d Hperm) in Hd'. auto. }
  unfold bind in E.
  destruct (resolve_pairs fuel (fst cp) [] st1) as [[r| |] st2] eqn:Er;
    try discriminate.
  pose proof (resolve_pairs_entailed KB0 _ _ _ _ _ _ Hpairs
                (fun c (H : In c []) => match H with end) Er) as Hr.
  destruct r as [new|]; [|exact Hr].
  destruct (issubset new KB); [discriminate|].
  eapply IH; [|exact E].
  intros c Hc. apply In_set_union in Hc as [H|H]; auto.
Qed.

(** X12: on a knowledge base of propositional atoms, the verdict
    unsatisfiable ([False]) is never wrong: if [PL_Resolution] returns
    [False], no truth assignment makes every clause of the knowledge base
    true. *)
Theorem PL_Resolution_unsat_sound iter rounds fuel KB st :
  iter_is_permutation iter ->
  (forall c, In c KB -> propositional c) ->
  fst (PL_Resolution iter rounds fuel KB st) = Ret false ->
  forall v, ~ models v KB.
Proof.
  intros Hperm Hprop E. eapply PL_Resolution_loop_entailed; [exact Hperm| |exact E].
  intros c Hc. split; [apply Hprop, Hc | intros v Hv; apply Hv, Hc].
Qed.

Lemma PL_Resolution_unsat_sound_witness :
  ~ models (fun _ => true) [[lit_P; lit_Q]; [lit_notP]; [lit_notQ]].
Proof.
  apply (PL_Resolution_unsat_sound (fun s => s) 3 0
           [[lit_P; lit_Q]; [lit_notP]; [lit_notQ]] (mkState [] [])).
  - intros s. apply Permutation_refl.
  - intros c [<-|[<-|[<-|[]]]] l Hl; simpl in Hl;
      repeat destruct Hl as [<-|Hl]; try reflexivity; destruct Hl.
  - vm_compute. reflexivity.
Defined.

(** * The reader of the input file *)

(** ** Strings *)

#[local] Arguments String.append !_ _ / : simpl nomatch.

Lemma append_assoc (s t u : string) : (s +:+ t) +:+ u = s +:+ (t +:+ u).
Proof. induction s as [|c s IH]; simpl; [reflexivity | rewrite IH; reflexivity]. Qed.

Lemma contains_app ch (s t : string) :
  contains ch (s +:+ t) = contains ch s || contains ch t.
Proof.
  induction s as [|c s IH]; simpl; [reflexivity|].
  rewrite IH, orb_assoc. reflexivity.
Qed.

Lemma split_on_none sep (s : string) :
  contains sep s = false -> split_on sep s = [s].
Proof.
  induction s as [|c s IH]; simpl; [reflexivity|].
  intros H. apply orb_false_iff in H as [Hc Hs].
  rewrite Hc, (IH Hs). reflexivity.
Qed.

Lemma split_on_app sep (s t : string) :
  contains sep s = false ->
  split_on sep (s +:+ String sep t) = s :: split_on sep t.
Proof.
  induction s as [|c s IH]; simpl.
  - intros _. rewrite Ascii.eqb_refl. reflexivity.
  - intros H. apply orb_false_iff in H as [Hc Hs].
    rewrite Hc, (IH Hs). reflexivity.
Qed.

Lemma split_once_none sep (s : string) :
  contains sep s = false -> split_once sep s = [s].
Proof.
  induction s as [|c s IH]; simpl; [reflexivity|].
  intros H. apply orb_false_iff in H as [Hc Hs].
  rewrite Hc, (IH Hs). reflexivity.
Qed.

Lemma split_once_app sep (s t : string) :
  contains sep s = false ->
  split_once sep (s +:+ String sep t) = [s; t].
Proof.
  induction s as [|c s IH]; simpl.
  - intros _. rewrite Ascii.eqb_refl. reflexivity.
  - intros H. apply orb_false_iff in H as [Hc Hs].
    rewrite Hc, (IH Hs). reflexivity.
Qed.

Lemma drop_last_app (s : string) c : drop_last (s +:+ String c "") = s.
Proof.
  induction s as [|c' s IH]; simpl; [reflexivity|].
  rewrite IH. destruct s; reflexivity.
Qed.

(** The last character of a string. *)
Lemma rstrip_fixed (s : string) c :
  is_space c = false -> rstrip (s +:+ String c "") = s +:+ String c "".
Proof.
  intros Hc. induction s as [|c' s IH]; simpl.
  - rewrite Hc. reflexivity.
  - rewrite IH. destruct s; reflexivity.
Qed.

Lemma lstrip_fixed (s : string) c :
  is_space c = false -> lstrip (String c s) = String c s.
Proof. intros Hc. simpl. rewrite Hc. reflexivity. Qed.

Lemma plain_app (s t : string) : plain (s +:+ t) = plain s && plain t.
Proof.
  induction s as [|c s IH]; simpl; [reflexivity|].
  rewrite IH, !andb_assoc. reflexivity.
Qed.

Lemma plain_contains (s : string) :
  plain s = true ->
  contains "(" s = false /\ contains "," s = false /\ contains " " s = false.
Proof.
  induction s as [|c s IH]; simpl; [auto|].
  rewrite !andb_true_iff, !negb_true_iff. intros [[[Hs Hp] Hc] Hr].
  destruct (IH Hr) as (H1 & H2 & H3). rewrite Hp, Hc, H1, H2, H3.
  repeat split; try reflexivity.
  destruct (Ascii.eqb c " ") eqn:E; [|reflexivity].
  apply Ascii.eqb_eq in E. subst c. discriminate.
Qed.

(** A string without white space at either end is what [strip] returns
    for it. *)
Lemma strip_fixed (s : string) :
  (forall c r, s = String c r -> is_space c = false) ->
  (forall r c, s = r +:+ String c "" -> is_space c = false) ->
  strip s = s.
Proof.
  intros Hfirst Hlast. unfold strip.
  assert (Hr : rstrip s = s).
  { destruct s as [|c0 s0]; [reflexivity|].
    assert (Hsplit : exists r c, String c0 s0 = r +:+ String c "").
    { clear. revert c0. induction s0 as [|c1 s1 IH]; intros c0.
      - exists "", c0. reflexivity.
      - destruct (IH c1) as (r & c & E). exists (String c0 r), c. simpl.
        rewrite <- E. reflexivity. }
    destruct Hsplit as (r & c & E). rewrite E. apply rstrip_fixed.
    eapply Hlast; eauto. }
  rewrite Hr. destruct s as [|c r]; [reflexivity|].
  apply lstrip_fixed. eapply Hfirst; eauto.
Qed.

Lemma plain_no_space (s : string) c r :
  plain s = true -> s = String c r -> is_space c = false.
Proof.
  intros H ->. simpl in H. rewrite !andb_true_iff, !negb_true_iff in H. tauto.
Qed.

Lemma plain_last_no_space (s : string) r c :
  plain s = true -> s = r +:+ String c "" -> is_space c = false.
Proof.
  intros H ->. rewrite plain_app in H. apply andb_true_iff in H as [_ H].
  simpl in H. rewrite !andb_true_iff, !negb_true_iff in H. tauto.
Qed.

Lemma strip_plain (s : string) : plain s = true -> strip s = s.
Proof.
  intros H. apply strip_fixed.
  - intros c r. apply plain_no_space, H.
  - intros r c. apply plain_last_no_space, H.
Qed.

Lemma nospace_app (s t : string) : nospace (s +:+ t) = nospace s && nospace t.
Proof.
  induction s as [|c s IH]; simpl; [reflexivity|].
  rewrite IH, andb_assoc. reflexivity.
Qed.

Lemma plain_nospace (s : string) : plain s = true -> nospace s = true.
Proof.
  induction s as [|c s IH]; simpl; [reflexivity|].
  rewrite !andb_true_iff. intros [[[Hs _] _] Hr]. auto.
Qed.

Lemma strip_nospace (s : string) : nospace s = true -> strip s = s.
Proof.
  intros H. apply strip_fixed.
  - intros c r ->. simpl in H. apply andb_true_iff in H as [H _].
    apply negb_true_iff, H.
  - intros r c ->. rewrite nospace_app in H. apply andb_true_iff in H as [_ H].
    simpl in H. apply andb_true_iff in H as [H _]. apply negb_true_iff, H.
Qed.

Lemma nospace_join (l : list string) :
  (forall x, In x l -> nospace x = true) -> nospace (join "," l) = true.
Proof.
  induction l as [|x r IH]; intros H; [reflexivity|].
  destruct r as [|y r]; [apply H; simpl; auto|].
  change (join "," (x :: y :: r)) with (x +:+ String "," (join "," (y :: r))).
  rewrite nospace_app, (H x) by (simpl; auto). simpl.
  apply IH. intros z Hz. apply H. simpl. auto.
Qed.

Lemma split_on_join (l : list string) :
  l <> [] -> (forall x, In x l -> contains "," x = false) ->
  split_on "," (join "," l) = l.
Proof.
  induction l as [|x r IH]; intros Hne H; [contradiction|].
  destruct r as [|y r]; [apply split_on_none, H; simpl; auto|].
  change (join "," (x :: y :: r)) with (x +:+ String "," (join "," (y :: r))).
  rewrite split_on_app by (apply H; simpl; auto).
  rewrite IH; [reflexivity | discriminate | intros z Hz; apply H; simpl; auto].
Qed.

Lemma simple_term_render (t : term) :
  simple_term t = true ->
  nospace (render_term t) = true /\ contains "," (render_term t) = false /\
  parse_arg (render_term t) = Parsed t.
Proof.
  destruct t as [a|f [|[a|] [|]]]; simpl; try discriminate.
  - intros H. destruct (plain_contains a H) as (H1 & H2 & _).
    split; [apply plain_nospace, H|]. split; [exact H2|].
    unfold parse_arg. rewrite H1. reflexivity.
  - intros H. apply andb_true_iff in H as [Hf Ha].
    destruct (plain_contains f Hf) as (F1 & F2 & _).
    destruct (plain_contains a Ha) as (A1 & A2 & _).
    change (f +:+ "(" +:+ a +:+ ")") with (f +:+ String "(" (a +:+ String ")" "")).
    split; [|split].
    + rewrite nospace_app, (plain_nospace f Hf). simpl.
      rewrite nospace_app, (plain_nospace a Ha). reflexivity.
    + rewrite contains_app, F2. simpl. rewrite contains_app, A2. reflexivity.
    + unfold parse_arg. rewrite contains_app. simpl. rewrite orb_true_r.
      replace (f +:+ String "(" (a +:+ String ")" ""))
        with ((f +:+ String "(" a) +:+ String ")" "")
        by (rewrite append_assoc; reflexivity).
      rewrite drop_last_app, (split_once_app "(" f a F1), (strip_plain a Ha),
        (split_on_none "," a A2). reflexivity.
Qed.

Lemma parse_all_rendered (args : list term) :
  forallb simple_term args = true ->
  parse_all parse_arg (map render_term args) = Parsed args.
Proof.
  induction args as [|t r IH]; simpl; [reflexivity|].
  intros H. apply andb_true_iff in H as [Ht Hr].
  destruct (simple_term_render t Ht) as (_ & _ & ->). rewrite (IH Hr). reflexivity.
Qed.

(** X13: the reader recovers a literal from its text.  For a plain
    predicate name and one or more arguments that are plain names or
    one-argument function applications, the token [P(arg,...,arg)] is read
    as the literal with predicate [P] and exactly these arguments. *)
Theorem parse_literal_rendered (P : string) (args : list term) :
  plain P = true -> args <> [] -> forallb simple_term args = true ->
  parse_literal (P +:+ "(" +:+ join "," (map render_term args) +:+ ")")
  = Parsed (mkLiteral P args).
Proof.
  intros HP Hne Hargs.
  destruct (plain_contains P HP) as (P1 & _ & _).
  set (J := join "," (map render_term args)).
  assert (Hs : forall x, In x (map render_term args) ->
                nospace x = true /\ contains "," x = false).
  { intros x Hx. apply in_map_iff in Hx as (t & <- & Ht).
    rewrite forallb_forall in Hargs.
    destruct (simple_term_render t (Hargs t Ht)) as (H1 & H2 & _). auto. }
  assert (HJ : strip J = J).
  { apply strip_nospace, nospace_join. intros x Hx. apply Hs, Hx. }
  assert (HJ' : split_on "," J = map render_term args).
  { apply split_on_join; [destruct args; [contradiction|discriminate]|].
    intros x Hx. apply Hs, Hx. }
  unfold parse_literal.
  change (P +:+ "(" +:+ J +:+ ")") with (P +:+ String "(" (J +:+ String ")" "")).
  rewrite contains_app. simpl contains. rewrite orb_true_r.
  replace (P +:+ String "(" (J +:+ String ")" ""))
    with ((P +:+ String "(" J) +:+ String ")" "")
    by (rewrite append_assoc; reflexivity).
  rewrite drop_last_app, (split_once_app "(" P J P1), HJ, HJ',
    (parse_all_rendered args Hargs). reflexivity.
Qed.

Lemma parse_literal_rendered_witness :
  parse_literal "!Likes(Alice,f(y))"
  = Parsed (mkLiteral "!Likes" [Sym "Alice"; Fn "f" [Sym "y"]]).
Proof.
  apply (parse_literal_rendered "!Likes" [Sym "Alice"; Fn "f" [Sym "y"]]).
  - reflexivity.
  - discriminate.
  - reflexivity.
Defined.

Lemma drop_last_append (s t : string) :
  t <> "" -> drop_last (s +:+ t) = s +:+ drop_last t.
Proof.
  intros Ht. induction s as [|c s IH]; simpl; [reflexivity|].
  rewrite IH. destruct (s +:+ t) eqn:E; [|reflexivity].
  destruct s, t; try discriminate. contradiction.
Qed.

Lemma plain_drop_last (s : string) : plain s = true -> plain (drop_last s) = true.
Proof.
  induction s as [|c s IH]; simpl; [reflexivity|].
  rewrite !andb_true_iff. intros [Hc Hr]. destruct s as [|c' s']; [reflexivity|].
  change (plain (String c (drop_last (String c' s'))) = true). simpl plain at 1.
  rewrite !andb_true_iff. split; [exact Hc | apply IH, Hr].
Qed.

(** X14: the reader splits the argument text at every comma, also inside
    a function application.  The token [P(f(a,b))] is not read as [P]
    applied to [f(a, b)]: it is read as [P] with the two arguments [f(a')],
    where [a'] is [a] without its last character, and the string [b)]. *)
Theorem parse_literal_two_argument_function (P f a b : string) :
  plain P = true -> plain f = true -> plain a = true -> plain b = true ->
  a <> "" ->
  parse_literal (P +:+ "(" +:+ f +:+ "(" +:+ a +:+ "," +:+ b +:+ "))")
  = Parsed (mkLiteral P [Fn f [Sym (drop_last a)]; Sym (b +:+ ")")]).
Proof.
  intros HP Hf Ha Hb Hne.
  destruct (plain_contains P HP) as (P1 & _ & _).
  destruct (plain_contains f Hf) as (F1 & F2 & _).
  destruct (plain_contains a Ha) as (A1 & A2 & _).
  destruct (plain_contains b Hb) as (B1 & B2 & _).
  set (R := (f +:+ String "(" a) +:+ String "," (b +:+ String ")" "")).
  assert (E : P +:+ "(" +:+ f +:+ "(" +:+ a +:+ "," +:+ b +:+ "))"
              = (P +:+ String "(" R) +:+ String ")" "").
  { unfold R. repeat first [rewrite append_assoc | progress simpl]. reflexivity. }
  assert (HR : strip R = R).
  { apply strip_nospace. unfold R. rewrite !nospace_app. simpl.
    rewrite nospace_app, (plain_nospace f Hf), (plain_nospace a Ha),
      (plain_nospace b Hb). reflexivity. }
  assert (HR' : split_on "," R = [f +:+ String "(" a; b +:+ String ")" ""]).
  { unfold R. rewrite split_on_app.
    - rewrite split_on_none; [reflexivity|]. rewrite contains_app, B2. reflexivity.
    - rewrite contains_app, F2. simpl. exact A2. }
  assert (Harg1 : parse_arg (f +:+ String "(" a) = Parsed (Fn f [Sym (drop_last a)])).
  { unfold parse_arg. rewrite contains_app. simpl contains. rewrite orb_true_r.
    rewrite drop_last_append by discriminate.
    replace (drop_last (String "(" a)) with (String "(" (drop_last a))
      by (destruct a; [contradiction | reflexivity]).
    rewrite (split_once_app "(" f (drop_last a) F1),
      (strip_plain _ (plain_drop_last a Ha)).
    rewrite split_on_none; [reflexivity|].
    destruct (plain_contains _ (plain_drop_last a Ha)) as (_ & H & _). exact H. }
  assert (Harg2 : parse_arg (b +:+ String ")" "") = Parsed (Sym (b +:+ ")"))).
  { unfold parse_arg. rewrite contains_app, B1. reflexivity. }
  clearbody R. rewrite E. unfold parse_literal.
  rewrite contains_app, contains_app. simpl contains. rewrite orb_true_r.
  rewrite drop_last_app, (split_once_app "(" P R P1). cbn [orb].
  rewrite HR, HR'. simpl parse_all. rewrite Harg1, Harg2. reflexivity.
Qed.

Lemma parse_literal_two_argument_function_witness :
  parse_literal "P(f(a,b))" = Parsed (mkLiteral "P" [Fn "f" [Sym ""]; Sym "b)"]).
Proof.
  apply (parse_literal_two_argument_function "P" "f" "a" "b"); try reflexivity.
  discriminate.
Defined.

(** ** Running the program on a file *)

Lemma first_round_IndexError iter rounds fuel KB st c l :
  iter_is_permutation iter ->
  In c KB -> In l c -> Predicate l = "" ->
  PL_Resolution iter (S rounds) fuel KB st = (Raise IndexError, st).
Proof.
  intros Hperm Hc Hl Hp. unfold PL_Resolution. rewrite PL_Resolution_loop_S.
  unfold bind at 1. unfold collect_pairs.
  destruct (collect_pairs_outcome iter KB (iter KB) ([], []) st)
    as [[Hn _]|[_ ->]]; [|reflexivity].
  exfalso. apply (Hn c (proj2 (iter_In_iff iter KB c Hperm) Hc) l Hl Hp).
Qed.

Lemma empty_KB_satisfiable iter rounds fuel st :
  iter_is_permutation iter ->
  PL_Resolution iter (S rounds) fuel [] st = (Ret true, st).
Proof.
  intros Hperm. unfold PL_Resolution. rewrite PL_Resolution_loop_S.
  unfold collect_pairs. rewrite (iter_nil iter Hperm). reflexivity.
Qed.

(** X15: the length of the file.  With fewer than four lines the header
    cannot be read and the program stops with [IndexError]; with the four
    header lines and at most the one line that is skipped there is no
    clause, and the program prints [yes]. *)
Theorem main_header_only iter rounds fuel (lines : list string) :
  iter_is_permutation iter ->
  (List.length lines < 4 -> main iter rounds fuel lines = Uncaught IndexError) /\
  (4 <= List.length lines <= 5 ->
   main iter (S rounds) fuel lines = Printed "yes").
Proof.
  intros Hperm. split; intros Hlen.
  - destruct lines as [|l0 [|l1 [|l2 [|l3 rest]]]]; try reflexivity.
    simpl in Hlen. lia.
  - destruct lines as [|l0 [|l1 [|l2 [|l3 [|l4 [|l5 rest]]]]]];
      simpl in Hlen; try lia;
      unfold main, read_lines; cbn [tl parse_all fold_left];
      rewrite (empty_KB_satisfiable iter rounds fuel _ Hperm); reflexivity.
Qed.

Lemma main_header_only_witness :
  main (fun s => s) 1 0
    ["Predicates: P "; "Variables: x"; "Constants: a"; "Functions: f"; ""]
  = Printed "yes".
Proof.
  apply (main_header_only (fun s => s) 0 0).
  - intros s. apply Permutation_refl.
  - simpl. lia.
Defined.

Lemma parse_all_In {A B} (f : A -> parsing B) (l : list A) ys x :
  parse_all f l = Parsed ys -> In x l -> exists y, f x = Parsed y /\ In y ys.
Proof.
  revert ys. induction l as [|a r IH]; intros ys E Hx; [destruct Hx|].
  simpl in E. destruct (f a) as [b| |] eqn:Ea; try discriminate.
  destruct (parse_all f r) as [bs| |]; try discriminate.
  injection E as <-. destruct Hx as [<-|Hx].
  - exists b. simpl. auto.
  - destruct (IH bs eq_refl Hx) as (y & Hy & Hin). exists y. simpl. auto.
Qed.

(** X16: an empty token among the clause lines (a blank line, two
    spaces in a row, a space at the start of a line) is read as a literal
    with the empty predicate name, and when the rest of the file is read
    without error the program stops with [IndexError] in the first round. *)
Theorem main_empty_token iter rounds fuel l0 l1 l2 l3 l4 clause_lines clauses line :
  iter_is_permutation iter ->
  parse_all parse_clause clause_lines = Parsed clauses ->
  In line clause_lines ->
  In EmptyString (split_on " " (rstrip line)) ->
  main iter (S rounds) fuel (l0 :: l1 :: l2 :: l3 :: l4 :: clause_lines)
  = Uncaught IndexError.
Proof.
  intros Hperm Hparse Hline Htok.
  destruct (parse_all_In _ _ _ _ Hparse Hline) as (c & Hc & Hin).
  destruct (parse_all_In _ _ _ _ Hc Htok) as (l & Hl & Hlc).
  injection Hl as <-.
  unfold main, read_lines. simpl tl. rewrite Hparse.
  change (fold_left (fun clauses c => set_add c clauses) clauses [])
    with (set_union [] clauses).
  rewrite (first_round_IndexError iter rounds fuel (set_union [] clauses) _ c
             (mkLiteral "" [Sym ""]) Hperm); [reflexivity| |exact Hlc|reflexivity].
  apply In_set_union. auto.
Qed.

Lemma main_empty_token_witness :
  main (fun s => s) 1 0
    ["Predicates: P "; "Variables: x"; "Constants: a"; "Functions: f"; "";
     "P  Q"]
  = Uncaught IndexError.
Proof.
  apply (main_empty_token (fun s => s) 0 0 _ _ _ _ _ ["P  Q"]
           [[mkLiteral "P" [Sym ""]; mkLiteral "" [Sym ""]; mkLiteral "Q" [Sym ""]]]
           "P  Q").
  - intros s. apply Permutation_refl.
  - reflexivity.
  - simpl. auto.
  - simpl. auto.
Defined.

Lemma parse_all_ValueError {A B} (f : A -> parsing B) (l : list A) x :
  (forall a, f a <> ParseIndexError) ->
  In x l -> f x = ParseValueError ->
  parse_all f l = ParseValueError.
Proof.
  intros Hf. induction l as [|a r IH]; intros Hx Ex; [destruct Hx|].
  simpl. destruct (f a) as [b| |] eqn:Ea; [|reflexivity|destruct (Hf a Ea)].
  destruct Hx as [->|Hx]; [congruence|]. rewrite (IH Hx Ex). reflexivity.
Qed.

Lemma parse_all_no_IndexError {A B} (f : A -> parsing B) (l : list A) :
  (forall a, f a <> ParseIndexError) -> parse_all f l <> ParseIndexError.
Proof.
  intros Hf. induction l as [|a r IH]; simpl; [discriminate|].
  destruct (f a) as [b| |] eqn:Ea; [|discriminate|destruct (Hf a Ea)].
  destruct (parse_all f r); [discriminate|discriminate|contradiction].
Qed.

Lemma parse_arg_no_IndexError arg : parse_arg arg <> ParseIndexError.
Proof.
  unfold parse_arg. destruct (contains "(" arg); [|discriminate].
  destruct (split_once "(" (drop_last arg)) as [|x [|y [|z r]]]; discriminate.
Qed.

Lemma parse_literal_no_IndexError literal : parse_literal literal <> ParseIndexError.
Proof.
  unfold parse_literal.
  assert (H : forall args, parse_all parse_arg args <> ParseIndexError)
    by (intros; apply parse_all_no_IndexError, parse_arg_no_IndexError).
  destruct (contains "(" literal).
  - destruct (split_once "(" (drop_last literal)) as [|x [|y [|z r]]]; try discriminate.
    specialize (H (split_on "," (strip y))).
    destruct (parse_all parse_arg _); [discriminate|discriminate|contradiction].
  - specialize (H (split_on "," (strip ""))).
    destruct (parse_all parse_arg _); [discriminate|discriminate|contradiction].
Qed.

(** X17: a token that contains a parenthesis only as its last character
    (such as [P(] ) cannot be unpacked into a name and its arguments: the
    program stops with [ValueError] before any resolution. *)
Theorem main_unclosed_parenthesis iter rounds fuel l0 l1 l2 l3 l4 clause_lines line name :
  In line clause_lines ->
  In (name +:+ "(") (split_on " " (rstrip line)) ->
  contains "(" name = false ->
  main iter rounds fuel (l0 :: l1 :: l2 :: l3 :: l4 :: clause_lines)
  = UncaughtValueError.
Proof.
  intros Hline Htok Hname.
  assert (Hlit : parse_literal (name +:+ "(") = ParseValueError).
  { unfold parse_literal. rewrite contains_app. simpl contains. rewrite orb_true_r.
    change (name +:+ "(") with (name +:+ String "(" "").
    rewrite drop_last_app, (split_once_none "(" name Hname). reflexivity. }
  assert (Hcl : parse_clause line = ParseValueError).
  { unfold parse_clause.
    eapply parse_all_ValueError; [apply parse_literal_no_IndexError| |]; eauto. }
  unfold main, read_lines. simpl tl.
  rewrite (parse_all_ValueError parse_clause clause_lines line); [reflexivity| |auto|auto].
  intros a. apply parse_all_no_IndexError, parse_literal_no_IndexError.
Qed.

Lemma main_unclosed_parenthesis_witness :
  main (fun s => s) 1 0
    ["Predicates: P "; "Variables: x"; "Constants: a"; "Functions: f"; "";
     "Q P("]
  = UncaughtValueError.
Proof.
  apply (main_unclosed_parenthesis (fun s => s) 1 0 _ _ _ _ _ ["Q P("] "Q P(" "P").
  - simpl. auto.
  - simpl. auto.
  - reflexivity.
Defined.

(** ** Atoms as the reader builds them *)

Lemma subst_arg_empty (t : term) : subst_arg ∅ t = t.
Proof. apply subst_arg_fixed. intros s _. apply lookup_empty. Qed.

Lemma substitute_all_empty (c : Clause) : substitute_all (TDict ∅) c = Ret c.
Proof.
  induction c as [|[p args] r IH]; simpl; [reflexivity|].
  rewrite IH. do 3 f_equal. rewrite <- (map_id args) at 2.
  apply map_ext. intros t. apply subst_arg_empty.
Qed.

Lemma resolve_literals_atoms fuel A B L compliment rs M st :
  Arguments L = [Sym ""] -> Arguments M = [Sym ""] ->
  resolve_literals (S fuel) A B L compliment rs M st =
  (Ret (if String.eqb compliment (Predicate M)
        then set_add (make_clause L M A B) rs else rs), st).
Proof.
  intros HL HM. unfold resolve_literals. rewrite HL, HM.
  destruct (String.eqb compliment (Predicate M)); [|reflexivity].
  unfold bind at 1.
  change (unify (S fuel) (VL [Sym ""]) (VL [Sym ""]) (TDict ∅) st)
    with (Ret (TDict ∅), st).
  unfold bind, lift. rewrite substitute_all_empty. reflexivity.
Qed.

(** X18: a token without parentheses is read as a literal with ONE
    argument, the empty string, so clauses read from a propositional file
    go through the unifier.  With fuel for that one call, [PL_Resolve] on
    such clauses still raises nothing, leaves [VARIABLES] untouched and
    returns exactly the tuples [make_clause L M] of the complementary
    pairs. *)
Theorem PL_Resolve_atoms fuel clause_one clause_two st :
  (forall token, contains "(" token = false ->
     parse_literal token = Parsed (mkLiteral (strip token) [Sym ""])) /\
  (atom_clause clause_one -> atom_clause clause_two -> named clause_one ->
   exists resolvents,
     PL_Resolve (S fuel) clause_one clause_two st = (Ret resolvents, st) /\
     forall r, In r resolvents <->
       exists L M, In L clause_one /\ In M clause_two /\
         compliment_of (Predicate L) = Ret (Predicate M) /\
         r = make_clause L M clause_one clause_two).
Proof.
  split.
  { intros token H. unfold parse_literal. rewrite H. reflexivity. }
  intros HA HB Hn.
  assert (Hret : exists rs, PL_Resolve (S fuel) clause_one clause_two st = (Ret rs, st)).
  { unfold PL_Resolve. apply foldM_pure.
    intros acc L st0 HL. unfold bind at 1. unfold lift at 1.
    destruct (compliment_of_named _ (Hn L HL)) as [q ->].
    apply foldM_pure. intros acc' M st1 HM.
    rewrite (resolve_literals_atoms _ _ _ _ _ _ _ _ (HA L HL) (HB M HM)). eauto. }
  destruct Hret as [rs E]. exists rs. split; [exact E|]. intros r. split.
  - intros Hr. destruct (PL_Resolve_members _ _ _ _ _ _ E r Hr)
      as (L & M & HL & HM & Hc & Hvia).
    exists L, M. repeat split; auto.
    destruct Hvia as [[[H|H] _]|(_ & _ & st1 & st2 & theta & Eu & _ & Es)].
    + rewrite (HA L HL) in H. discriminate.
    + rewrite (HB M HM) in H. discriminate.
    + rewrite (HA L HL), (HB M HM) in Eu.
      change (unify (S fuel) (VL [Sym ""]) (VL [Sym ""]) (TDict ∅) st1)
        with (Ret (TDict ∅), st1) in Eu.
      injection Eu as <- _. rewrite substitute_all_empty in Es.
      injection Es as <-. reflexivity.
  - intros (L & M & HL & HM & Hc & ->).
    unfold PL_Resolve in E.
    apply foldM_grows in E as [_ Hstep].
    2:{ intros acc x st0 b st1. unfold bind at 1. unfold lift at 1.
        destruct (compliment_of (Predicate x)); try discriminate.
        intros E'. apply (PL_Resolve_inner_grows _ _ _ _ _ _ _ _ _ E'). }
    destruct (Hstep L HL) as (acc1 & st1 & b1 & st2 & E1 & Hb1).
    unfold bind at 1 in E1. unfold lift at 1 in E1. rewrite Hc in E1.
    apply PL_Resolve_inner_grows in E1 as [_ Hin].
    destruct (Hin M HM) as (acc2 & st3 & b2 & st4 & E2 & Hb2).
    rewrite (resolve_literals_atoms _ _ _ _ _ _ _ _ (HA L HL) (HB M HM)) in E2.
    rewrite String.eqb_refl in E2. injection E2 as <- _.
    apply Hb1, Hb2, In_set_add. auto.
Qed.

Lemma PL_Resolve_atoms_witness :
  exists resolvents,
    PL_Resolve 1 [mkLiteral "P" [Sym ""]] [mkLiteral "!P" [Sym ""]] st_XY
      = (Ret resolvents, st_XY) /\
    forall r, In r resolvents <->
      exists L M, In L [mkLiteral "P" [Sym ""]] /\ In M [mkLiteral "!P" [Sym ""]] /\
        compliment_of (Predicate L) = Ret (Predicate M) /\
        r = make_clause L M [mkLiteral "P" [Sym ""]] [mkLiteral "!P" [Sym ""]].
Proof.
  apply (proj2 (PL_Resolve_atoms 0 [mkLiteral "P" [Sym ""]]
                  [mkLiteral "!P" [Sym ""]] st_XY)).
  - intros l [<-|[]]. reflexivity.
  - intros l [<-|[]]. reflexivity.
  - intros l [<-|[]]. discriminate.
Defined.

(** ** [Literal.__str__] against the reader *)

Lemma str_arguments_syms (args : list string) :
  str_arguments (map Sym args) = Ret args.
Proof. induction args as [|a r IH]; simpl; [reflexivity | rewrite IH; reflexivity]. Qed.

Lemma str_arguments_cases (args : list term) :
  (exists l, str_arguments args = Ret l /\ args = map Sym l) \/
  (str_arguments args = Raise TypeError /\ exists f a, In (Fn f a) args).
Proof.
  induction args as [|[s|f a] r IH]; simpl.
  - left. exists []. auto.
  - destruct IH as [(l & -> & ->)|(-> & f & a & H)].
    + left. exists (s :: l). auto.
    + right. split; [reflexivity|]. eauto.
  - right. split; [reflexivity|]. eauto.
Qed.

Lemma last_char_snoc (r : string) c : last_char (r +:+ String c "") = Some c.
Proof.
  induction r as [|c' r IH]; simpl; [reflexivity|].
  rewrite IH. destruct (r +:+ String c "") eqn:E; [|reflexivity].
  destruct r; discriminate.
Qed.

Lemma last_char_app (s t : string) : t <> "" -> last_char (s +:+ t) = last_char t.
Proof.
  intros Ht. induction s as [|c s IH]; simpl; [reflexivity|].
  rewrite IH. destruct (s +:+ t) eqn:E; [|reflexivity].
  destruct s, t; try discriminate. contradiction.
Qed.

Lemma plain_last_char (s : string) c :
  plain s = true -> last_char s = Some c -> is_space c = false.
Proof.
  induction s as [|c' s IH]; simpl; [discriminate|].
  rewrite !andb_true_iff, !negb_true_iff. intros [[[Hs _] _] Hr].
  destruct s as [|c'' s']; [intros H; injection H as <-; exact Hs | apply IH, Hr].
Qed.

Lemma join_not_empty sep (x : string) r : x <> "" -> join sep (x :: r) <> "".
Proof.
  intros Hx. destruct r as [|y r]; [exact Hx|].
  change (join sep (x :: y :: r)) with (x +:+ sep +:+ join sep (y :: r)).
  destruct x; [contradiction | discriminate].
Qed.

Lemma join_comma_space_last (args : list string) c :
  (forall x, In x args -> plain x = true /\ x <> "") ->
  last_char (join ", " args) = Some c -> is_space c = false.
Proof.
  induction args as [|x r IH]; intros H; [discriminate|].
  destruct r as [|y r].
  - apply plain_last_char, H. simpl. auto.
  - change (join ", " (x :: y :: r))
      with (x +:+ String "," (String " " (join ", " (y :: r)))).
    rewrite last_char_app by discriminate.
    assert (Hy : join ", " (y :: r) <> "")
      by (apply join_not_empty, H; simpl; auto).
    change (String "," (String " " (join ", " (y :: r))))
      with (", " +:+ join ", " (y :: r)).
    rewrite last_char_app by exact Hy.
    apply IH. intros z Hz. apply H. simpl. auto.
Qed.

Lemma split_on_comma_space (rest : list string) :
  rest <> [] -> (forall x, In x rest -> contains "," x = false) ->
  split_on "," (String " " (join ", " rest)) = map (String " ") rest.
Proof.
  induction rest as [|y r IH]; intros Hne H; [contradiction|].
  destruct r as [|z r].
  - simpl join. apply split_on_none. simpl. apply H. simpl. auto.
  - change (String " " (join ", " (y :: z :: r)))
      with (String " " y +:+ String "," (String " " (join ", " (z :: r)))).
    rewrite split_on_app by (simpl; apply H; simpl; auto).
    rewrite IH; [reflexivity | discriminate | intros x Hx; apply H; simpl; auto].
Qed.

Lemma parse_all_plain_args (l : list string) :
  (forall x, In x l -> contains "(" x = false) ->
  parse_all parse_arg l = Parsed (map Sym l).
Proof.
  induction l as [|x r IH]; intros H; simpl; [reflexivity|].
  unfold parse_arg at 1. rewrite (H x) by (simpl; auto).
  rewrite IH by (intros y Hy; apply H; simpl; auto). reflexivity.
Qed.

Lemma parse_all_map {A B} (f : A -> parsing B) (g : A -> B) (l : list A) :
  (forall x, In x l -> f x = Parsed (g x)) -> parse_all f l = Parsed (map g l).
Proof.
  induction l as [|x r IH]; intros H; simpl; [reflexivity|].
  rewrite (H x) by (simpl; auto).
  rewrite IH by (intros y Hy; apply H; simpl; auto). reflexivity.
Qed.

Lemma later_tokens_In (rest : list string) token :
  In token (later_tokens rest) ->
  exists a, In a rest /\ (token = a +:+ ")" \/ token = a +:+ ",").
Proof.
  induction rest as [|a r IH]; [intros []|].
  destruct r as [|b r].
  - intros [<-|[]]. exists a. simpl. auto.
  - intros [<-|H]; [exists a; simpl; auto|].
    destruct (IH H) as (a' & Ha' & E). exists a'. split; [right; exact Ha' | exact E].
Qed.

(** The text of a literal, split at its spaces. *)
Lemma split_on_space_join (rest : list string) :
  forall pre y,
    contains " " pre = false ->
    (forall a, In a (y :: rest) -> contains " " a = false) ->
    split_on " " (pre +:+ join ", " (y :: rest) +:+ ")")
    = (pre +:+ y +:+ match rest with [] => ")" | _ => "," end) :: later_tokens rest.
Proof.
  induction rest as [|z r IH]; intros pre y Hpre H.
  - simpl join. apply split_on_none.
    rewrite !contains_app, Hpre, (H y) by (simpl; auto). reflexivity.
  - change (join ", " (y :: z :: r))
      with (y +:+ String "," (String " " (join ", " (z :: r)))).
    replace (pre +:+ (y +:+ String "," (String " " (join ", " (z :: r)))) +:+ ")")
      with ((pre +:+ y +:+ ",") +:+ String " " ("" +:+ join ", " (z :: r) +:+ ")")).
    2:{ rewrite ?append_assoc. simpl. rewrite ?append_assoc. reflexivity. }
    rewrite split_on_app.
    2:{ rewrite !contains_app, Hpre, (H y) by (simpl; auto). reflexivity. }
    rewrite (IH "" z) by (auto; intros a Ha; apply H; simpl; auto).
    destruct r; reflexivity.
Qed.

(** X19: [str] of a literal and the reader.  [str] raises [TypeError]
    exactly when an argument is a function application.  For a plain
    predicate name and plain names as arguments it returns
    [P(a1, a2, ..., an)], with a comma and a space between arguments.  The
    reader splits a clause line at its spaces before it looks at a token,
    so it reads that text as several literals: [P(a1)], then one literal
    without arguments for each later argument, named [a2,] and so on and,
    last, [an)].  The line is read back as the literal it was written from
    exactly when the literal has one argument. *)
Theorem Literal_str_read_back :
  (forall l, Literal_str l = Raise TypeError <->
             exists f a, In (Fn f a) (Arguments l)) /\
  (forall P x rest,
     plain P = true ->
     (forall a, In a (x :: rest) -> plain a = true) ->
     Literal_str (mkLiteral P (map Sym (x :: rest)))
       = Ret (P +:+ "(" +:+ join ", " (x :: rest) +:+ ")") /\
     parse_clause (P +:+ "(" +:+ join ", " (x :: rest) +:+ ")")
       = Parsed (mkLiteral P [Sym x]
                 :: map (fun token => mkLiteral token [Sym ""]) (later_tokens rest)) /\
     (parse_clause (P +:+ "(" +:+ join ", " (x :: rest) +:+ ")")
        = Parsed [mkLiteral P (map Sym (x :: rest))] <-> rest = [])).
Proof.
  split.
  { intros l. unfold Literal_str.
    destruct (str_arguments_cases (Arguments l)) as [(strs & -> & E)|(-> & H)].
    - split; [discriminate|]. intros (f & a & H). rewrite E in H.
      apply in_map_iff in H as (s & Hs & _). discriminate.
    - split; auto. }
  intros P x rest HP Hargs. split.
  { unfold Literal_str. cbn [Arguments Predicate].
    rewrite (str_arguments_syms (x :: rest)). reflexivity. }
  destruct (plain_contains P HP) as (P1 & _ & P3).
  assert (Hc : forall a, In a (x :: rest) ->
                 contains "(" a = false /\ contains "," a = false /\
                 contains " " a = false).
  { intros a Ha. apply plain_contains, Hargs, Ha. }
  assert (E : parse_clause (P +:+ "(" +:+ join ", " (x :: rest) +:+ ")")
              = Parsed (mkLiteral P [Sym x]
                  :: map (fun token => mkLiteral token [Sym ""]) (later_tokens rest))).
  { unfold parse_clause.
    replace (P +:+ "(" +:+ join ", " (x :: rest) +:+ ")")
      with ((P +:+ "(" +:+ join ", " (x :: rest)) +:+ String ")" "")
      by (rewrite !append_assoc; reflexivity).
    rewrite rstrip_fixed by reflexivity.
    replace ((P +:+ "(" +:+ join ", " (x :: rest)) +:+ String ")" "")
      with ((P +:+ "(") +:+ join ", " (x :: rest) +:+ ")")
      by (rewrite !append_assoc; reflexivity).
    rewrite split_on_space_join.
    2:{ rewrite contains_app, P3. reflexivity. }
    2:{ intros a Ha. apply Hc, Ha. }
    cbn [parse_all].
    assert (E1 : forall c, contains "(" (String c "") = false ->
               parse_literal ((P +:+ "(") +:+ x +:+ String c "")
               = Parsed (mkLiteral P [Sym x])).
    { intros c Hcc. unfold parse_literal.
      replace ((P +:+ "(") +:+ x +:+ String c "")
        with ((P +:+ String "(" x) +:+ String c "")
        by (rewrite !append_assoc; reflexivity).
      rewrite contains_app, contains_app. simpl contains at 2.
      rewrite orb_true_r. cbn [orb].
      rewrite drop_last_app, (split_once_app "(" P x P1).
      rewrite (strip_plain x) by (apply Hargs; simpl; auto).
      rewrite (split_on_none "," x) by (apply Hc; simpl; auto).
      simpl parse_all. unfold parse_arg.
      rewrite (proj1 (Hc x (or_introl eq_refl))). reflexivity. }
    assert (E2 : parse_literal
               ((P +:+ "(") +:+ x +:+ match rest with [] => ")" | _ => "," end)
               = Parsed (mkLiteral P [Sym x])).
    { destruct rest; apply E1; reflexivity. }
    rewrite E2.
    rewrite (parse_all_map parse_literal (fun token => mkLiteral token [Sym ""]));
      [reflexivity|].
    intros token Ht. apply later_tokens_In in Ht as (a & Ha & Et).
    assert (Hp : plain a = true) by (apply Hargs; simpl; auto).
    destruct (plain_contains a Hp) as (A1 & _ & _).
    assert (Hn : contains "(" token = false /\ nospace token = true).
    { destruct Et as [->| ->]; rewrite contains_app, nospace_app, A1,
        (plain_nospace a Hp); split; reflexivity. }
    destruct Hn as [Hn1 Hn2]. unfold parse_literal. rewrite Hn1.
    rewrite (strip_nospace token Hn2). reflexivity. }
  split; [exact E|]. rewrite E. split.
  - intros H. injection H as H. destruct rest as [|a r]; [reflexivity|].
    destruct r; discriminate.
  - intros ->. reflexivity.
Qed.

Lemma Literal_str_read_back_witness :
  Literal_str (mkLiteral "Likes" [Sym "Alice"; Sym "Cake"]) = Ret "Likes(Alice, Cake)" /\
  parse_clause "Likes(Alice, Cake)"
    = Parsed [mkLiteral "Likes" [Sym "Alice"]; mkLiteral "Cake)" [Sym ""]] /\
  (parse_clause "Likes(Alice, Cake)"
     = Parsed [mkLiteral "Likes" [Sym "Alice"; Sym "Cake"]] <-> ["Cake"] = []).
Proof.
  apply (proj2 Literal_str_read_back "Likes" "Alice" ["Cake"]).
  - reflexivity.
  - intros a [<-|[<-|[]]]; reflexivity.
Defined.

(** * [unify] on terms without variables *)

Lemma ground_in_VARIABLES V v : ground V v -> in_VARIABLES v V = None.
Proof.
  intros H. destruct v as [[s|p l]|l]; try reflexivity. simpl.
  rewrite mem_string_false; [reflexivity|]. apply H. simpl. auto.
Qed.

Lemma ground_Fn V p l :
  ground V (VT (Fn p l)) -> ground V (VT (Sym p)) /\ ground V (VL l).
Proof.
  unfold ground. simpl. intros H. split.
  - intros n [<-|[]]. apply H, in_or_app. right. simpl. auto.
  - intros n Hn. apply H. apply in_app_or in Hn as [Hn|Hn];
      apply in_or_app; [left | right; simpl; right]; exact Hn.
Qed.

Lemma ground_cons V x l :
  ground V (VL (x :: l)) -> ground V (VT x) /\ ground V (VL l).
Proof.
  unfold ground. simpl. intros H. split; intros n Hn; apply H;
    apply in_app_or in Hn as [Hn|Hn]; apply in_or_app;
    [left|right|left|right]; apply in_or_app; auto.
Qed.

(** X20: on terms in which nothing is a variable, [unify] is a test of
    equality: when it returns a substitution, the two terms (or argument
    lists) are structurally equal, the substitution is the one it was
    given, and [VARIABLES] is unchanged. *)
Theorem unify_ground fuel : forall x y d st d1 st',
  ground (VARIABLES st) x -> ground (VARIABLES st) y ->
  unify fuel x y (TDict d) st = (Ret (TDict d1), st') ->
  x = y /\ d1 = d /\ st' = st.
Proof.
  induction fuel as [|fuel IH]; intros x y d st d1 st' Hx Hy E; [discriminate|].
  rewrite unify_S in E. destruct (pyval_eqb x y) eqn:Exy.
  { apply pyval_eqb_eq in Exy. injection E as <- <-. auto. }
  exfalso. unfold bind at 1 in E. unfold get_VARIABLES in E.
  rewrite (ground_in_VARIABLES _ _ Hx), (ground_in_VARIABLES _ _ Hy) in E.
  assert (Hne : x <> y).
  { intros H. apply pyval_eqb_eq in H. congruence. }
  destruct x as [[s|p l]|l], y as [[s'|p' l']|l']; try discriminate.
  - unfold bind in E.
    destruct (unify fuel (VT (Sym p)) (VT (Sym p')) (TDict d) st)
      as [[r| |] st1] eqn:E1; try discriminate.
    destruct (unify_returns_dict _ _ _ _ _ _ _ E) as [dm ->].
    destruct (ground_Fn _ _ _ Hx) as [Hp Hl], (ground_Fn _ _ _ Hy) as [Hp' Hl'].
    destruct (IH _ _ _ _ _ _ Hp Hp' E1) as (Ep & -> & ->).
    destruct (IH _ _ _ _ _ _ Hl Hl' E) as (El & _ & _).
    injection Ep as ->. injection El as ->. contradiction.
  - destruct l as [|x0 xs], l' as [|y0 ys]; try discriminate.
    unfold bind in E.
    destruct (unify fuel (VL xs) (VL ys) (TDict d) st) as [[r| |] st1] eqn:E1;
      try discriminate.
    destruct (unify_returns_dict _ _ _ _ _ _ _ E) as [dm ->].
    destruct (ground_cons _ _ _ Hx) as [Hx0 Hxs], (ground_cons _ _ _ Hy) as [Hy0 Hys].
    destruct (IH _ _ _ _ _ _ Hxs Hys E1) as (Et & -> & ->).
    destruct (IH _ _ _ _ _ _ Hx0 Hy0 E) as (Eh & _ & _).
    injection Et as ->. injection Eh as ->. contradiction.
Qed.

Lemma unify_ground_witness :
  VT (Fn "f" [Sym "a"; Sym "b"]) = VT (Fn "f" [Sym "a"; Sym "b"]) /\
  (∅ : gmap string term) = ∅ /\ st_XY = st_XY.
Proof.
  apply (unify_ground 3 (VT (Fn "f" [Sym "a"; Sym "b"])) (VT (Fn "f" [Sym "a"; Sym "b"]))
           ∅ st_XY ∅ st_XY).
  - intros n Hn Hv. simpl in Hn, Hv.
    repeat destruct Hn as [<-|Hn]; try destruct Hn;
      repeat destruct Hv as [Hv|Hv]; try discriminate; destruct Hv.
  - intros n Hn Hv. simpl in Hn, Hv.
    repeat destruct Hn as [<-|Hn]; try destruct Hn;
      repeat destruct Hv as [Hv|Hv]; try discriminate; destruct Hv.
  - vm_compute. reflexivity.
Defined.

(** * Contradicting unit clauses *)

Lemma compliment_of_neq p q : compliment_of p = Ret q -> q <> p.
Proof.
  destruct p as [|c rest]; [discriminate|]. simpl.
  destruct (Ascii.eqb c "!"); intros E; injection E as <-; intros H;
    apply (f_equal String.length) in H; simpl in H; lia.
Qed.

(** Within a round that starts with an empty [processed], every processed
    pair is a candidate in one of its two orders. *)
Lemma collect_matches_covers iter c (m : list Clause) : forall acc,
  (forall p, In p (snd acc) -> In p (fst acc) \/ In (swap p) (fst acc)) ->
  (forall p, In p (snd (collect_matches iter c acc m)) ->
     In p (fst (collect_matches iter c acc m)) \/
     In (swap p) (fst (collect_matches iter c acc m))) /\
  incl (fst acc) (fst (collect_matches iter c acc m)) /\
  (forall d, In d (iter m) ->
     In (c, d) (fst (collect_matches iter c acc m)) \/
     In (d, c) (fst (collect_matches iter c acc m))).
Proof.
  unfold collect_matches. induction (iter m) as [|d r IH]; intros acc J; simpl.
  - split; [exact J|]. split; [apply incl_refl | intros d []].
  - set (acc1 := if negb (mem_pair (c, d) (snd acc)) && negb (mem_pair (d, c) (snd acc))
                 then (fst acc ++ [(c, d)],
                       add_pair (d, c) (add_pair (c, d) (snd acc)))
                 else acc).
    assert (H1 : (forall p, In p (snd acc1) -> In p (fst acc1) \/ In (swap p) (fst acc1))
                 /\ incl (fst acc) (fst acc1)
                 /\ (In (c, d) (fst acc1) \/ In (d, c) (fst acc1))).
    { unfold acc1.
      destruct (mem_pair (c, d) (snd acc)) eqn:E1; simpl.
      { apply mem_pair_In in E1. split; [exact J|]. split; [apply incl_refl|].
        destruct (J _ E1); auto. }
      destruct (mem_pair (d, c) (snd acc)) eqn:E2; simpl.
      { apply mem_pair_In in E2. split; [exact J|]. split; [apply incl_refl|].
        destruct (J _ E2); auto. }
      split; [|split].
      - intros p Hp. apply In_add_pair in Hp as [->|Hp].
        + right. apply in_or_app. right. simpl. auto.
        + apply In_add_pair in Hp as [->|Hp].
          * left. apply in_or_app. right. simpl. auto.
          * destruct (J p Hp); [left|right]; apply in_or_app; auto.
      - apply incl_appl, incl_refl.
      - left. apply in_or_app. right. simpl. auto. }
    destruct H1 as (J1 & I1 & C1). destruct (IH acc1 J1) as (J2 & I2 & C2).
    split; [exact J2|]. split; [eapply incl_tran; eauto|].
    intros d' [<-|Hd']; [|apply C2, Hd'].
    destruct C1 as [C1|C1]; [left|right]; apply I2, C1.
Qed.

Lemma collect_pairs_covers iter KB (s : list Clause) : forall acc st cp st',
  (forall p, In p (snd acc) -> In p (fst acc) \/ In (swap p) (fst acc)) ->
  foldM (fun acc clause =>
           do matched <- matched_of iter KB clause;
           ret (collect_matches iter clause acc matched)) s acc st = (Ret cp, st') ->
  (forall p, In p (snd cp) -> In p (fst cp) \/ In (swap p) (fst cp)) /\
  incl (fst acc) (fst cp) /\
  (forall c, In c s -> exists m st0 st1,
     matched_of iter KB c st0 = (Ret m, st1) /\
     forall d, In d (iter m) -> In (c, d) (fst cp) \/ In (d, c) (fst cp)).
Proof.
  induction s as [|c r IH]; intros acc st cp st' J E; simpl in E.
  - injection E as <- _. split; [exact J|]. split; [apply incl_refl | intros c []].
  - unfold bind at 1 in E. unfold bind at 1 in E.
    destruct (matched_of iter KB c st) as [[m| |] st1] eqn:Em; try discriminate.
    unfold ret at 1 in E.
    destruct (collect_matches_covers iter c m acc J) as (J1 & I1 & C1).
    destruct (IH _ _ _ _ J1 E) as (J2 & I2 & C2).
    split; [exact J2|]. split; [eapply incl_tran; eauto|].
    intros c' [<-|Hc']; [|apply C2, Hc'].
    exists m, st, st1. split; [exact Em|].
    intros d Hd. destruct (C1 d Hd) as [H|H]; [left|right]; apply I2, H.
Qed.

Lemma resolve_pairs_finds_empty fuel pairs : forall new st,
  (forall a b, In (a, b) pairs -> propositional a /\ named a) ->
  (exists a b L M, In (a, b) pairs /\ In L a /\ In M b /\
     compliment_of (Predicate L) = Ret (Predicate M) /\ make_clause L M a b = []) ->
  fst (resolve_pairs fuel pairs new st) = Ret None.
Proof.
  induction pairs as [|[a0 b0] rest IH]; intros new st Hprop Hex.
  - destruct Hex as (a & b & L & M & [] & _).
  - simpl. unfold bind at 1. simpl. unfold bind.
    destruct (Hprop a0 b0) as [Hp Hn]; [simpl; auto|].
    destruct (PL_Resolve_propositional_returns fuel a0 b0
                (mkState (VARIABLES st) (resolved st ++ [(a0, b0)])) Hp Hn) as [rs Er].
    rewrite Er. destruct (mem_clause [] rs) eqn:Em; [reflexivity|].
    apply IH; [intros a b H; apply (Hprop a b); simpl; auto|].
    destruct Hex as (a & b & L & M & [H|H] & HL & HM & Hc & Hmc); [|eauto 10].
    injection H as -> ->. exfalso.
    assert (Hin : In [] rs).
    { rewrite <- Hmc. eapply PL_Resolve_contains; eauto. }
    apply mem_clause_In in Hin. congruence.
Qed.

(** The candidate pairs come from the last literal of their first clause. *)
Lemma collect_pairs_last_literal iter KB processed st cp st' :
  iter_is_permutation iter ->
  collect_pairs iter KB processed st = (Ret cp, st') ->
  forall c d, In (c, d) (fst cp) ->
    In c KB /\
    exists front l0 l, c = front ++ [l0] /\ In l d /\
      compliment_of (Predicate l0) = Ret (Predicate l).
Proof.
  intros Hperm. apply collect_pairs_Forall.
  intros c m st0 st1 Hc Em d Hd.
  apply (iter_In_iff iter KB c Hperm) in Hc.
  apply (iter_In_iff iter m d Hperm) in Hd.
  unfold matched_of in Em.
  destruct (matched_fold_last _ _ _ _ _ _ _ _ Em)
    as [[_ ->]|(front & l0 & q & Hfront & Hq & ->)]; [destruct Hd|].
  apply get_pairs_iff in Hd as (_ & _ & l & Hl & <-).
  split; [exact Hc|]. exists front, l0, l. auto.
Qed.

(** X21: two unit clauses that contradict each other are found at once.
    If every literal of the knowledge base is a propositional atom with a
    non-empty name and the knowledge base contains the unit clauses [{L}] and
    [{M}] with [M] the complement of [L], the first round derives the empty
    clause and the verdict is unsatisfiable ([False]). *)
Theorem unit_contradiction_found iter rounds fuel KB st L M :
  iter_is_permutation iter ->
  (forall c, In c KB -> propositional c /\ named c) ->
  In [L] KB -> In [M] KB ->
  compliment_of (Predicate L) = Ret (Predicate M) ->
  fst (PL_Resolution iter (S rounds) fuel KB st) = Ret false.
Proof.
  intros Hperm HKB HL HM Hc.
  unfold PL_Resolution. rewrite PL_Resolution_loop_S. unfold bind at 1.
  destruct (collect_pairs_outcome iter KB (iter KB) ([], []) st)
    as [[_ [cp Ecp]]|[(c & Hin & Hn) _]].
  2:{ exfalso. apply Hn, HKB, (iter_In_iff iter KB c Hperm), Hin. }
  assert (Ecp' : collect_pairs iter KB [] st = (Ret cp, st)) by exact Ecp.
  rewrite Ecp'. unfold bind.
  assert (Hfind : fst (resolve_pairs fuel (fst cp) [] st) = Ret None).
  { apply resolve_pairs_finds_empty.
    - intros a b Hab.
      destruct (collect_pairs_last_literal _ _ _ _ _ _ Hperm Ecp' a b Hab) as [Ha _].
      apply (HKB a Ha).
    - destruct (collect_pairs_covers iter KB (iter KB) ([], []) st cp st
                  (fun p (H : In p []) => match H with end) Ecp) as (_ & _ & Hcov).
      destruct (Hcov [L] (proj2 (iter_In_iff iter KB [L] Hperm) HL))
        as (m & st0 & st1 & Em & Hm).
      unfold matched_of in Em. simpl in Em. unfold bind, lift, ret in Em.
      rewrite Hc in Em. injection Em as <- _.
      assert (Hd : In [M] (iter (get_pairs iter [L] (Predicate M) KB))).
      { apply (iter_In_iff iter _ _ Hperm), get_pairs_iff.
        split; [apply (iter_In_iff iter KB _ Hperm), HM|]. split.
        - intros H. injection H as H. apply (compliment_of_neq _ _ Hc).
          rewrite H. reflexivity.
        - exists M. simpl. auto. }
      destruct (Hm [M] Hd) as [H|H].
      + exists [L], [M], L, M. repeat split; simpl; auto.
        unfold make_clause. simpl.
        rewrite (proj2 (Literal_eqb_eq L L) eq_refl), (proj2 (Literal_eqb_eq M M) eq_refl).
        reflexivity.
      + destruct (collect_pairs_last_literal _ _ _ _ _ _ Hperm Ecp' _ _ H)
          as (_ & front & l0 & l & Hfront & Hl & Hcl).
        destruct front as [|x [|y front]]; try discriminate.
        injection Hfront as <-. destruct Hl as [<-|[]].
        exists [M], [L], M, L. repeat split; simpl; auto.
        unfold make_clause. simpl.
        rewrite (proj2 (Literal_eqb_eq L L) eq_refl), (proj2 (Literal_eqb_eq M M) eq_refl).
        reflexivity. }
  destruct (resolve_pairs fuel (fst cp) [] st) as [[[new|]| |] st2];
    simpl in Hfind; try discriminate. reflexivity.
Qed.

Lemma unit_contradiction_found_witness :
  fst (PL_Resolution (fun s => s) 1 0 [[lit_P; lit_Q]; [lit_notQ]; [lit_Q]] (mkState [] []))
  = Ret false.
Proof.
  apply (unit_contradiction_found (fun s => s) 0 0 _ _ lit_Q lit_notQ).
  - intros s. apply Permutation_refl.
  - intros c [<-|[<-|[<-|[]]]]; split; intros l Hl; simpl in Hl;
      repeat destruct Hl as [<-|Hl]; try reflexivity; try discriminate; destruct Hl.
  - simpl. auto.
  - simpl. auto.
  - reflexivity.
Defined.

(** * The header of the file *)

Lemma split_on_join_sep sep (l : list string) :
  l <> [] -> (forall x, In x l -> contains sep x = false) ->
  split_on sep (join (String sep "") l) = l.
Proof.
  induction l as [|x r IH]; intros Hne H; [contradiction|].
  destruct r as [|y r]; [apply split_on_none, H; simpl; auto|].
  change (join (String sep "") (x :: y :: r))
    with (x +:+ String sep (join (String sep "") (y :: r))).
  rewrite split_on_app by (apply H; simpl; auto).
  rewrite IH; [reflexivity | discriminate | intros z Hz; apply H; simpl; auto].
Qed.

Lemma header_line_names label names :
  contains " " label = false ->
  names <> [] -> (forall n, In n names -> contains " " n = false) ->
  tl (split_on " " (header_line label names)) = names.
Proof.
  intros Hl Hne Hn. unfold header_line.
  change (label +:+ " " +:+ join " " names)
    with (label +:+ String " " (join (String " " "") names)).
  rewrite split_on_app by exact Hl. simpl. apply split_on_join_sep; assumption.
Qed.

(** X22: the header.  From four header lines, each a label followed by
    one or more names separated by single spaces, the reader sets
    [VARIABLES], [CONSTANTS] and [FUNCTIONS] to the names of their lines,
    and [PREDICATES] to the names of the first line WITHOUT the last one
    (the slice [[1:-1]] expects a space at the end of that line). *)
Theorem read_lines_header lp lv lc lf (P V C F : list string) :
  contains " " lp = false -> contains " " lv = false ->
  contains " " lc = false -> contains " " lf = false ->
  P <> [] -> V <> [] -> C <> [] -> F <> [] ->
  (forall n, In n (P ++ V ++ C ++ F) -> contains " " n = false) ->
  read_lines [header_line lp P; header_line lv V; header_line lc C; header_line lf F]
  = Parsed (mkGlobals (removelast P) V C F, []).
Proof.
  intros Hlp Hlv Hlc Hlf HP HV HC HF Hn. unfold read_lines. simpl tl at 1.
  cbn [parse_all fold_left].
  rewrite !header_line_names; auto; intros n Hin; apply Hn;
    repeat (apply in_or_app; auto; right); auto.
Qed.

Lemma read_lines_header_witness :
  read_lines ["Predicates: P Q"; "Variables: x y"; "Constants: a"; "Functions: f"]
  = Parsed (mkGlobals ["P"] ["x"; "y"] ["a"] ["f"], []).
Proof.
  apply (read_lines_header "Predicates:" "Variables:" "Constants:" "Functions:"
           ["P"; "Q"] ["x"; "y"] ["a"] ["f"]); try reflexivity; try discriminate.
  intros n Hn. simpl in Hn. repeat destruct Hn as [<-|Hn]; try reflexivity. destruct Hn.
Defined.

(** * A propositional knowledge base on which the engine never stops *)

Lemma In_clause_Qs_P k l : In l (clause_Qs_P k) -> l = lit_Q \/ l = lit_P.
Proof.
  unfold clause_Qs_P. rewrite in_app_iff. intros [H|[<-|[]]]; [|auto].
  left. exact (repeat_spec _ _ _ H).
Qed.

Lemma clause_Qs_P_length k : List.length (clause_Qs_P k) = S k.
Proof. unfold clause_Qs_P. rewrite length_app, repeat_length. simpl. lia. Qed.

Lemma clause_Qs_P_inj j k : clause_Qs_P j = clause_Qs_P k -> j = k.
Proof.
  intros H. apply (f_equal (@List.length Literal)) in H.
  rewrite !clause_Qs_P_length in H. lia.
Qed.

Lemma clause_Qs_P_not_notP_Q_P k : clause_Qs_P k <> clause_notP_Q_P.
Proof.
  intros H. assert (Hin : In lit_notP (clause_Qs_P k)) by (rewrite H; simpl; auto).
  apply In_clause_Qs_P in Hin as [Hin|Hin]; discriminate.
Qed.

Lemma In_KB_after n c :
  In c (KB_after n) <->
  c = clause_notP_Q_P \/ exists k, 1 <= k <= S n /\ c = clause_Qs_P k.
Proof.
  unfold KB_after. simpl. rewrite in_map_iff. split.
  - intros [<-|[<-|(k & <- & Hk)]]; [right; exists 1; split; [lia|reflexivity]|auto|].
    apply in_seq in Hk. right. exists k. split; [lia|reflexivity].
  - intros [->|(k & Hk & ->)]; [auto|].
    destruct (Nat.eq_dec k 1) as [->|Hne]; [left; reflexivity|].
    right. right. exists k. split; [reflexivity|]. apply in_seq. lia.
Qed.

Lemma NoDup_KB_after n : List.NoDup (KB_after n).
Proof.
  unfold KB_after. constructor; [|constructor].
  - simpl. rewrite in_map_iff. intros [H|(k & H & Hk)].
    + exact (clause_Qs_P_not_notP_Q_P 1 (eq_sym H)).
    + apply (clause_Qs_P_inj k 1) in H. apply in_seq in Hk. lia.
  - rewrite in_map_iff. intros (k & H & _).
    exact (clause_Qs_P_not_notP_Q_P k H).
  - generalize (seq_NoDup n 2). generalize (seq 2 n) as l.
    induction 1 as [|k l Hk _ IH]; simpl; constructor; [|exact IH].
    rewrite in_map_iff. intros (j & H & Hj).
    apply clause_Qs_P_inj in H. subst j. contradiction.
Qed.

Lemma KB_after_S n : KB_after (S n) = KB_after n ++ [clause_Qs_P (S (S n))].
Proof. unfold KB_after. rewrite seq_S, map_app. reflexivity. Qed.

Lemma In_processed_after n p :
  In p (processed_after n) <->
  exists k, 1 <= k <= n /\
    (p = (clause_Qs_P k, clause_notP_Q_P) \/ p = (clause_notP_Q_P, clause_Qs_P k)).
Proof.
  unfold processed_after. rewrite in_flat_map. split.
  - intros (k & Hk & [<-|[<-|[]]]); apply in_seq in Hk; exists k; (split; [lia|auto]).
  - intros (k & Hk & H). exists k. split; [apply in_seq; lia|].
    simpl. destruct H as [->| ->]; auto.
Qed.

Lemma processed_after_S n :
  processed_after (S n) =
  processed_after n ++ [(clause_Qs_P (S n), clause_notP_Q_P);
                        (clause_notP_Q_P, clause_Qs_P (S n))].
Proof. unfold processed_after. rewrite seq_S, flat_map_app. simpl. reflexivity. Qed.

Lemma add_pair_new p s : ~ In p s -> add_pair p s = s ++ [p].
Proof.
  intros H. unfold add_pair. destruct (mem_pair p s) eqn:E; [|reflexivity].
  apply mem_pair_In in E. contradiction.
Qed.

Lemma mem_clause_not_In c s : ~ In c s -> mem_clause c s = false.
Proof.
  intros H. destruct (mem_clause c s) eqn:E; [|reflexivity].
  apply mem_clause_In in E. contradiction.
Qed.

Lemma filter_repeat_Q k :
  List.filter (fun t => negb (Literal_eqb t lit_P)) (repeat lit_Q k) = repeat lit_Q k.
Proof. induction k as [|k IH]; simpl; [reflexivity | rewrite IH; reflexivity]. Qed.

(** The resolvent of [(Q, ..., Q, P)] and [(!P, Q, P)] has one more [Q]. *)
Lemma PL_Resolve_Qs_P fuel k st :
  PL_Resolve fuel (clause_Qs_P k) clause_notP_Q_P st
  = (Ret [clause_Qs_P (S k)], st).
Proof.
  unfold PL_Resolve.
  set (body := fun resolvents literal =>
     do compliment <- lift (compliment_of (Predicate literal));
     foldM (resolve_literals fuel (clause_Qs_P k) clause_notP_Q_P literal compliment)
       clause_notP_Q_P resolvents).
  assert (HQ : forall m, foldM body (repeat lit_Q m) [] st = (Ret [], st)).
  { induction m as [|m IH]; [reflexivity|]. simpl repeat.
    rewrite (foldM_cons_Ret body lit_Q (repeat lit_Q m) [] st [] st);
      [exact IH | reflexivity]. }
  unfold clause_Qs_P at 1. rewrite foldM_app. unfold bind at 1. rewrite HQ.
  unfold foldM, body, bind, lift, ret. simpl.
  unfold set_add. simpl. f_equal. f_equal. f_equal.
  unfold make_clause, clause_Qs_P. rewrite List.filter_app. simpl.
  rewrite filter_repeat_Q, app_nil_r.
  rewrite app_comm_cons, repeat_cons, <- app_assoc. reflexivity.
Qed.

Lemma clause_eqb_notP_Q_P_Qs_P k : clause_eqb clause_notP_Q_P (clause_Qs_P k) = false.
Proof.
  destruct (clause_eqb clause_notP_Q_P (clause_Qs_P k)) eqn:E; [|reflexivity].
  apply clause_eqb_eq in E. destruct (clause_Qs_P_not_notP_Q_P k (eq_sym E)).
Qed.

Lemma get_pairs_no_match (orig clause : Clause) (lits : list Literal) matches :
  (forall l, In l lits -> Predicate l <> "!P") ->
  fold_left
    (fun matches literal =>
       if String.eqb (Predicate literal) "!P"
          && negb (mem_clause clause matches)
          && negb (clause_eqb clause orig)
       then set_add clause matches
       else matches)
    lits matches = matches.
Proof.
  revert matches. induction lits as [|l r IH]; intros matches H; simpl; [reflexivity|].
  assert (E : String.eqb (Predicate l) "!P" = false).
  { apply String.eqb_neq, H. simpl. auto. }
  rewrite E. simpl. apply IH. intros l' Hl'. apply H. simpl. auto.
Qed.

Section NeverStops.

Variable iter : list Clause -> list Clause.
Hypothesis Hperm : iter_is_permutation iter.

(** Only [(!P, Q, P)] carries the predicate [!P]. *)
Lemma get_pairs_notP (orig : Clause) (KB : list Clause) :
  (forall c, In c KB -> c = clause_notP_Q_P \/ exists k, c = clause_Qs_P k) ->
  get_pairs iter orig "!P" KB =
  if negb (clause_eqb clause_notP_Q_P orig) && mem_clause clause_notP_Q_P KB
  then [clause_notP_Q_P] else [].
Proof.
  intros HKB. unfold get_pairs.
  assert (Hmem : mem_clause clause_notP_Q_P KB = mem_clause clause_notP_Q_P (iter KB)).
  { destruct (mem_clause clause_notP_Q_P (iter KB)) eqn:E.
    - apply mem_clause_In. apply mem_clause_In in E. apply (iter_In_iff iter KB _ Hperm), E.
    - apply mem_clause_not_In. intros H. apply (iter_In_iff iter KB _ Hperm) in H.
      apply mem_clause_In in H. congruence. }
  rewrite Hmem.
  assert (Hl : forall c, In c (iter KB) ->
                 c = clause_notP_Q_P \/ exists k, c = clause_Qs_P k).
  { intros c Hc. apply HKB, (iter_In_iff iter KB _ Hperm), Hc. }
  clear Hmem HKB. revert Hl. generalize (iter KB) as l.
  set (F := fun (matches : list Clause) (clause : Clause) =>
       fold_left
         (fun matches literal =>
            if String.eqb (Predicate literal) "!P"
               && negb (mem_clause clause matches)
               && negb (clause_eqb clause orig)
            then set_add clause matches
            else matches)
         clause matches).
  assert (Hd : forall k acc, F acc (clause_Qs_P k) = acc).
  { intros k acc. apply get_pairs_no_match. intros l Hl.
    apply In_clause_Qs_P in Hl as [->| ->]; discriminate. }
  assert (H1 : F [clause_notP_Q_P] clause_notP_Q_P = [clause_notP_Q_P]) by reflexivity.
  assert (H0 : F [] clause_notP_Q_P =
               if negb (clause_eqb clause_notP_Q_P orig) then [clause_notP_Q_P] else []).
  { unfold F. simpl. destruct (list_eqb Literal_eqb clause_notP_Q_P orig) eqn:E.
    - change (clause_eqb clause_notP_Q_P orig = true) in E. rewrite E. reflexivity.
    - change (clause_eqb clause_notP_Q_P orig = false) in E. rewrite E. reflexivity. }
  clearbody F.
  assert (Hone : forall l,
            (forall c, In c l -> c = clause_notP_Q_P \/ exists k, c = clause_Qs_P k) ->
            fold_left F l [clause_notP_Q_P] = [clause_notP_Q_P]).
  { induction l as [|c r IH]; intros Hl; simpl; [reflexivity|].
    destruct (Hl c (or_introl eq_refl)) as [->|(k & ->)].
    - rewrite H1. apply IH. intros c Hc. apply Hl. simpl. auto.
    - rewrite Hd. apply IH. intros c Hc. apply Hl. simpl. auto. }
  induction l as [|c r IH]; intros Hl; simpl.
  - rewrite andb_false_r. reflexivity.
  - destruct (Hl c (or_introl eq_refl)) as [->|(k & ->)].
    + rewrite H0. replace (clause_eqb clause_notP_Q_P clause_notP_Q_P) with true
        by (symmetry; apply clause_eqb_eq; reflexivity).
      simpl orb. rewrite andb_true_r.
      destruct (negb (clause_eqb clause_notP_Q_P orig)) eqn:E.
      * apply Hone. intros c Hc. apply Hl. simpl. auto.
      * rewrite IH by (intros c Hc; apply Hl; simpl; auto). reflexivity.
    + rewrite Hd. rewrite IH by (intros c Hc; apply Hl; simpl; auto).
      replace (clause_eqb clause_notP_Q_P (clause_Qs_P k)) with false
        by (symmetry; apply clause_eqb_notP_Q_P_Qs_P).
      reflexivity.
Qed.

Lemma matched_of_Qs_P (KB : list Clause) k st :
  (forall c, In c KB -> c = clause_notP_Q_P \/ exists k, c = clause_Qs_P k) ->
  matched_of iter KB (clause_Qs_P k) st
  = (Ret (if mem_clause clause_notP_Q_P KB then [clause_notP_Q_P] else []), st).
Proof.
  intros HKB. unfold clause_Qs_P. rewrite matched_of_last.
  - change (compliment_of (Predicate lit_P)) with (Ret "!P").
    unfold bind, lift, ret. fold (clause_Qs_P k).
    rewrite (get_pairs_notP _ KB HKB). rewrite clause_eqb_notP_Q_P_Qs_P. reflexivity.
  - apply List.Forall_forall. intros l Hl. apply repeat_spec in Hl. subst l. discriminate.
Qed.

Lemma matched_of_notP_Q_P (KB : list Clause) st :
  (forall c, In c KB -> c = clause_notP_Q_P \/ exists k, c = clause_Qs_P k) ->
  matched_of iter KB clause_notP_Q_P st = (Ret [], st).
Proof.
  intros HKB. change clause_notP_Q_P with ([lit_notP; lit_Q] ++ [lit_P]).
  rewrite matched_of_last.
  - change (compliment_of (Predicate lit_P)) with (Ret "!P").
    unfold bind, lift, ret.
    rewrite (get_pairs_notP _ KB HKB). reflexivity.
  - repeat constructor; discriminate.
Qed.

(** A clause whose pair is already processed adds nothing to the round. *)
Lemma collect_step_skip (KB : list Clause) acc c st :
  (forall c, In c KB -> c = clause_notP_Q_P \/ exists k, c = clause_Qs_P k) ->
  (c = clause_notP_Q_P \/
   exists k, c = clause_Qs_P k /\ In (clause_Qs_P k, clause_notP_Q_P) (snd acc)) ->
  (do matched <- matched_of iter KB c; ret (collect_matches iter c acc matched)) st
  = (Ret acc, st).
Proof.
  intros HKB [->|(k & -> & Hin)]; unfold bind.
  - rewrite (matched_of_notP_Q_P KB st HKB). unfold ret, collect_matches.
    rewrite (iter_nil iter Hperm). reflexivity.
  - rewrite (matched_of_Qs_P KB k st HKB). unfold ret, collect_matches.
    destruct (mem_clause clause_notP_Q_P KB).
    + rewrite (iter_single iter _ Hperm). simpl.
      rewrite (proj2 (mem_pair_In _ _) Hin). reflexivity.
    + rewrite (iter_nil iter Hperm). reflexivity.
Qed.

Lemma collect_step_new (KB : list Clause) acc k st :
  (forall c, In c KB -> c = clause_notP_Q_P \/ exists k, c = clause_Qs_P k) ->
  In clause_notP_Q_P KB ->
  ~ In (clause_Qs_P k, clause_notP_Q_P) (snd acc) ->
  ~ In (clause_notP_Q_P, clause_Qs_P k) (snd acc) ->
  (do matched <- matched_of iter KB (clause_Qs_P k);
   ret (collect_matches iter (clause_Qs_P k) acc matched)) st
  = (Ret (fst acc ++ [(clause_Qs_P k, clause_notP_Q_P)],
          snd acc ++ [(clause_Qs_P k, clause_notP_Q_P);
                      (clause_notP_Q_P, clause_Qs_P k)]), st).
Proof.
  intros HKB Hin H1 H2. unfold bind.
  rewrite (matched_of_Qs_P KB k st HKB), (proj2 (mem_clause_In _ _) Hin).
  unfold ret, collect_matches. rewrite (iter_single iter _ Hperm). simpl.
  rewrite (proj2 (mem_pair_false _ _) H1), (proj2 (mem_pair_false _ _) H2). simpl.
  rewrite (add_pair_new _ _ H1), add_pair_new.
  - rewrite <- app_assoc. reflexivity.
  - rewrite in_app_iff. intros [H|[H|[]]]; [exact (H2 H)|].
    apply pair_equal_spec in H as [H _]. exact (clause_Qs_P_not_notP_Q_P k H).
Qed.

Lemma collect_skip_all (KB : list Clause) l acc st :
  (forall c, In c KB -> c = clause_notP_Q_P \/ exists k, c = clause_Qs_P k) ->
  (forall c, In c l ->
     c = clause_notP_Q_P \/
     exists k, c = clause_Qs_P k /\ In (clause_Qs_P k, clause_notP_Q_P) (snd acc)) ->
  foldM (fun acc clause =>
           do matched <- matched_of iter KB clause;
           ret (collect_matches iter clause acc matched)) l acc st
  = (Ret acc, st).
Proof.
  intros HKB. induction l as [|c r IH]; intros Hl; [reflexivity|].
  rewrite (foldM_cons_Ret _ c r acc st acc st).
  - apply IH. intros c' Hc'. apply Hl. simpl. auto.
  - apply (collect_step_skip KB acc c st HKB). apply Hl. simpl. auto.
Qed.

Lemma KB_after_shape n c :
  In c (KB_after n) -> c = clause_notP_Q_P \/ exists k, c = clause_Qs_P k.
Proof.
  intros H. apply In_KB_after in H as [->|(k & _ & ->)]; eauto.
Qed.

(** In round [n + 1] one pair is new: [(Q, ..., Q, P)] with [n + 1] copies
    of [Q], against [(!P, Q, P)]. *)
Lemma collect_pairs_after n st :
  collect_pairs iter (KB_after n) (processed_after n) st
  = (Ret ([(clause_Qs_P (S n), clause_notP_Q_P)], processed_after (S n)), st).
Proof.
  unfold collect_pairs.
  assert (Hin : In (clause_Qs_P (S n)) (iter (KB_after n))).
  { apply (iter_In_iff iter _ _ Hperm), In_KB_after. right. exists (S n). split; [lia|reflexivity]. }
  apply in_split in Hin as (l1 & l2 & E). rewrite E.
  assert (Hnd : List.NoDup (l1 ++ clause_Qs_P (S n) :: l2)).
  { rewrite <- E. apply (Permutation.Permutation_NoDup (Permutation_sym (Hperm _))).
    apply NoDup_KB_after. }
  apply NoDup_remove_2 in Hnd.
  assert (Hold : forall c, In c (l1 ++ l2) ->
            c = clause_notP_Q_P \/
            exists k, c = clause_Qs_P k /\ 1 <= k <= n).
  { intros c Hc.
    assert (Hc' : In c (KB_after n)).
    { apply (iter_In_iff iter _ _ Hperm). rewrite E.
      apply in_app_iff in Hc. apply in_app_iff. simpl. tauto. }
    apply In_KB_after in Hc' as [->|(k & Hk & ->)]; [auto|].
    right. exists k. split; [reflexivity|].
    destruct (Nat.eq_dec k (S n)) as [->|Hne]; [contradiction | lia]. }
  rewrite foldM_app. unfold bind at 1.
  rewrite (collect_skip_all (KB_after n) l1 _ st (KB_after_shape n)).
  2:{ intros c Hc. destruct (Hold c) as [->|(k & -> & Hk)];
        [apply in_app_iff; auto | auto |].
      right. exists k. split; [reflexivity|]. cbn [snd].
      apply In_processed_after. exists k. auto. }
  assert (Hstep :
    (do matched <- matched_of iter (KB_after n) (clause_Qs_P (S n));
     ret (collect_matches iter (clause_Qs_P (S n)) ([], processed_after n) matched)) st
    = (Ret ([(clause_Qs_P (S n), clause_notP_Q_P)], processed_after (S n)), st)).
  { rewrite processed_after_S.
    apply (collect_step_new (KB_after n) ([], processed_after n) (S n) st
             (KB_after_shape n)).
    - apply In_KB_after. auto.
    - simpl. rewrite In_processed_after.
      intros (k & Hk & [H|H]); apply pair_equal_spec in H as [H1 H2].
      + apply clause_Qs_P_inj in H1. lia.
      + exact (clause_Qs_P_not_notP_Q_P _ H1).
    - simpl. rewrite In_processed_after.
      intros (k & Hk & [H|H]); apply pair_equal_spec in H as [H1 H2].
      + exact (clause_Qs_P_not_notP_Q_P _ (eq_sym H1)).
      + apply clause_Qs_P_inj in H2. lia. }
  rewrite (foldM_cons_Ret _ _ l2 _ st _ st Hstep).
  apply (collect_skip_all (KB_after n) l2 _ st (KB_after_shape n)).
  intros c Hc. destruct (Hold c) as [->|(k & -> & Hk)];
    [apply in_app_iff; auto | auto |].
  right. exists k. split; [reflexivity|]. cbn [snd].
  apply In_processed_after. exists k. split; [lia|auto].
Qed.

Lemma PL_Resolution_loop_after rounds fuel : forall n st,
  fst (PL_Resolution_loop iter rounds fuel (KB_after n) (processed_after n) st)
  = OutOfFuel.
Proof.
  induction rounds as [|rounds IH]; intros n st; [reflexivity|].
  rewrite PL_Resolution_loop_S. unfold bind at 1. rewrite collect_pairs_after.
  simpl fst. simpl snd. unfold bind at 1. simpl resolve_pairs.
  unfold bind at 1. unfold log_resolve at 1. unfold bind at 1.
  simpl fst. simpl snd. rewrite PL_Resolve_Qs_P.
  change (set_union [] [clause_Qs_P (S (S n))]) with [clause_Qs_P (S (S n))].
  assert (Hnew : mem_clause (clause_Qs_P (S (S n))) (KB_after n) = false).
  { apply mem_clause_not_In. rewrite In_KB_after. intros [H|(k & Hk & H)].
    - exact (clause_Qs_P_not_notP_Q_P _ H).
    - apply clause_Qs_P_inj in H. lia. }
  replace (mem_clause [] [clause_Qs_P (S (S n))]) with false by reflexivity.
  unfold ret at 1. unfold issubset. cbn [forallb]. rewrite Hnew. cbn [andb].
  unfold set_union. cbn [fold_left]. unfold set_add. rewrite Hnew.
  rewrite <- KB_after_S. apply IH.
Qed.

End NeverStops.

(** C3 fails on the code: a resolvent is the tuple that [make_clause]
    concatenates, not a set of literals.  The resolvent of [{P, Q}] and
    [{!P, Q}] is [(Q, Q)]: the duplicate does not collapse.  The resolvents
    [(Q, R)] and [(R, Q)] of the same two clauses taken in the two orders
    are two members of a set of clauses, and a set that holds one is not a
    superset of a set that holds the other.  [PL_Resolution], which is to
    return [True] if the knowledge base is satisfiable and [False] if not,
    tests [new.issubset(KB)] to find the
    fixpoint, so this costs it termination on propositional input: on
    [{(Q, P), (!P, Q, P)}], which the valuation with [Q] true satisfies,
    [(Q, ..., Q, P)] with [k] copies of [Q] resolves with [(!P, Q, P)] to
    the tuple with [k + 1] copies, which has the literals of [(Q, P)] and
    is nevertheless a new member of the knowledge base; in whichever order
    the sets are visited, every round adds one such tuple and no number of
    rounds gives a verdict. *)
Theorem duplicate_literals_never_collapse :
  fst (PL_Resolve 0 [lit_P; lit_Q] [lit_notP; lit_Q] (mkState [] []))
    = Ret [[lit_Q; lit_Q]] /\
  fst (PL_Resolve 0 [lit_P; lit_Q] [lit_notP; lit_R] (mkState [] []))
    = Ret [[lit_Q; lit_R]] /\
  fst (PL_Resolve 0 [lit_notP; lit_R] [lit_P; lit_Q] (mkState [] []))
    = Ret [[lit_R; lit_Q]] /\
  issubset [[lit_R; lit_Q]] [[lit_Q; lit_R]] = false /\
  (forall fuel k st,
     PL_Resolve fuel (clause_Qs_P k) clause_notP_Q_P st
     = (Ret [clause_Qs_P (S k)], st)) /\
  (forall k l, In l (clause_Qs_P (S k)) <-> In l clause_QP) /\
  (forall k, issubset [clause_Qs_P (S (S k))] (KB_after k) = false) /\
  models only_Q [clause_QP; clause_notP_Q_P] /\
  (forall iter rounds fuel st,
     iter_is_permutation iter ->
     fst (PL_Resolution iter rounds fuel [clause_QP; clause_notP_Q_P] st)
     = OutOfFuel).
Proof.
  split; [reflexivity|]. split; [reflexivity|]. split; [reflexivity|].
  split; [reflexivity|]. split; [apply PL_Resolve_Qs_P|]. split; [|split; [|split]].
  - intros k l. split.
    + intros H. apply In_clause_Qs_P in H as [->| ->]; simpl; auto.
    + intros [<-|[<-|[]]]; unfold clause_Qs_P.
      * simpl. auto.
      * apply in_or_app. simpl. auto.
  - intros k. unfold issubset. cbn [forallb]. rewrite mem_clause_not_In; [reflexivity|].
    rewrite In_KB_after. intros [H|(j & Hj & H)].
    + exact (clause_Qs_P_not_notP_Q_P _ H).
    + apply clause_Qs_P_inj in H. lia.
  - intros c [<-|[<-|[]]]; reflexivity.
  - intros iter rounds fuel st Hperm.
    apply (PL_Resolution_loop_after iter Hperm rounds fuel 0 st).
Qed.

Lemma duplicate_literals_never_collapse_witness :
  fst (PL_Resolution (fun s => s) 6 0 [clause_QP; clause_notP_Q_P] (mkState [] []))
  = OutOfFuel.
Proof.
  apply (proj2 (proj2 (proj2 (proj2 (proj2 (proj2 (proj2 (proj2
           duplicate_literals_never_collapse)))))))).
  intros s. apply Permutation_refl.
Defined.
